(** * sweet::lexer::LexerGenerator: a shallow embedding

    The development follows [src/sweet/lexer/LexerGenerator.cpp].  Characters,
    lines and token types are C++ [int]s that are only ever compared, so they
    are integers of [Z]; [added] and the indices count states and actions
    and stay far from [INT_MAX], where signed arithmetic has no defined
    result anyway.  A [std::vector] is a list, a [std::set] is the list of
    its elements in iteration order.

    [SWEET_ASSERT] comes from [sweet/assert/assert.hpp], which is not part of
    the sources at hand.  Its conditions are collected, per function, in a
    boolean precondition ([goto_pre], [add_lexer_action_pre], ...); the
    function itself is the code that runs when every assertion passes or the
    macro expands to nothing. *)

From Stdlib Require Import ZArith Arith List Bool Lia String Permutation Sorted.
Import ListNotations.
Local Open Scope Z_scope.

(** * The distinct ranges ([ranges_], [clear], [insert]) *)

(** [std::vector<std::pair<int, bool>> ranges_]: a character and whether the
    characters from it onwards are in or out. *)
Definition Ranges := list (Z * bool).

(** [LexerGenerator::clear]. *)
Definition clear (ranges : Ranges) : Ranges := [].

(** First loop of [insert]: advance while [i->first < begin], remembering the
    flag of the last marker passed.  Returns the markers passed, the flag and
    the markers from [i] on. *)
Fixpoint skip_below (begin : Z) (in_ : bool) (ranges : Ranges)
  : Ranges * bool * Ranges :=
  match ranges with
  | [] => ([], in_, [])
  | (c, f) :: rest =>
      if c <? begin
      then let '(passed, in', rest') := skip_below begin f rest in
           ((c, f) :: passed, in', rest')
      else ([], in_, ranges)
  end.

(** Second loop of [insert]: while [i->first < end], remember the flag and
    overwrite it with [true]. *)
Fixpoint mark_below (end_ : Z) (in_ : bool) (ranges : Ranges)
  : Ranges * bool * Ranges :=
  match ranges with
  | [] => ([], in_, [])
  | (c, f) :: rest =>
      if c <? end_
      then let '(marked, in', rest') := mark_below end_ f rest in
           ((c, true) :: marked, in', rest')
      else ([], in_, ranges)
  end.

(** [i == ranges_.end() || i->first != c]. *)
Definition absent_at (c : Z) (ranges : Ranges) : bool :=
  match ranges with
  | [] => true
  | (c', _) :: _ => negb (c' =? c)
  end.

(** [LexerGenerator::insert]. *)
Definition insert (begin end_ : Z) (ranges : Ranges) : Ranges :=
  let '(passed, in1, rest1) := skip_below begin false ranges in
  let opened := if absent_at begin rest1 then [(begin, true)] else [] in
  let '(marked, in2, rest2) := mark_below end_ in1 rest1 in
  let closed := if absent_at end_ rest2 then [(end_, in2)] else [] in
  passed ++ opened ++ marked ++ closed ++ rest2.

(** The loop over [ranges_] in [generate_states]: [j] and [j + 1] give the
    range handed to [goto_]; then [j] advances once, and once more when the
    marker reached is out.  [None] when [j + 1] is [ranges_.end()], which the
    code dereferences. *)
Fixpoint distinct_ranges (ranges : Ranges) : option (list (Z * Z)) :=
  match ranges with
  | [] => Some []
  | (b, _) :: tl =>
      match tl with
      | [] => None
      | (e, in_e) :: rest =>
          option_map (cons (b, e))
            (if in_e then distinct_ranges tl else distinct_ranges rest)
      end
  end.

(** The iteration as the specification words it: walk the markers pairwise,
    an adjacent pair whose left marker is in yields an interval. *)
Fixpoint inside_intervals (ranges : Ranges) : list (Z * Z) :=
  match ranges with
  | [] => []
  | (c, f) :: tl =>
      match tl with
      | [] => []
      | (c', _) :: _ =>
          if f then (c, c') :: inside_intervals tl else inside_intervals tl
      end
  end.

(** Insert a sequence of ranges into a cleared set, first to last. *)
Definition insert_all (rs : list (Z * Z)) : Ranges :=
  fold_left (fun m r => insert (fst r) (snd r) m) rs (clear []).

(** [x] lies in the half-open range [r]. *)
Definition in_range (x : Z) (r : Z * Z) : Prop := fst r <= x < snd r.

Definition in_rangeb (x : Z) (r : Z * Z) : bool :=
  (fst r <=? x) && (x <? snd r).

(** [x] lies in the union of the ranges [rs]. *)
Definition in_union (rs : list (Z * Z)) (x : Z) : Prop :=
  exists r, In r rs /\ in_range x r.

(** The inside status at [x] that a marker list encodes: the flag of the last
    marker at or below [x], [cur] when there is none. *)
Fixpoint inside_from (cur : bool) (ranges : Ranges) (x : Z) : bool :=
  match ranges with
  | [] => cur
  | (c, f) :: tl => inside_from (if c <=? x then f else cur) tl x
  end.

Definition chars (ranges : Ranges) : list Z := map fst ranges.

(** Markers strictly ascending by character. *)
Definition ascending (ranges : Ranges) : Prop :=
  StronglySorted Z.lt (chars ranges).

(** No out marker follows an out marker; [prev] is the flag before the list. *)
Fixpoint no_out_out (prev : bool) (ranges : Ranges) : Prop :=
  match ranges with
  | [] => True
  | (_, f) :: tl => (f = false -> prev = true) /\ no_out_out f tl
  end.

(** The flag of the last marker, [d] for an empty list. *)
Definition last_flag (d : bool) (ranges : Ranges) : bool :=
  fold_left (fun _ m => snd m) ranges d.

(** [insert] unrolled into two structurally recursive passes, used to reason
    about it: [insert_open] looks for the place of [begin], [insert_close]
    marks up to [end]. *)
Fixpoint insert_close (end_ : Z) (in_ : bool) (ranges : Ranges) : Ranges :=
  match ranges with
  | [] => [(end_, in_)]
  | (c, f) :: rest =>
      if c <? end_ then (c, true) :: insert_close end_ f rest
      else if c =? end_ then ranges
      else (end_, in_) :: ranges
  end.

Fixpoint insert_open (begin end_ : Z) (in_ : bool) (ranges : Ranges) : Ranges :=
  match ranges with
  | [] => [(begin, true); (end_, in_)]
  | (c, f) :: rest =>
      if c <? begin then (c, f) :: insert_open begin end_ f rest
      else if c =? begin then insert_close end_ in_ ranges
      else (begin, true) :: insert_close end_ in_ ranges
  end.

(** The invariant of [ranges_] between calls of [insert]. *)
Definition well_marked (ranges : Ranges) : Prop :=
  ascending ranges /\ no_out_out false ranges /\ last_flag false ranges = false.

(** Intervals non-empty, in ascending order and pairwise disjoint. *)
Definition intervals_ordered (out : list (Z * Z)) : Prop :=
  Forall (fun r => fst r < snd r) out
  /\ StronglySorted (fun r r' => snd r <= fst r') out.

(** The intervals [out] cover exactly the union of the ranges [rs]. *)
Definition covers_union (rs out : list (Z * Z)) : Prop :=
  forall x, in_union out x <-> in_union rs x.

(** [r] is a maximal interval of the union of [rs]: the characters next to it
    on either side are outside the union. *)
Definition maximal_in_union (rs : list (Z * Z)) (r : Z * Z) : Prop :=
  ~ in_union rs (fst r - 1) /\ ~ in_union rs (snd r).

(** [r] is entirely inside or entirely outside every range of [rs]. *)
Definition uniform (rs : list (Z * Z)) (r : Z * Z) : Prop :=
  forall q, In q rs ->
    (fst q <= fst r /\ snd r <= snd q) \/ snd r <= fst q \/ snd q <= fst r.

(** [r] is uniform and no interval that extends it is. *)
Definition maximal_uniform (rs : list (Z * Z)) (r : Z * Z) : Prop :=
  uniform rs r
  /\ forall r', fst r' <= fst r -> snd r <= snd r' -> uniform rs r' -> r' = r.

(** [c] is the begin or the end of one of the ranges [rs]. *)
Definition is_endpoint (rs : list (Z * Z)) (c : Z) : Prop :=
  exists q, In q rs /\ (c = fst q \/ c = snd q).

Definition nonempty_range (r : Z * Z) : Prop := fst r < snd r.

(** [out] is the list of the maximal disjoint intervals whose union is the
    union of [rs]. *)
Definition maximal_union_intervals (rs out : list (Z * Z)) : Prop :=
  intervals_ordered out /\ covers_union rs out
  /\ Forall (maximal_in_union rs) out.

(** [out] is the coarsest partition of the union of [rs] into intervals that
    are each entirely inside or outside every range of [rs]. *)
Definition coarsest_uniform_partition (rs out : list (Z * Z)) : Prop :=
  intervals_ordered out /\ covers_union rs out
  /\ Forall (maximal_uniform rs) out.

(** * Tokens, regular expression nodes, items and states

    Only [LexerGenerator.cpp] is at hand; the classes it uses are modelled
    from the specification, with the member names the generator calls. *)

(** Declarations that the generator uses and the sources at hand do not give:
    the null member of [LexerTokenType] and the two sentinel characters. *)
Class Declarations := {
  TOKEN_NULL : Z;
  INVALID_BEGIN_CHARACTER : Z;
  INVALID_END_CHARACTER : Z
}.

(** [INT_MAX] of [<limits.h>] for a 32-bit [int]. *)
Definition INT_MAX : Z := 2147483647.

(** Modelled from the spec: [LexerToken] is missing; a token has a type (its
    priority), the line it was defined on and a symbol, an opaque reference
    that may be null. *)
Record LexerToken := {
  token_type : Z;
  token_line : Z;
  token_symbol : option nat
}.

(** Modelled from the spec: [RegexNode] is missing; a position is a leaf with
    a half-open character range, an end marker carries its token, and the
    follow positions are node identifiers. *)
Record RegexNode := {
  begin_character : Z;
  end_character : Z;
  is_end : bool;
  get_token : option LexerToken;
  follow_positions : list nat
}.

(** Modelled from the spec: [RegexParser] is missing; the generator reads
    whether it is empty, its number of errors, the first positions of its
    root node, and the nodes themselves through their identifiers.  A parser
    is constructed with the generator, [RegexParser(tokens, this)]:
    [parser_actions] are the action identifiers of its token specifications,
    which the construction interns in the generator with [add_lexer_action],
    in that order. *)
Record RegexParser := {
  parser_empty : bool;
  parser_errors : Z;
  first_positions : list nat;
  node_at : nat -> RegexNode;
  parser_actions : list string
}.

(** [std::lexicographical_compare], three-way. *)
Fixpoint lexicographical_compare {A : Type} (cmp : A -> A -> comparison)
  (l1 l2 : list A) : comparison :=
  match l1, l2 with
  | [], [] => Eq
  | [], _ :: _ => Lt
  | _ :: _, [] => Gt
  | a :: l1', b :: l2' =>
      match cmp a b with
      | Eq => lexicographical_compare cmp l1' l2'
      | c => c
      end
  end.

(** [std::set::insert] on the list of the elements in order: the new set and
    whether the element was inserted. *)
Fixpoint set_insert {A : Type} (cmp : A -> A -> comparison) (x : A)
  (l : list A) : list A * bool :=
  match l with
  | [] => ([x], true)
  | y :: tl =>
      match cmp x y with
      | Lt => (x :: l, true)
      | Eq => (l, false)
      | Gt => let '(tl', inserted) := set_insert cmp x tl in (y :: tl', inserted)
      end
  end.

(** Modelled from the spec: [LexerItem] is missing; an item is a set of
    positions, [std::set<RegexNode*, RegexNodeLess>], ordered by node
    identifier; items compare lexicographically. *)
Definition LexerItem := list nat.

Definition item_compare : LexerItem -> LexerItem -> comparison :=
  lexicographical_compare Nat.compare.

(** Modelled from the spec: [LexerItem::get_next_nodes], the positions of the
    item, here with their nodes looked up. *)
Definition get_next_nodes (node : nat -> RegexNode) (item : LexerItem)
  : list RegexNode := map node item.

(** Modelled from the spec: [RegexNode::is_match] is missing; [n] is not an
    end marker and its character range intersects [begin, end). *)
Definition is_match (n : RegexNode) (begin end_ : Z) : bool :=
  negb (is_end n) && (begin <? end_character n) && (begin_character n <? end_).

(** Modelled from the spec: [LexerItem::next_nodes(begin, end)], the union of
    the follow positions of every position of the item that is not an end
    marker and whose range intersects [begin, end). *)
Definition next_nodes (node : nat -> RegexNode) (item : LexerItem)
  (begin end_ : Z) : list nat :=
  fold_left
    (fun acc i =>
       if is_match (node i) begin end_
       then fold_left (fun acc' p => fst (set_insert Nat.compare p acc'))
              (follow_positions (node i)) acc
       else acc)
    item [].

(** The fields of a [LexerState]. *)
Inductive Field := FItems | FTransitions | FSymbol | FProcessed | FIndex.

(** Modelled from the spec: [LexerTransition] is missing; a transition on
    [begin, end) to a state.  The [LexerState*] is modelled by the items of
    the state pointed to, which identify it in the set. *)
Record LexerTransition := {
  transition_begin : Z;
  transition_end : Z;
  transition_state : list LexerItem
}.

(** Modelled from the spec: [LexerState] is missing.  [writes_] is ghost: the
    fields written on this object, oldest first. *)
Record LexerState := {
  items_ : list LexerItem;
  transitions_ : list LexerTransition;
  symbol_ : option nat;
  processed_ : bool;
  index_ : Z;
  writes_ : list Field
}.

(** Modelled from the spec: [new LexerState()], nothing set and not
    processed. *)
Definition new_LexerState : LexerState :=
  {| items_ := []; transitions_ := []; symbol_ := None; processed_ := false;
     index_ := -1; writes_ := [] |}.

(** Modelled from the spec: [LexerState::add_item] inserts an item into the
    ordered set of items. *)
Definition add_item (next : list nat) (s : LexerState) : LexerState :=
  {| items_ := fst (set_insert item_compare next (items_ s));
     transitions_ := transitions_ s; symbol_ := symbol_ s;
     processed_ := processed_ s; index_ := index_ s;
     writes_ := writes_ s ++ [FItems] |}.

(** Modelled from the spec: the transitions of a state are kept sorted by
    the begin of their range. *)
Definition transition_compare (t1 t2 : LexerTransition) : comparison :=
  Z.compare (transition_begin t1) (transition_begin t2).

(** Modelled from the spec: [LexerState::add_transition]. *)
Definition add_transition (begin end_ : Z) (target : list LexerItem)
  (s : LexerState) : LexerState :=
  {| items_ := items_ s;
     transitions_ :=
       fst (set_insert transition_compare
              {| transition_begin := begin; transition_end := end_;
                 transition_state := target |} (transitions_ s));
     symbol_ := symbol_ s; processed_ := processed_ s; index_ := index_ s;
     writes_ := writes_ s ++ [FTransitions] |}.

(** Modelled from the spec: the setters of [LexerState]. *)
Definition set_symbol (symbol : option nat) (s : LexerState) : LexerState :=
  {| items_ := items_ s; transitions_ := transitions_ s; symbol_ := symbol;
     processed_ := processed_ s; index_ := index_ s;
     writes_ := writes_ s ++ [FSymbol] |}.

Definition set_processed (processed : bool) (s : LexerState) : LexerState :=
  {| items_ := items_ s; transitions_ := transitions_ s; symbol_ := symbol_ s;
     processed_ := processed; index_ := index_ s;
     writes_ := writes_ s ++ [FProcessed] |}.

Definition set_index (index : Z) (s : LexerState) : LexerState :=
  {| items_ := items_ s; transitions_ := transitions_ s; symbol_ := symbol_ s;
     processed_ := processed_ s; index_ := index;
     writes_ := writes_ s ++ [FIndex] |}.

(** Modelled from the spec: [shared_ptr_less<LexerState>] is missing; states
    compare by their items. *)
Definition items_compare : list LexerItem -> list LexerItem -> comparison :=
  lexicographical_compare item_compare.

Definition state_compare (s1 s2 : LexerState) : comparison :=
  items_compare (items_ s1) (items_ s2).

(** Modelled from the spec: [LexerAction] is missing; an action has the index
    and the identifier its constructor is given. *)
Record LexerAction := {
  action_index : Z;
  action_identifier : string
}.

(** What reaches the [LexerErrorPolicy]. *)
Inductive Error :=
| LexerSymbolConflictError (token other : LexerToken).

Inductive SinkCall :=
| lexer_error (line : Z) (error : Error)
| lexer_vprintf (format : string) (args : list Z).

(** * The generator *)

(** The members of [LexerGenerator].  [event_sink_] tells whether the pointer
    is non-null; [delivered_] is not a member: it is the sequence of calls the
    object behind [event_sink_] has received. *)
Record LexerGenerator := {
  event_sink_ : bool;
  actions_ : list LexerAction;
  states_ : list LexerState;
  whitespace_states_ : list LexerState;
  start_state_ : option (list LexerItem);
  whitespace_start_state_ : option (list LexerItem);
  ranges_ : Ranges;
  delivered_ : list SinkCall
}.

Definition set_actions (actions : list LexerAction) (g : LexerGenerator) :=
  {| event_sink_ := event_sink_ g; actions_ := actions; states_ := states_ g;
     whitespace_states_ := whitespace_states_ g;
     start_state_ := start_state_ g;
     whitespace_start_state_ := whitespace_start_state_ g;
     ranges_ := ranges_ g; delivered_ := delivered_ g |}.

Definition set_ranges (ranges : Ranges) (g : LexerGenerator) :=
  {| event_sink_ := event_sink_ g; actions_ := actions_ g; states_ := states_ g;
     whitespace_states_ := whitespace_states_ g;
     start_state_ := start_state_ g;
     whitespace_start_state_ := whitespace_start_state_ g;
     ranges_ := ranges; delivered_ := delivered_ g |}.

Definition set_delivered (calls : list SinkCall) (g : LexerGenerator) :=
  {| event_sink_ := event_sink_ g; actions_ := actions_ g; states_ := states_ g;
     whitespace_states_ := whitespace_states_ g;
     start_state_ := start_state_ g;
     whitespace_start_state_ := whitespace_start_state_ g;
     ranges_ := ranges_ g; delivered_ := calls |}.

(** The member initializers of the constructors; nothing has been delivered
    to the sink yet. *)
Definition initial_generator (event_sink : bool) : LexerGenerator :=
  {| event_sink_ := event_sink; actions_ := []; states_ := [];
     whitespace_states_ := []; start_state_ := None;
     whitespace_start_state_ := None; ranges_ := []; delivered_ := [] |}.

(** [generate_states] is handed [&states_] and [&start_state_] or
    [&whitespace_states_] and [&whitespace_start_state_]. *)
Inductive Target := TokenStates | WhitespaceStates.

Definition get_states (t : Target) (g : LexerGenerator) : list LexerState :=
  match t with
  | TokenStates => states_ g
  | WhitespaceStates => whitespace_states_ g
  end.

Definition get_start_state (t : Target) (g : LexerGenerator)
  : option (list LexerItem) :=
  match t with
  | TokenStates => start_state_ g
  | WhitespaceStates => whitespace_start_state_ g
  end.

Definition set_states (t : Target) (states : list LexerState)
  (g : LexerGenerator) :=
  {| event_sink_ := event_sink_ g; actions_ := actions_ g;
     states_ := match t with TokenStates => states | _ => states_ g end;
     whitespace_states_ :=
       match t with WhitespaceStates => states | _ => whitespace_states_ g end;
     start_state_ := start_state_ g;
     whitespace_start_state_ := whitespace_start_state_ g;
     ranges_ := ranges_ g; delivered_ := delivered_ g |}.

Definition set_start_state (t : Target) (start : option (list LexerItem))
  (g : LexerGenerator) :=
  {| event_sink_ := event_sink_ g; actions_ := actions_ g;
     states_ := states_ g; whitespace_states_ := whitespace_states_ g;
     start_state_ := match t with TokenStates => start | _ => start_state_ g end;
     whitespace_start_state_ :=
       match t with
       | WhitespaceStates => start
       | _ => whitespace_start_state_ g
       end;
     ranges_ := ranges_ g; delivered_ := delivered_ g |}.

(** [std::string::empty]. *)
Definition empty (s : string) : bool :=
  match s with EmptyString => true | String _ _ => false end.

(** The search loop of [add_lexer_action]: the first action whose identifier
    is [identifier]. *)
Fixpoint find_action (identifier : string) (actions : list LexerAction)
  : option LexerAction :=
  match actions with
  | [] => None
  | a :: rest =>
      if String.eqb (action_identifier a) identifier then Some a
      else find_action identifier rest
  end.

(** [SWEET_ASSERT( !identifier.empty() )]. *)
Definition add_lexer_action_pre (identifier : string) : bool :=
  negb (empty identifier).

(** [LexerGenerator::add_lexer_action]: the action returned, if any, and the
    generator afterwards. *)
Definition add_lexer_action (identifier : string) (g : LexerGenerator)
  : option LexerAction * LexerGenerator :=
  if negb (empty identifier) then
    match find_action identifier (actions_ g) with
    | Some a => (Some a, g)
    | None =>
        let a := {| action_index := Z.of_nat (List.length (actions_ g));
                    action_identifier := identifier |} in
        (Some a, set_actions (actions_ g ++ [a]) g)
    end
  else (None, g).

(** A sequence of calls of [add_lexer_action], the results dropped. *)
Definition add_lexer_actions (identifiers : list string) (g : LexerGenerator)
  : LexerGenerator :=
  fold_left (fun g' identifier => snd (add_lexer_action identifier g'))
    identifiers g.

(** Modelled from the spec: the construction [RegexParser(tokens, this)] is
    missing; what it does to the generator it is given is to intern the
    action identifiers of the token specifications. *)
Definition new_RegexParser (regex_parser : RegexParser) (g : LexerGenerator)
  : LexerGenerator :=
  add_lexer_actions (parser_actions regex_parser) g.

(** [LexerGenerator::fire_error]. *)
Definition fire_error (g : LexerGenerator) (line : Z) (error : Error)
  : LexerGenerator :=
  if event_sink_ g
  then set_delivered (delivered_ g ++ [lexer_error line error]) g
  else g.

(** [LexerGenerator::fire_printf]. *)
Definition fire_printf (g : LexerGenerator) (format : string) (args : list Z)
  : LexerGenerator :=
  if event_sink_ g
  then set_delivered (delivered_ g ++ [lexer_vprintf format args]) g
  else g.

(** A loop whose body can fail. *)
Fixpoint fold_option {A B : Type} (f : B -> A -> option A) (l : list B) (a : A)
  : option A :=
  match l with
  | [] => Some a
  | b :: rest =>
      match f b a with
      | Some a' => fold_option f rest a'
      | None => None
      end
  end.

(** The locals [line], [type] and [token] of [generate_symbol_for_state]. *)
Record Selection := {
  sel_line : Z;
  sel_type : Z;
  sel_token : option LexerToken
}.

Definition select (t : LexerToken) : Selection :=
  {| sel_line := token_line t; sel_type := token_type t; sel_token := Some t |}.

(** The three branches of [generate_symbol_for_state] for the token [t] of
    an end node.  The conflict branch reads [token->line()]: with a null
    [token] there is no result.  The three assertions of that branch are
    [visit_token_pre]. *)
Definition visit_token (t : LexerToken) (acc : Selection * LexerGenerator)
  : option (Selection * LexerGenerator) :=
  let '(sel, g) := acc in
  if token_type t >? sel_type sel then Some (select t, g)
  else if (token_type t =? sel_type sel) && (token_line t <? sel_line sel)
  then Some (select t, g)
  else if (token_type t =? sel_type sel) && (token_line t =? sel_line sel)
  then match sel_token sel with
       | Some token =>
           Some (sel, fire_error g (token_line token)
                        (LexerSymbolConflictError token t))
       | None => None
       end
  else Some acc.

(** The body of the inner loop of [generate_symbol_for_state]:
    [if ( node->is_end() && node->get_token() )]. *)
Definition visit_node (n : RegexNode) (acc : Selection * LexerGenerator)
  : option (Selection * LexerGenerator) :=
  if is_end n then
    match get_token n with
    | Some t => visit_token t acc
    | None => Some acc
    end
  else Some acc.

(** The token a node contributes to the selection, if any. *)
Definition token_of (n : RegexNode) : list LexerToken :=
  if is_end n then
    match get_token n with
    | Some t => [t]
    | None => []
    end
  else [].

(** The tokens of the end nodes reachable in the items of a state, in the
    order [generate_symbol_for_state] meets them. *)
Definition accepting_tokens (node : nat -> RegexNode) (state : LexerState)
  : list LexerToken :=
  flat_map (fun item => flat_map token_of (get_next_nodes node item))
    (items_ state).

(** [t] is not beaten by [c]: its type is higher, or the types are equal and
    its line is not later. *)
Definition not_beaten_by (t c : LexerToken) : Prop :=
  token_type c < token_type t
  \/ (token_type c = token_type t /\ token_line t <= token_line c).

(** Equal type and equal line. *)
Definition same_rank (t1 t2 : LexerToken) : Prop :=
  token_type t1 = token_type t2 /\ token_line t1 = token_line t2.

(** Two accepting positions carry tokens of equal type and equal line. *)
Definition tie (toks : list LexerToken) : Prop :=
  exists l1 t1 l2 t2 l3,
    toks = l1 ++ t1 :: l2 ++ t2 :: l3 /\ same_rank t1 t2.

(** Two accepting positions carry tokens of type [ty] and line [ln]. *)
Definition tie_at (ty ln : Z) (toks : list LexerToken) : Prop :=
  exists l1 t1 l2 t2 l3,
    toks = l1 ++ t1 :: l2 ++ t2 :: l3
    /\ token_type t1 = ty /\ token_line t1 = ln
    /\ token_type t2 = ty /\ token_line t2 = ln.

(** A call that reports a symbol conflict. *)
Definition is_conflict (c : SinkCall) : Prop :=
  exists line token other,
    c = lexer_error line (LexerSymbolConflictError token other).

(** Some accepting token is met that has the type and the line of the
    selection made from the tokens before it. *)
Definition conflict_met (sel : Selection) (g : LexerGenerator)
  (toks : list LexerToken) : Prop :=
  exists pre t post sel_p g_p,
    toks = pre ++ t :: post
    /\ fold_option visit_token pre (sel, g) = Some (sel_p, g_p)
    /\ token_type t = sel_type sel_p /\ token_line t = sel_line sel_p.

Section Generator.

Context `{Declarations}.

Definition initial_selection : Selection :=
  {| sel_line := INT_MAX; sel_type := TOKEN_NULL; sel_token := None |}.

(** A token that beats the initial values of [type] and [line]. *)
Definition selectable (t : LexerToken) : Prop :=
  TOKEN_NULL < token_type t
  \/ (token_type t = TOKEN_NULL /\ token_line t < INT_MAX).

(** [type] and [line] are those of [token], or the initial ones. *)
Definition consistent (sel : Selection) : Prop :=
  match sel_token sel with
  | Some t => sel_type sel = token_type t /\ sel_line sel = token_line t
  | None => sel_type sel = TOKEN_NULL /\ sel_line sel = INT_MAX
  end.

(** The two nested loops of [generate_symbol_for_state]. *)
Definition select_token (node : nat -> RegexNode) (state : LexerState)
  (g : LexerGenerator) : option (Selection * LexerGenerator) :=
  fold_option
    (fun item acc => fold_option visit_node (get_next_nodes node item) acc)
    (items_ state) (initial_selection, g).

(** [token ? token->symbol() : NULL]. *)
Definition symbol_of (token : option LexerToken) : option nat :=
  match token with
  | Some t => token_symbol t
  | None => None
  end.

(** [LexerGenerator::generate_symbol_for_state]. *)
Definition generate_symbol_for_state (node : nat -> RegexNode)
  (state : LexerState) (g : LexerGenerator)
  : option (LexerState * LexerGenerator) :=
  match select_token node state g with
  | Some (sel, g') => Some (set_symbol (symbol_of (sel_token sel)) state, g')
  | None => None
  end.

(** The assertions of [goto_] on [begin] and [end]. *)
Definition goto_pre (begin end_ : Z) : bool :=
  (negb (begin =? INVALID_BEGIN_CHARACTER)
   && negb (begin =? INVALID_END_CHARACTER))
  && (begin <=? end_).

(** [LexerGenerator::goto_]. *)
Definition goto_ (node : nat -> RegexNode) (state : LexerState)
  (begin end_ : Z) : LexerState :=
  fold_left
    (fun goto_state item =>
       match next_nodes node item begin end_ with
       | [] => goto_state
       | next => add_item next goto_state
       end)
    (items_ state) new_LexerState.

(** [LexerGenerator::generate_indices_for_states]: one of its two loops, from
    [index] on. *)
Fixpoint set_indices (index : Z) (states : list LexerState)
  : list LexerState * Z :=
  match states with
  | [] => ([], index)
  | s :: rest =>
      let '(rest', index') := set_indices (index + 1) rest in
      (set_index index s :: rest', index')
  end.

Definition generate_indices_for_states (g : LexerGenerator) : LexerGenerator :=
  let '(states, index) := set_indices 0 (states_ g) in
  let '(whitespace_states, _) := set_indices index (whitespace_states_ g) in
  set_states WhitespaceStates whitespace_states (set_states TokenStates states g).

(** The state of the set that a [LexerState*] points to is found by its
    items. *)
Definition same_items (k : list LexerItem) (s : LexerState) : bool :=
  match items_compare (items_ s) k with Eq => true | _ => false end.

Definition find_state (k : list LexerItem) (states : list LexerState)
  : option LexerState := find (same_items k) states.

(** A write through a [LexerState*]. *)
Fixpoint update_state (k : list LexerItem) (f : LexerState -> LexerState)
  (states : list LexerState) : list LexerState :=
  match states with
  | [] => []
  | s :: rest =>
      if same_items k s then f s :: rest else s :: update_state k f rest
  end.

(** [++i] on an iterator of the set at the state with items [k]: the first
    state that is greater. *)
Definition next_state (k : list LexerItem) (states : list LexerState)
  : option (list LexerItem) :=
  option_map items_
    (find (fun s => match items_compare k (items_ s) with
                    | Lt => true
                    | _ => false
                    end) states).

(** The loops of [generate_states] that insert the character ranges of the
    next nodes of [state]. *)
Definition insert_ranges (node : nat -> RegexNode) (state : LexerState)
  (ranges : Ranges) : Ranges :=
  fold_left
    (fun ranges item =>
       fold_left
         (fun ranges' n =>
            if is_end n then ranges'
            else insert (begin_character n) (end_character n) ranges')
         (get_next_nodes node item) ranges)
    (items_ state) ranges.

(** The body of the loop over [ranges_] for the range [begin, end): the goto
    state, its insertion, its symbol when it is new, and the transition. *)
Definition goto_step (node : nat -> RegexNode) (t : Target)
  (state : LexerState) (begin end_ : Z) (acc : LexerGenerator * Z)
  : option (LexerGenerator * Z) :=
  let '(g, added) := acc in
  let goto_state := goto_ node state begin end_ in
  match items_ goto_state with
  | [] => Some acc
  | _ :: _ =>
      let '(states, inserted) :=
        set_insert state_compare goto_state (get_states t g) in
      let g1 := set_states t states g in
      let symbolized :=
        if inserted then
          match generate_symbol_for_state node goto_state g1 with
          | Some (goto_state', g2) =>
              Some (set_states t
                      (update_state (items_ goto_state) (fun _ => goto_state')
                         (get_states t g2)) g2,
                    added + 1)
          | None => None
          end
        else Some (g1, added) in
      match symbolized with
      | Some (g3, added') =>
          Some (set_states t
                  (update_state (items_ state)
                     (add_transition begin end_ (items_ goto_state))
                     (get_states t g3)) g3,
                added')
      | None => None
      end
  end.

(** The loop over [ranges_] of [generate_states], [j] at the head of
    [ranges]. *)
Fixpoint goto_loop (node : nat -> RegexNode) (t : Target) (state : LexerState)
  (ranges : Ranges) (acc : LexerGenerator * Z) : option (LexerGenerator * Z) :=
  match ranges with
  | [] => Some acc
  | (begin, _) :: tl =>
      match tl with
      | [] => None
      | (end_, in_end) :: rest =>
          match goto_step node t state begin end_ acc with
          | Some acc' =>
              if in_end then goto_loop node t state tl acc'
              else goto_loop node t state rest acc'
          | None => None
          end
      end
  end.

(** What [generate_states] does with a state that is not processed. *)
Definition process_state (node : nat -> RegexNode) (t : Target)
  (state : LexerState) (acc : LexerGenerator * Z)
  : option (LexerGenerator * Z) :=
  let '(g, added) := acc in
  let g1 :=
    set_states t
      (update_state (items_ state) (set_processed true) (get_states t g)) g in
  let g2 := set_ranges (insert_ranges node state (clear (ranges_ g1))) g1 in
  goto_loop node t state (ranges_ g2) (g2, added).

(** The [for] loop over the set of states, [i] at the state with items [i];
    [None] is [states->end()].  States inserted behind [i] are met in the
    same pass.  The loop is bounded by [fuel]. *)
Fixpoint for_states (fuel : nat) (node : nat -> RegexNode) (t : Target)
  (i : option (list LexerItem)) (acc : LexerGenerator * Z)
  : option (LexerGenerator * Z) :=
  match fuel with
  | O => None
  | S fuel' =>
      match i with
      | None => Some acc
      | Some k =>
          match find_state k (get_states t (fst acc)) with
          | None => None
          | Some state =>
              match (if processed_ state then Some acc
                     else process_state node t state acc) with
              | Some acc' =>
                  for_states fuel' node t
                    (next_state k (get_states t (fst acc'))) acc'
              | None => None
              end
          end
      end
  end.

(** [while ( added > 0 )]. *)
Fixpoint while_added (fuel : nat) (node : nat -> RegexNode) (t : Target)
  (g : LexerGenerator) : option LexerGenerator :=
  match fuel with
  | O => None
  | S fuel' =>
      match for_states fuel' node t
              (option_map items_ (hd_error (get_states t g))) (g, 0) with
      | Some (g', added) =>
          if added >? 0 then while_added fuel' node t g' else Some g'
      | None => None
      end
  end.

(** The assertions of [generate_states]: the set handed over is empty and the
    start state is null. *)
Definition generate_states_pre (t : Target) (g : LexerGenerator) : bool :=
  match get_states t g, get_start_state t g with
  | [], None => true
  | _, _ => false
  end.

(** [LexerGenerator::generate_states].  [None] when [fuel] does not suffice
    or the code has no defined result. *)
Definition generate_states (fuel : nat) (regex_parser : RegexParser)
  (t : Target) (g : LexerGenerator) : option LexerGenerator :=
  let generated :=
    if negb (parser_empty regex_parser) && (parser_errors regex_parser =? 0)
    then
      let state := add_item (first_positions regex_parser) new_LexerState in
      match generate_symbol_for_state (node_at regex_parser) state g with
      | Some (state', g1) =>
          let g2 :=
            set_states t
              (fst (set_insert state_compare state' (get_states t g1))) g1 in
          let g3 := set_start_state t (Some (items_ state')) g2 in
          while_added fuel (node_at regex_parser) t g3
      | None => None
      end
    else Some g in
  option_map generate_indices_for_states generated.

(** The constructor from tokens and whitespace tokens; the two parsers are
    given by what the generator reads from them.  Each parser is constructed
    with the generator before the call of [generate_states] it is the
    argument of. *)
Definition new_LexerGenerator (fuel : nat)
  (tokens whitespace_tokens : RegexParser) (event_sink : bool)
  : option LexerGenerator :=
  match generate_states fuel tokens TokenStates
          (new_RegexParser tokens (initial_generator event_sink)) with
  | Some g1 =>
      generate_states fuel whitespace_tokens WhitespaceStates
        (new_RegexParser whitespace_tokens g1)
  | None => None
  end.

End Generator.

(** * Statements and examples *)

(** C4 as stated: a conflict is delivered exactly when two accepting
    positions of the state carry tokens of equal type and line. *)
Definition reports_conflict_iff_tie `{Declarations} (node : nat -> RegexNode)
  (state : LexerState) (g : LexerGenerator) : Prop :=
  exists state' g',
    generate_symbol_for_state node state g = Some (state', g')
    /\ (delivered_ g' <> delivered_ g <-> tie (accepting_tokens node state)).

(** Values for the missing declarations, for the examples. *)
Definition example_declarations : Declarations :=
  {| TOKEN_NULL := 0; INVALID_BEGIN_CHARACTER := -2;
     INVALID_END_CHARACTER := -1 |}.

Definition end_node (t : LexerToken) : RegexNode :=
  {| begin_character := 0; end_character := 0; is_end := true;
     get_token := Some t; follow_positions := [] |}.

Definition character_node (begin end_ : Z) (follow : list nat) : RegexNode :=
  {| begin_character := begin; end_character := end_; is_end := false;
     get_token := None; follow_positions := follow |}.

Definition token (type line : Z) (symbol : nat) : LexerToken :=
  {| token_type := type; token_line := line; token_symbol := Some symbol |}.

(** Three end nodes: a token of type 2 on line 1, then two tokens of type 1
    on line 5. *)
Definition three_ends (i : nat) : RegexNode :=
  match i with
  | O => end_node (token 2 1 20)
  | S O => end_node (token 1 5 11)
  | _ => end_node (token 1 5 12)
  end.

(** A state whose one item holds the three end nodes. *)
Definition three_ends_state : LexerState :=
  add_item [0%nat; 1%nat; 2%nat] new_LexerState.

(** A parser that reported one error, and an empty one. *)
Definition failed_parser : RegexParser :=
  {| parser_empty := false; parser_errors := 1; first_positions := [0%nat];
     node_at := three_ends; parser_actions := [] |}.

Definition empty_parser : RegexParser :=
  {| parser_empty := true; parser_errors := 0; first_positions := [];
     node_at := three_ends; parser_actions := [] |}.

(** The indices [first], [first + 1], ... of [n] states. *)
Definition indices_from (first : Z) (n : nat) : list Z :=
  map (fun i => first + Z.of_nat i) (seq 0 n).

(** The regular expression [x] for one token: the character, then the
    end marker. *)
Definition x_parser : RegexParser :=
  {| parser_empty := false; parser_errors := 0; first_positions := [0%nat];
     node_at := fun i =>
       match i with
       | O => character_node 120 121 [1%nat]
       | _ => end_node (token 1 1 1)
       end;
     parser_actions := [] |}.

(** The regular expression of one space for one whitespace token. *)
Definition space_parser : RegexParser :=
  {| parser_empty := false; parser_errors := 0; first_positions := [0%nat];
     node_at := fun i =>
       match i with
       | O => character_node 32 33 [1%nat]
       | _ => end_node (token 1 1 2)
       end;
     parser_actions := [] |}.

(** The regular expression [x] for one token with an action, and one space
    for a whitespace token with an action of its own and the action of the
    token. *)
Definition x_action_parser : RegexParser :=
  {| parser_empty := false; parser_errors := 0; first_positions := [0%nat];
     node_at := node_at x_parser;
     parser_actions := ["x_action"%string] |}.

Definition space_action_parser : RegexParser :=
  {| parser_empty := false; parser_errors := 0; first_positions := [0%nat];
     node_at := node_at space_parser;
     parser_actions := ["skip"%string; "x_action"%string] |}.

(** The generator with a null sink that has received nothing; the other
    members are kept.  [silence_selection], [silence_added] and
    [silence_state] do so in the results of the loops. *)
Definition silence (g : LexerGenerator) : LexerGenerator :=
  {| event_sink_ := false; actions_ := actions_ g; states_ := states_ g;
     whitespace_states_ := whitespace_states_ g;
     start_state_ := start_state_ g;
     whitespace_start_state_ := whitespace_start_state_ g;
     ranges_ := ranges_ g; delivered_ := [] |}.

Definition silence_selection (acc : Selection * LexerGenerator) :=
  (fst acc, silence (snd acc)).

Definition silence_added (acc : LexerGenerator * Z) :=
  (silence (fst acc), snd acc).

Definition silence_state (acc : LexerState * LexerGenerator) :=
  (fst acc, silence (snd acc)).

(** What the comparisons of the sets have: a three-way comparison of a
    strict total order. *)
Class StrictCompare {A : Type} (cmp : A -> A -> comparison) : Prop := {
  compare_eq_iff : forall x y, cmp x y = Eq <-> x = y;
  compare_antisym : forall x y, cmp y x = CompOpp (cmp x y);
  compare_trans : forall x y z, cmp x y = Lt -> cmp y z = Lt -> cmp x z = Lt
}.

(** The elements of a set in iteration order are strictly ascending. *)
Definition sorted_set {A : Type} (cmp : A -> A -> comparison) (l : list A)
  : Prop :=
  StronglySorted (fun x y => cmp x y = Lt) l.

(** A set of states is ordered by the items of the states. *)
Definition sorted_states (states : list LexerState) : Prop :=
  sorted_set items_compare (map items_ states).

(** C8 as stated, on the fields written on one state: after [processed]
    is written, only [symbol] and [index] are. *)
Definition only_symbol_and_index_after_processed (writes : list Field) : Prop :=
  forall before after, writes = before ++ FProcessed :: after ->
    forall f, In f after -> f = FSymbol \/ f = FIndex.

(** The same with the transitions allowed as well. *)
Definition items_before_processed (writes : list Field) : Prop :=
  forall before after, writes = before ++ FProcessed :: after ->
    forall f, In f after -> f = FSymbol \/ f = FIndex \/ f = FTransitions.

(** A state that [processed] was never written on. *)
Definition unprocessed (s : LexerState) : Prop :=
  processed_ s = false /\ ~ In FProcessed (writes_ s).

(** The invariant of the states of the generator for the order of writes. *)
Definition well_written (s : LexerState) : Prop :=
  items_before_processed (writes_ s)
  /\ (processed_ s = false -> ~ In FProcessed (writes_ s)).

Definition all_well_written (g : LexerGenerator) : Prop :=
  Forall well_written (states_ g) /\ Forall well_written (whitespace_states_ g).

(** The two sets of states of the generator are ordered. *)
Definition states_sorted (g : LexerGenerator) : Prop :=
  sorted_states (states_ g) /\ sorted_states (whitespace_states_ g).

(** ** Well-formed parsers and the bound on the loops *)

(** All the ascending lists that can be drawn from a list. *)
Fixpoint sublists {A : Type} (l : list A) : list (list A) :=
  match l with
  | [] => [[]]
  | a :: rest => map (cons a) (sublists rest) ++ sublists rest
  end.

(** An item over the positions below [n]: a set of such positions. *)
Definition item_below (n : nat) (item : LexerItem) : Prop :=
  sorted_set Nat.compare item /\ forall i, In i item -> (i < n)%nat.

(** The items of every state the generator can build over [n] positions:
    one item per state. *)
Definition all_items (n : nat) : list (list LexerItem) :=
  map (fun item => [item]) (sublists (seq 0 n)).

(** What the generator relies on in a parser with [n] positions: the first
    and follow positions are positions, a character range is not empty, and
    the token of an end marker beats the initial [TOKEN_NULL] and
    [INT_MAX]. *)
Record well_formed `{Declarations} (n : nat) (p : RegexParser) : Prop := {
  first_positions_below : item_below n (first_positions p);
  follow_positions_below : forall i, (i < n)%nat ->
    forall j, In j (follow_positions (node_at p i)) -> (j < n)%nat;
  ranges_not_empty : forall i, (i < n)%nat ->
    is_end (node_at p i) = false ->
    begin_character (node_at p i) < end_character (node_at p i);
  tokens_selectable : forall i t, (i < n)%nat ->
    is_end (node_at p i) = true -> get_token (node_at p i) = Some t ->
    selectable t
}.

(** The states of the set that are greater than the state at [k], counted
    among all the states there can be. *)
Definition above (n : nat) (k : list LexerItem) : nat :=
  List.length
    (filter (fun u => match items_compare k u with Lt => true | _ => false end)
       (all_items n)).

(** A bound on the number of iterations of the [for] loop from [i]. *)
Definition for_bound (n : nat) (i : option (list LexerItem)) : nat :=
  match i with
  | None => 0
  | Some k => S (above n k)
  end.

(** The invariant of a set of states for termination. *)
Definition states_below (n : nat) (states : list LexerState) : Prop :=
  sorted_states states
  /\ Forall (fun s => exists item, items_ s = [item] /\ item_below n item) states.

(** What the loops over the set [t] keep: the set is ordered, every state
    has one item over the [n] positions of the parser; and [added] counts the
    states inserted since the set had [size0] states and [added] was
    [added0]. *)
Definition terminating (n : nat) (t : Target) (size0 : nat) (added0 : Z)
  (acc : LexerGenerator * Z) : Prop :=
  states_below n (get_states t (fst acc))
  /\ snd acc - added0
     = Z.of_nat (List.length (get_states t (fst acc))) - Z.of_nat size0.

(** ** The null token of [generate_symbol_for_state] *)

Section NullToken.

Context `{Declarations}.

(** A token that the initial values of [type] and [line] beat: no branch of
    [generate_symbol_for_state] is taken for it while [token] is null. *)
Definition loses_to_initial (t : LexerToken) : Prop :=
  token_type t < TOKEN_NULL
  \/ (token_type t = TOKEN_NULL /\ INT_MAX < token_line t).

(** The conflict branch is reached while [token] is still null: after tokens
    that lose to the initial values comes one of type [TOKEN_NULL] on line
    [INT_MAX]. *)
Definition null_token_read (toks : list LexerToken) : Prop :=
  exists pre t post,
    toks = pre ++ t :: post
    /\ Forall loses_to_initial pre
    /\ token_type t = TOKEN_NULL /\ token_line t = INT_MAX.

End NullToken.

(** ** The registry of actions *)

(** What [add_lexer_action] keeps of [actions_]: the index of an action is
    its place, no two actions share an identifier and no identifier is
    empty. *)
Definition registry (actions : list LexerAction) : Prop :=
  map action_index actions = indices_from 0 (List.length actions)
  /\ NoDup (map action_identifier actions)
  /\ Forall (fun a => empty (action_identifier a) = false) actions.

(** ** What [generate_states] leaves alone *)

(** The set of states that a call of [generate_states] is not handed. *)
Definition other (t : Target) : Target :=
  match t with
  | TokenStates => WhitespaceStates
  | WhitespaceStates => TokenStates
  end.

(** What the loops of [generate_states] on the set [t] keep of the generator
    [g0] they started from: the sink, the actions, the other set of states
    and its start state; the sink has received symbol conflicts and nothing
    else. *)
Definition frame (t : Target) (g0 g : LexerGenerator) : Prop :=
  event_sink_ g = event_sink_ g0
  /\ actions_ g = actions_ g0
  /\ get_states (other t) g = get_states (other t) g0
  /\ get_start_state (other t) g = get_start_state (other t) g0
  /\ exists calls,
       delivered_ g = delivered_ g0 ++ calls
       /\ Forall is_conflict calls
       /\ (event_sink_ g0 = false -> calls = []).

(** ** The states of a generated automaton *)

Section Automaton.

Context `{Declarations}.

(** The symbol that [generate_symbol_for_state] sets on a state with the
    items of [state]: it reads the items and nothing else of the state. *)
Definition selected_symbol (node : nat -> RegexNode) (state : LexerState)
  : option (option nat) :=
  match select_token node state (initial_generator false) with
  | Some (sel, _) => Some (symbol_of (sel_token sel))
  | None => None
  end.

(** A state of a set with the items [keys]: it has one item, its symbol is
    the one selected for its items, and its transitions lead to states of
    the set. *)
Definition state_built (node : nat -> RegexNode) (keys : list (list LexerItem))
  (s : LexerState) : Prop :=
  (exists item, items_ s = [item])
  /\ selected_symbol node s = Some (symbol_ s)
  /\ forall tr, In tr (transitions_ s) -> In (transition_state tr) keys.

(** The invariant of the loops of [generate_states] on the set [t]: the
    start state is [start], a state of the set when it is not null, and every
    state is built as above. *)
Definition states_built (node : nat -> RegexNode) (t : Target)
  (start : option (list LexerItem)) (g : LexerGenerator) : Prop :=
  get_start_state t g = start
  /\ (forall k, start = Some k -> In k (map items_ (get_states t g)))
  /\ Forall (state_built node (map items_ (get_states t g))) (get_states t g).

End Automaton.

(** ** The states that are left to process *)

(** The states that the iterator [i] of the [for] loop of [generate_states]
    has passed: those below the state it is at, all of them at
    [states->end()]. *)
Definition before (i : option (list LexerItem)) (s : LexerState) : bool :=
  match i with
  | None => true
  | Some k => match items_compare (items_ s) k with Lt => true | _ => false end
  end.

(** The states up to the state with the items [k], that state included. *)
Definition upto (k : list LexerItem) (s : LexerState) : bool :=
  match items_compare (items_ s) k with Gt => false | _ => true end.

(** The number of states among [passed] that are not processed. *)
Definition pending (passed : LexerState -> bool) (states : list LexerState) : Z :=
  Z.of_nat
    (List.length (filter (fun s => negb (processed_ s) && passed s) states)).

(** What the [for] loop keeps while its iterator is at the state with the
    items [k]: the set is ordered, and the states up to that one that are not
    processed have all been counted in [added]. *)
Definition counted (t : Target) (passed : LexerState -> bool)
  (acc : LexerGenerator * Z) : Prop :=
  sorted_states (get_states t (fst acc))
  /\ pending passed (get_states t (fst acc)) <= snd acc.

(** ** The transitions of a state *)

(** One turn of the loop over [ranges_] seen from the state that is being
    processed: the range [r] adds a transition to the goto state when that
    state has items. *)
Definition add_goto (node : nat -> RegexNode) (state : LexerState)
  (transitions : list LexerTransition) (r : Z * Z) : list LexerTransition :=
  match items_ (goto_ node state (fst r) (snd r)) with
  | [] => transitions
  | target =>
      fst (set_insert transition_compare
             {| transition_begin := fst r; transition_end := snd r;
                transition_state := target |} transitions)
  end.

(** The transitions that processing gives a state with the items of
    [state]: the goto states on the distinct ranges of its next nodes. *)
Definition transitions_of (node : nat -> RegexNode) (state : LexerState)
  : list LexerTransition :=
  match distinct_ranges (insert_ranges node state (clear [])) with
  | Some out => fold_left (add_goto node state) out []
  | None => []
  end.

(** A state has no transitions until it is processed and the transitions
    above afterwards. *)
Definition settled (node : nat -> RegexNode) (s : LexerState) : Prop :=
  transitions_ s = if processed_ s then transitions_of node s else [].

(** The invariant of the [for] loop for the transitions. *)
Definition transitions_settled (node : nat -> RegexNode) (t : Target)
  (g : LexerGenerator) : Prop :=
  sorted_states (get_states t g) /\ Forall (settled node) (get_states t g).

(** While the state with the items [k] is being processed: it is marked and
    has the transitions [transitions]; the other states are as above. *)
Definition settling (node : nat -> RegexNode) (t : Target) (k : list LexerItem)
  (transitions : list LexerTransition) (g : LexerGenerator) : Prop :=
  sorted_states (get_states t g)
  /\ In k (map items_ (get_states t g))
  /\ Forall (fun s => if same_items k s
                      then processed_ s = true /\ transitions_ s = transitions
                      else settled node s) (get_states t g).

(** ** The transition on a character *)

(** The character ranges that the loops of [generate_states] hand to
    [insert] for a state, in that order. *)
Definition state_ranges (node : nat -> RegexNode) (state : LexerState)
  : list (Z * Z) :=
  flat_map
    (fun item =>
       flat_map
         (fun n => if is_end n then []
                   else [(begin_character n, end_character n)])
         (get_next_nodes node item))
    (items_ state).

(** No position of the parser has an empty character range. *)
Definition character_ranges_not_empty (node : nat -> RegexNode) : Prop :=
  forall i, is_end (node i) = false ->
    begin_character (node i) < end_character (node i).

(** The transition [tr] is taken on the character [c]. *)
Definition on_character (c : Z) (tr : LexerTransition) : Prop :=
  transition_begin tr <= c < transition_end tr.

(** The transition that [add_goto] adds for a range. *)
Definition goto_transition (node : nat -> RegexNode) (state : LexerState)
  (r : Z * Z) : LexerTransition :=
  {| transition_begin := fst r; transition_end := snd r;
     transition_state := items_ (goto_ node state (fst r) (snd r)) |}.

(** ** The two constructors *)

(** What a user of the generator reads of a state: every member, without
    the record of the writes. *)
Definition state_view (s : LexerState)
  : list LexerItem * list LexerTransition * option nat * bool * Z :=
  (items_ s, transitions_ s, symbol_ s, processed_ s, index_ s).

Section Constructors.

Context `{Declarations}.

(** The constructor from one token; the parser is given by what the
    generator reads from it. *)
Definition new_LexerGenerator_token (fuel : nat) (token : RegexParser)
  (event_sink : bool) : option LexerGenerator :=
  generate_states fuel token TokenStates
    (new_RegexParser token (initial_generator event_sink)).

End Constructors.

(** ** The states that can be reached *)

(** The items of the states that are reached from the state with the items
    [start] along the transitions of the states of a set. *)
Inductive reachable (states : list LexerState) (start : list LexerItem)
  : list LexerItem -> Prop :=
| reachable_start : reachable states start start
| reachable_step s tr :
    reachable states start (items_ s) ->
    In s states -> In tr (transitions_ s) ->
    reachable states start (transition_state tr).

(** The ranges that the loop over [ranges_] walks for a state. *)
Definition walked_ranges (node : nat -> RegexNode) (state : LexerState)
  : list (Z * Z) :=
  match distinct_ranges (insert_ranges node state (clear [])) with
  | Some out => out
  | None => []
  end.

(** The items of the states that [generate_states] finds: those of the start
    state, and those of a goto state, when it has items, of a state found,
    on a range walked for that state. *)
Inductive discovered (node : nat -> RegexNode) (start : list LexerItem)
  : list LexerItem -> Prop :=
| discovered_start : discovered node start start
| discovered_goto state r :
    discovered node start (items_ state) ->
    In r (walked_ranges node state) ->
    items_ (goto_ node state (fst r) (snd r)) <> [] ->
    discovered node start (items_ (goto_ node state (fst r) (snd r))).

(** The invariant of the [for] loop: every state of the set was found. *)
Definition all_discovered (node : nat -> RegexNode) (t : Target)
  (start : list LexerItem) (g : LexerGenerator) : Prop :=
  forall k, In k (map items_ (get_states t g)) -> discovered node start k.

(** ** The assertions of the loop over [ranges_] *)

(** The assertions that the loop over [ranges_] of [generate_states] meets:
    [begin < end] for the range it hands to [goto_], and, once it has
    stepped over an out marker, that [j] is at the end or at an in marker. *)
Fixpoint distinct_ranges_pre (ranges : Ranges) : bool :=
  match ranges with
  | [] => true
  | (b, _) :: tl =>
      match tl with
      | [] => true
      | (e, in_e) :: rest =>
          (b <? e)
          && (if in_e then distinct_ranges_pre tl
              else match rest with
                   | [] => true
                   | (_, f) :: _ => f
                   end && distinct_ranges_pre rest)
      end
  end.

(** ** What [generate_states] reads of the generator *)

(** Two generators in the same run of [generate_states] on the set [t]: the
    same sink, set of states and start state, and the same calls delivered
    since the sinks had received [d1] and [d2]. *)
Definition same_run (t : Target) (d1 d2 : list SinkCall)
  (g1 g2 : LexerGenerator) : Prop :=
  event_sink_ g1 = event_sink_ g2
  /\ get_states t g1 = get_states t g2
  /\ get_start_state t g1 = get_start_state t g2
  /\ exists calls, delivered_ g1 = d1 ++ calls /\ delivered_ g2 = d2 ++ calls.

(** The members of a state that do not depend on the other automaton. *)
Definition state_members (s : LexerState)
  : list LexerItem * list LexerTransition * option nat * bool :=
  (items_ s, transitions_ s, symbol_ s, processed_ s).

Section Generated.

Context `{Declarations}.

(** [generate_states] up to the call of [generate_indices_for_states]. *)
Definition generated_states (fuel : nat) (regex_parser : RegexParser)
  (t : Target) (g : LexerGenerator) : option LexerGenerator :=
  if negb (parser_empty regex_parser) && (parser_errors regex_parser =? 0)
  then
    let state := add_item (first_positions regex_parser) new_LexerState in
    match generate_symbol_for_state (node_at regex_parser) state g with
    | Some (state', g1) =>
        let g2 :=
          set_states t
            (fst (set_insert state_compare state' (get_states t g1))) g1 in
        let g3 := set_start_state t (Some (items_ state')) g2 in
        while_added fuel (node_at regex_parser) t g3
    | None => None
    end
  else Some g.

End Generated.

(** ** The assertions of [generate_symbol_for_state] *)

Section SymbolAssertions.

Context `{Declarations}.

(** The assertions of the conflict branch of [generate_symbol_for_state],
    which is taken when the token of the node has the type and the line of
    the selection: [type != TOKEN_NULL], [line != INT_MAX] and [token].
    The other branches assert nothing. *)
Definition visit_token_pre (t : LexerToken) (sel : Selection) : bool :=
  if token_type t >? sel_type sel then true
  else if (token_type t =? sel_type sel) && (token_line t <? sel_line sel)
  then true
  else if (token_type t =? sel_type sel) && (token_line t =? sel_line sel)
  then negb (sel_type sel =? TOKEN_NULL) && negb (sel_line sel =? INT_MAX)
       && match sel_token sel with Some _ => true | None => false end
  else true.

(** The assertions met over the tokens [toks], one after the other. *)
Fixpoint visit_tokens_pre (toks : list LexerToken)
  (acc : Selection * LexerGenerator) : bool :=
  match toks with
  | [] => true
  | t :: rest =>
      visit_token_pre t (fst acc)
      && match visit_token t acc with
         | Some acc' => visit_tokens_pre rest acc'
         | None => true
         end
  end.

(** The assertions that [generate_symbol_for_state] meets for a state. *)
Definition generate_symbol_for_state_pre (node : nat -> RegexNode)
  (state : LexerState) (g : LexerGenerator) : bool :=
  visit_tokens_pre (accepting_tokens node state) (initial_selection, g).

(** A token that the conflict branch can be taken for with its assertions
    passing: a type above [TOKEN_NULL] and a line other than [INT_MAX]. *)
Definition above_null (t : LexerToken) : Prop :=
  TOKEN_NULL < token_type t /\ token_line t <> INT_MAX.

(** A token that no token of [toks] beats. *)
Definition unbeaten (toks : list LexerToken) (t : LexerToken) : Prop :=
  In t toks /\ forall c, In c toks -> not_beaten_by t c.

(** [t] beats [c]: its type is higher, or the types are equal and its line
    is earlier. *)
Definition beats (t c : LexerToken) : Prop :=
  token_type c < token_type t
  \/ (token_type c = token_type t /\ token_line t < token_line c).

(** The first token of [toks] that no token of [toks] beats: it beats every
    token before it. *)
Definition first_unbeaten (toks : list LexerToken) (t : LexerToken) : Prop :=
  exists pre post,
    toks = pre ++ t :: post
    /\ (forall c, In c pre -> beats t c)
    /\ (forall c, In c post -> not_beaten_by t c).


End SymbolAssertions.





Section SentinelCharacters.

Context `{Declarations}.


End SentinelCharacters.


(** * Properties *)

(** ** The distinct ranges *)

Lemma mark_below_close end_ in_ ranges :
  let '(marked, in2, rest2) := mark_below end_ in_ ranges in
  marked ++ (if absent_at end_ rest2 then [(end_, in2)] else []) ++ rest2
  = insert_close end_ in_ ranges.
Proof.
  revert in_. induction ranges as [|[c f] rest IH]; intros in_; simpl.
  - reflexivity.
  - destruct (c <? end_) eqn:Hlt.
    + specialize (IH f). destruct (mark_below end_ f rest) as [[marked in2] rest2].
      simpl. now rewrite IH.
    + simpl. destruct (c =? end_); reflexivity.
Qed.

Lemma insert_unrolled begin end_ ranges :
  insert begin end_ ranges = insert_open begin end_ false ranges.
Proof.
  unfold insert. generalize false.
  induction ranges as [|[c f] rest IH]; intros in_.
  - simpl. reflexivity.
  - simpl. destruct (c <? begin) eqn:Hlt.
    + specialize (IH f).
      destruct (skip_below begin f rest) as [[passed in1] rest1].
      destruct (mark_below end_ in1 rest1) as [[marked in2] rest2].
      simpl. now rewrite IH.
    + pose proof (mark_below_close end_ in_ ((c, f) :: rest)) as Hc.
      destruct (mark_below end_ in_ ((c, f) :: rest)) as [[marked in2] rest2].
      simpl in Hc |- *.
      destruct (c =? begin); simpl; rewrite Hc; reflexivity.
Qed.

Lemma chars_insert_close c end_ in_ ranges :
  In c (chars (insert_close end_ in_ ranges)) <-> c = end_ \/ In c (chars ranges).
Proof.
  revert in_. induction ranges as [|[c0 f] rest IH]; intros in_; simpl.
  - intuition.
  - destruct (c0 <? end_) eqn:Hlt; simpl.
    + rewrite IH. intuition.
    + destruct (c0 =? end_) eqn:Heq; simpl.
      * apply Z.eqb_eq in Heq. subst c0. intuition.
      * intuition.
Qed.

Lemma chars_insert_open c begin end_ in_ ranges :
  In c (chars (insert_open begin end_ in_ ranges))
  <-> c = begin \/ c = end_ \/ In c (chars ranges).
Proof.
  revert in_. induction ranges as [|[c0 f] rest IH]; intros in_.
  - simpl. intuition.
  - cbn [insert_open]. destruct (c0 <? begin) eqn:Hlt.
    + cbn [chars map fst In]. unfold chars in IH. rewrite IH. intuition.
    + destruct (c0 =? begin) eqn:Heq.
      * rewrite chars_insert_close. apply Z.eqb_eq in Heq. subst c0. simpl.
        intuition.
      * change (chars ((begin, true) :: ?l)) with (begin :: chars l).
        cbn [In]. rewrite chars_insert_close. simpl. intuition.
Qed.

Lemma ascending_cons c f ranges :
  ascending ((c, f) :: ranges)
  <-> ascending ranges /\ (forall c', In c' (chars ranges) -> c < c').
Proof.
  unfold ascending. simpl. split.
  - intros H. inversion H; subst. split; [assumption|].
    now apply Forall_forall.
  - intros [H1 H2]. constructor; [assumption|]. now apply Forall_forall.
Qed.

Lemma ascending_insert_close end_ in_ ranges :
  ascending ranges -> ascending (insert_close end_ in_ ranges).
Proof.
  revert in_. induction ranges as [|[c f] rest IH]; intros in_ Hasc.
  - simpl. apply ascending_cons. split; [constructor | simpl; tauto].
  - simpl. apply ascending_cons in Hasc as [Hrest Hc].
    destruct (c <? end_) eqn:Hlt.
    + apply ascending_cons. split; [now apply IH|].
      intros c' Hin. apply chars_insert_close in Hin as [->|Hin].
      * now apply Z.ltb_lt.
      * now apply Hc.
    + destruct (c =? end_) eqn:Heq.
      * apply ascending_cons. now split.
      * apply Z.ltb_ge in Hlt. apply Z.eqb_neq in Heq.
        apply ascending_cons. split; [apply ascending_cons; now split|].
        simpl. intros c' [<-|Hin]; [lia|]. specialize (Hc c' Hin). lia.
Qed.

Lemma ascending_insert_open begin end_ in_ ranges :
  begin < end_ -> ascending ranges ->
  ascending (insert_open begin end_ in_ ranges).
Proof.
  intros Hbe. revert in_. induction ranges as [|[c f] rest IH]; intros in_ Hasc.
  - simpl. apply ascending_cons. split.
    + apply ascending_cons. split; [constructor | simpl; tauto].
    + simpl. intros c' [<-|[]]. assumption.
  - cbn [insert_open]. pose proof Hasc as Hasc'.
    apply ascending_cons in Hasc as [Hrest Hc].
    destruct (c <? begin) eqn:Hlt.
    + apply ascending_cons. split; [now apply IH|].
      apply Z.ltb_lt in Hlt.
      intros c' Hin. apply chars_insert_open in Hin as [->|[->|Hin]]; try lia.
      now apply Hc.
    + destruct (c =? begin) eqn:Heq.
      * now apply ascending_insert_close.
      * apply Z.ltb_ge in Hlt. apply Z.eqb_neq in Heq.
        apply ascending_cons. split; [now apply ascending_insert_close|].
        intros c' Hin. apply chars_insert_close in Hin as [->|Hin]; [lia|].
        simpl in Hin. destruct Hin as [<-|Hin]; [lia|].
        specialize (Hc c' Hin). lia.
Qed.

Lemma inside_from_above cur ranges x :
  (forall c, In c (chars ranges) -> x < c) -> inside_from cur ranges x = cur.
Proof.
  revert cur. induction ranges as [|[c f] rest IH]; intros cur Habove; simpl.
  - reflexivity.
  - assert ((c <=? x) = false) as ->.
    { apply Z.leb_gt. apply Habove. simpl. now left. }
    apply IH. intros c' Hin. apply Habove. simpl. now right.
Qed.

Lemma inside_insert_close end_ in_ ranges x :
  ascending ranges ->
  inside_from true (insert_close end_ in_ ranges) x
  = (x <? end_) || inside_from in_ ranges x.
Proof.
  revert in_. induction ranges as [|[c f] rest IH]; intros in_ Hasc.
  - simpl. destruct (end_ <=? x) eqn:H1, (x <? end_) eqn:H2; try reflexivity; lia.
  - apply ascending_cons in Hasc as [Hrest Hc]. simpl.
    destruct (c <? end_) eqn:Hlt.
    + simpl. replace (if c <=? x then true else true) with true
        by now destruct (c <=? x).
      rewrite IH by assumption.
      destruct (c <=? x) eqn:Hcx; [reflexivity|].
      assert ((x <? end_) = true) as -> by lia. reflexivity.
    + destruct (c =? end_) eqn:Heq.
      * apply Z.eqb_eq in Heq. subst c. simpl.
        destruct (end_ <=? x) eqn:Hex.
        -- assert ((x <? end_) = false) as -> by lia. reflexivity.
        -- assert ((x <? end_) = true) as -> by lia. simpl.
           apply inside_from_above. intros c' Hin. specialize (Hc c' Hin). lia.
      * apply Z.ltb_ge in Hlt. apply Z.eqb_neq in Heq. simpl.
        destruct (end_ <=? x) eqn:Hex.
        -- assert ((x <? end_) = false) as -> by lia. reflexivity.
        -- assert ((x <? end_) = true) as -> by lia.
           assert ((c <=? x) = false) as -> by lia. simpl.
           apply inside_from_above. intros c' Hin. specialize (Hc c' Hin). lia.
Qed.

Lemma inside_insert_open begin end_ in_ ranges x :
  begin < end_ -> ascending ranges ->
  inside_from in_ (insert_open begin end_ in_ ranges) x
  = in_rangeb x (begin, end_) || inside_from in_ ranges x.
Proof.
  intros Hbe. unfold in_rangeb. cbn [fst snd].
  revert in_. induction ranges as [|[c f] rest IH]; intros in_ Hasc.
  - simpl. destruct (begin <=? x) eqn:H1, (end_ <=? x) eqn:H2,
      (x <? end_) eqn:H3; simpl; try reflexivity; try lia.
  - pose proof Hasc as Hasc'. apply ascending_cons in Hasc as [Hrest Hc].
    cbn [insert_open]. destruct (c <? begin) eqn:Hlt.
    + cbn [inside_from]. destruct (c <=? x) eqn:Hcx.
      * now apply IH.
      * assert ((begin <=? x) = false) as -> by lia. simpl.
        rewrite !inside_from_above; try reflexivity.
        -- intros c' Hin. specialize (Hc c' Hin). lia.
        -- intros c' Hin. apply chars_insert_open in Hin as [->|[->|Hin]]; try lia.
           specialize (Hc c' Hin). lia.
    + apply Z.ltb_ge in Hlt.
      assert (Hclose : forall cur,
                 (begin <=? x) = false ->
                 inside_from cur (insert_close end_ in_ ((c, f) :: rest)) x = cur).
      { intros cur Hx. apply inside_from_above. intros c' Hin.
        apply chars_insert_close in Hin as [->|Hin]; [lia|].
        simpl in Hin. destruct Hin as [<-|Hin]; [lia|].
        specialize (Hc c' Hin). lia. }
      destruct (begin <=? x) eqn:Hbx.
      * assert (Hin : inside_from true (insert_close end_ in_ ((c, f) :: rest)) x
                      = (x <? end_) || inside_from in_ ((c, f) :: rest) x)
          by now apply inside_insert_close.
        destruct (c =? begin) eqn:Heq.
        -- apply Z.eqb_eq in Heq. subst c.
           assert (Hlt' : (begin <? end_) = true) by lia.
           revert Hin. simpl. rewrite Hlt'. simpl. rewrite !Hbx. tauto.
        -- cbn [inside_from]. rewrite Hbx. rewrite Hin. reflexivity.
      * cbn [andb orb].
        rewrite (inside_from_above in_ ((c, f) :: rest)).
        2:{ simpl. intros c' [<-|Hin]; [lia|]. specialize (Hc c' Hin). lia. }
        destruct (c =? begin) eqn:Heq.
        -- now apply Hclose.
        -- cbn [inside_from]. rewrite Hbx. now apply Hclose.
Qed.

Lemma no_out_out_weaken prev ranges :
  no_out_out prev ranges -> no_out_out true ranges.
Proof. destruct ranges as [|[c f] rest]; simpl; tauto. Qed.

Lemma no_out_out_insert_close end_ in_ ranges :
  no_out_out in_ ranges -> no_out_out true (insert_close end_ in_ ranges).
Proof.
  revert in_. induction ranges as [|[c f] rest IH]; intros in_ H; simpl.
  - tauto.
  - destruct H as [H1 H2]. destruct (c <? end_).
    + simpl. split; [discriminate | now apply IH].
    + destruct (c =? end_); simpl; tauto.
Qed.

Lemma no_out_out_insert_open begin end_ in_ ranges :
  begin < end_ -> no_out_out in_ ranges ->
  no_out_out in_ (insert_open begin end_ in_ ranges).
Proof.
  intros Hbe. revert in_.
  induction ranges as [|[c f] rest IH]; intros in_ H.
  - simpl. intuition discriminate.
  - cbn [insert_open]. destruct (c <? begin) eqn:Hlt.
    + destruct H as [H1 H2]. simpl. split; [assumption | now apply IH].
    + destruct (c =? begin) eqn:Heq.
      * apply Z.eqb_eq in Heq. subst c. destruct H as [H1 H2]. simpl.
        assert ((begin <? end_) = true) as -> by lia. simpl.
        split; [discriminate | now apply no_out_out_insert_close].
      * simpl. split; [discriminate|].
        now apply (no_out_out_insert_close end_ in_ ((c, f) :: rest)).
Qed.

Lemma last_flag_insert_close d end_ in_ ranges :
  last_flag in_ ranges = false ->
  last_flag d (insert_close end_ in_ ranges) = false.
Proof.
  revert d in_. induction ranges as [|[c f] rest IH]; intros d in_ H; simpl.
  - exact H.
  - destruct (c <? end_).
    + apply (IH true f). exact H.
    + destruct (c =? end_); exact H.
Qed.

Lemma last_flag_insert_open d begin end_ in_ ranges :
  last_flag in_ ranges = false ->
  last_flag d (insert_open begin end_ in_ ranges) = false.
Proof.
  revert d in_. induction ranges as [|[c f] rest IH]; intros d in_ H.
  - exact H.
  - cbn [insert_open]. destruct (c <? begin).
    + apply (IH f f). exact H.
    + destruct (c =? begin).
      * now apply last_flag_insert_close.
      * apply (last_flag_insert_close true end_ in_ ((c, f) :: rest)). exact H.
Qed.

Lemma well_marked_insert begin end_ ranges :
  begin < end_ -> well_marked ranges -> well_marked (insert begin end_ ranges).
Proof.
  intros Hbe (Ha & Hn & Hl). rewrite insert_unrolled. repeat split.
  - now apply ascending_insert_open.
  - now apply no_out_out_insert_open.
  - now apply last_flag_insert_open.
Qed.

Lemma inside_insert begin end_ ranges x :
  begin < end_ -> ascending ranges ->
  inside_from false (insert begin end_ ranges) x
  = in_rangeb x (begin, end_) || inside_from false ranges x.
Proof. intros. rewrite insert_unrolled. now apply inside_insert_open. Qed.

Lemma chars_insert c begin end_ ranges :
  In c (chars (insert begin end_ ranges))
  <-> c = begin \/ c = end_ \/ In c (chars ranges).
Proof. rewrite insert_unrolled. apply chars_insert_open. Qed.

Lemma in_rangeb_spec x r : in_rangeb x r = true <-> in_range x r.
Proof. unfold in_rangeb, in_range. lia. Qed.

(** The three facts about a sequence of inserts, from any well-marked start. *)
Lemma fold_insert_facts rs : forall ranges,
  Forall nonempty_range rs -> well_marked ranges ->
  let ranges' := fold_left (fun m r => insert (fst r) (snd r) m) rs ranges in
  well_marked ranges'
  /\ (forall x, inside_from false ranges' x = true
                <-> inside_from false ranges x = true \/ in_union rs x)
  /\ (forall c, In c (chars ranges') <-> In c (chars ranges) \/ is_endpoint rs c).
Proof.
  induction rs as [|[b e] rs IH]; intros ranges Hne Hwm; simpl.
  - split; [assumption|]. split.
    + intros x. split; [tauto|]. intros [H|(r & [] & _)]. exact H.
    + intros c. split; [tauto|]. intros [H|(r & [] & _)]. exact H.
  - inversion Hne as [|? ? Hbe Hne']; subst. unfold nonempty_range in Hbe.
    simpl in Hbe.
    destruct (IH (insert b e ranges) Hne' (well_marked_insert _ _ _ Hbe Hwm))
      as (Hwm' & Hin & Hch).
    split; [exact Hwm'|]. split.
    + intros x. rewrite Hin. rewrite inside_insert by (assumption || apply Hwm).
      rewrite orb_true_iff, in_rangeb_spec. unfold in_union. simpl. split.
      * intros [[H|H]|(r & Hr & Hx)].
        -- right. exists (b, e). split; [now left | exact H].
        -- now left.
        -- right. exists r. split; [now right | exact Hx].
      * intros [H|(r & [<-|Hr] & Hx)].
        -- left. now right.
        -- left. now left.
        -- right. exists r. now split.
    + intros c. rewrite Hch. rewrite chars_insert. unfold is_endpoint. simpl.
      split.
      * intros [[->|[->|H]]|(q & Hq & Hc)].
        -- right. exists (b, e). split; [now left | now left].
        -- right. exists (b, e). split; [now left | now right].
        -- now left.
        -- right. exists q. split; [now right | exact Hc].
      * intros [H|(q & [<-|Hq] & Hc)].
        -- left. right. now right.
        -- left. simpl in Hc. tauto.
        -- right. exists q. now split.
Qed.

Lemma well_marked_nil : well_marked [].
Proof. repeat split; constructor. Qed.

Lemma insert_all_facts rs :
  Forall nonempty_range rs ->
  well_marked (insert_all rs)
  /\ (forall x, inside_from false (insert_all rs) x = true <-> in_union rs x)
  /\ (forall c, In c (chars (insert_all rs)) <-> is_endpoint rs c).
Proof.
  intros Hne.
  destruct (fold_insert_facts rs [] Hne well_marked_nil) as (Hwm & Hin & Hch).
  split; [exact Hwm|]. split.
  - intros x. rewrite (Hin x). simpl. intuition discriminate.
  - intros c. rewrite (Hch c). simpl. tauto.
Qed.

(** On a well-marked list the loop of [generate_states] visits exactly the
    adjacent pairs whose left marker is in. *)
Lemma distinct_ranges_inside_intervals ranges :
  no_out_out false ranges -> last_flag false ranges = false ->
  distinct_ranges ranges = Some (inside_intervals ranges).
Proof.
  remember (List.length ranges) as n eqn:Hn.
  revert ranges Hn. induction n as [n IH] using lt_wf_ind.
  intros [|[b f] [|[e fe] rest]] Hn Hno Hlast.
  - reflexivity.
  - simpl in Hno, Hlast. destruct Hno as [Hf _]. subst f.
    now specialize (Hf eq_refl).
  - destruct Hno as [Hf Hno]. assert (f = true) as ->
      by (destruct f; [reflexivity | now specialize (Hf eq_refl)]).
    destruct fe.
    + assert (Hr : distinct_ranges ((e, true) :: rest)
                   = Some (inside_intervals ((e, true) :: rest))).
      { apply (IH (List.length ((e, true) :: rest))).
        - subst n. simpl. lia.
        - reflexivity.
        - destruct Hno as [_ Hno]. simpl. split; [discriminate | exact Hno].
        - exact Hlast. }
      change (distinct_ranges ((b, true) :: (e, true) :: rest))
        with (option_map (cons (b, e)) (distinct_ranges ((e, true) :: rest))).
      rewrite Hr. reflexivity.
    + assert (Hr : distinct_ranges rest = Some (inside_intervals rest)).
      { apply (IH (List.length rest)).
        - subst n. simpl. lia.
        - reflexivity.
        - apply Hno.
        - exact Hlast. }
      change (distinct_ranges ((b, true) :: (e, false) :: rest))
        with (option_map (cons (b, e)) (distinct_ranges rest)).
      rewrite Hr. simpl. now destruct rest as [|[c' f'] rest'].
Qed.

Lemma inside_intervals_adjacent ranges r :
  ascending ranges -> In r (inside_intervals ranges) ->
  fst r < snd r /\ In (fst r) (chars ranges) /\ In (snd r) (chars ranges)
  /\ forall c, In c (chars ranges) -> c <= fst r \/ snd r <= c.
Proof.
  induction ranges as [|[c f] tl IH]; intros Hasc Hin.
  - contradiction.
  - apply ascending_cons in Hasc as [Htl Hc].
    destruct tl as [|[c' f'] rest]; [contradiction|].
    assert (Hcc' : c < c') by (apply Hc; simpl; now left).
    assert (Hrec : In r (inside_intervals ((c', f') :: rest)) ->
                   fst r < snd r /\ In (fst r) (chars ((c, f) :: (c', f') :: rest))
                   /\ In (snd r) (chars ((c, f) :: (c', f') :: rest))
                   /\ forall c0, In c0 (chars ((c, f) :: (c', f') :: rest)) ->
                                 c0 <= fst r \/ snd r <= c0).
    { intros Hr. destruct (IH Htl Hr) as (H1 & H2 & H3 & H4).
      split; [exact H1|]. split; [now right|]. split; [now right|].
      intros c0 [<-|Hc0]; [|now apply H4].
      simpl. left. specialize (Hc _ H2). lia. }
    cbn [inside_intervals] in Hin. destruct f.
    + destruct Hin as [<-|Hin]; [|now apply Hrec].
      simpl. split; [exact Hcc'|]. split; [now left|]. split; [right; now left|].
      intros c0 [<-|[<-|Hc0]]; try lia.
      right. apply ascending_cons in Htl as [_ Hc'']. specialize (Hc'' _ Hc0). lia.
    + now apply Hrec.
Qed.

Lemma inside_intervals_ordered ranges :
  ascending ranges -> intervals_ordered (inside_intervals ranges).
Proof.
  intros Hasc. split.
  - apply Forall_forall. intros r Hr.
    now destruct (inside_intervals_adjacent ranges r Hasc Hr).
  - induction ranges as [|[c f] tl IH]; [constructor|].
    pose proof Hasc as Hasc'. apply ascending_cons in Hasc as [Htl Hc].
    destruct tl as [|[c' f'] rest]; [constructor|].
    cbn [inside_intervals]. destruct f; [|now apply IH].
    constructor; [now apply IH|].
    apply Forall_forall. intros r Hr. simpl.
    destruct (inside_intervals_adjacent _ r Htl Hr) as (_ & Hfst & _).
    simpl in Hfst. destruct Hfst as [<-|Hfst]; [lia|].
    apply ascending_cons in Htl as [_ Hc']. specialize (Hc' _ Hfst). lia.
Qed.

Lemma inside_intervals_cover cur ranges x :
  ascending ranges -> last_flag cur ranges = false ->
  inside_from cur ranges x = true
  <-> (cur = true /\ forall c, In c (chars ranges) -> x < c)
      \/ in_union (inside_intervals ranges) x.
Proof.
  revert cur. induction ranges as [|[c f] tl IH]; intros cur Hasc Hlast.
  - simpl in *. subst cur. split; [discriminate|].
    intros [[H _]|(r & [] & _)]. discriminate.
  - apply ascending_cons in Hasc as [Htl Hc].
    destruct tl as [|[c' f'] rest].
    + simpl in Hlast. subst f. simpl. unfold in_union. simpl.
      destruct (c <=? x) eqn:Hcx.
      * split; [discriminate|].
        intros [[_ H]|(r & [] & _)]. specialize (H c (or_introl eq_refl)). lia.
      * split.
        -- intros ->. left. split; [reflexivity|]. intros c0 [<-|[]]. lia.
        -- intros [[H _]|(r & [] & _)]. exact H.
    + assert (Hcc' : c < c') by (apply Hc; simpl; now left).
      assert (Habove : forall c0, In c0 (chars ((c', f') :: rest)) -> c' <= c0).
      { intros c0 [<-|Hc0]; [simpl; lia|].
        apply ascending_cons in Htl as [_ Hc']. specialize (Hc' _ Hc0). lia. }
      change (inside_from cur ((c, f) :: (c', f') :: rest) x)
        with (inside_from (if c <=? x then f else cur) ((c', f') :: rest) x).
      rewrite (IH (if c <=? x then f else cur) Htl) by exact Hlast.
      cbn [inside_intervals]. unfold in_union.
      destruct (c <=? x) eqn:Hcx.
      * split.
        -- intros [[-> Hx]|(r & Hr & Hxr)].
           ++ right. exists (c, c'). split; [now left|].
              unfold in_range. simpl. specialize (Hx c' (or_introl eq_refl)). lia.
           ++ right. exists r. split; [|exact Hxr].
              destruct f; [now right | exact Hr].
        -- intros [[_ Hx]|(r & Hr & Hxr)].
           ++ specialize (Hx c (or_introl eq_refl)). lia.
           ++ destruct f.
              ** destruct Hr as [<-|Hr].
                 --- left. split; [reflexivity|]. intros c0 Hc0.
                     specialize (Habove _ Hc0). unfold in_range in Hxr.
                     simpl in Hxr. lia.
                 --- right. now exists r.
              ** right. now exists r.
      * split.
        -- intros [[-> Hx]|(r & Hr & Hxr)].
           ++ left. split; [reflexivity|]. intros c0 [<-|Hc0]; [simpl; lia|].
              now apply Hx.
           ++ right. exists r. split; [|exact Hxr].
              destruct f; [now right | exact Hr].
        -- intros [[-> Hx]|(r & Hr & Hxr)].
           ++ left. split; [reflexivity|]. intros c0 Hc0. apply Hx. now right.
           ++ right. destruct f.
              ** destruct Hr as [<-|Hr]; [|now exists r].
                 unfold in_range in Hxr. simpl in Hxr. lia.
              ** now exists r.
Qed.

(** An ascending marker list is determined by its characters and the inside
    status it encodes. *)
Lemma markers_determined m1 : forall m2 cur,
  ascending m1 -> ascending m2 ->
  (forall c, In c (chars m1) <-> In c (chars m2)) ->
  (forall x, inside_from cur m1 x = inside_from cur m2 x) ->
  m1 = m2.
Proof.
  induction m1 as [|[c1 f1] t1 IH]; intros [|[c2 f2] t2] cur Ha1 Ha2 Hch Hin.
  - reflexivity.
  - exfalso. apply (Hch c2). simpl. now left.
  - exfalso. apply (Hch c1). simpl. now left.
  - apply ascending_cons in Ha1 as [Ht1 Hc1].
    apply ascending_cons in Ha2 as [Ht2 Hc2].
    assert (c1 = c2) as <-.
    { destruct (proj1 (Hch c1) (or_introl eq_refl)) as [E|H1]; [now symmetry|].
      destruct (proj2 (Hch c2) (or_introl eq_refl)) as [E|H2]; [assumption|].
      specialize (Hc1 _ H2). specialize (Hc2 _ H1). simpl in *. lia. }
    assert (Hstep : forall x, c1 <= x ->
               inside_from f1 t1 x = inside_from f2 t2 x).
    { intros x Hx. specialize (Hin x). simpl in Hin.
      assert ((c1 <=? x) = true) as E by lia. now rewrite E in Hin. }
    assert (f1 = f2) as <-.
    { specialize (Hstep c1 (Z.le_refl _)).
      rewrite !inside_from_above in Hstep; [assumption| |].
      - intros c Hc. now apply Hc2.
      - intros c Hc. now apply Hc1. }
    f_equal. apply (IH t2 f1 Ht1 Ht2).
    + intros c. split; intros Hc.
      * destruct (proj1 (Hch c) (or_intror Hc)) as [E|H]; [|exact H].
        specialize (Hc1 _ Hc). simpl in E. lia.
      * destruct (proj2 (Hch c) (or_intror Hc)) as [E|H]; [|exact H].
        specialize (Hc2 _ Hc). simpl in E. lia.
    + intros x. destruct (Z_le_gt_dec c1 x) as [Hx|Hx]; [now apply Hstep|].
      rewrite !inside_from_above; [reflexivity| |].
      * intros c Hc. specialize (Hc2 _ Hc). lia.
      * intros c Hc. specialize (Hc1 _ Hc). lia.
Qed.

Lemma insert_all_permutation rs rs' :
  Forall nonempty_range rs -> Permutation rs rs' ->
  insert_all rs' = insert_all rs.
Proof.
  intros Hne Hp.
  assert (Hne' : Forall nonempty_range rs') by (eapply Permutation_Forall; eassumption).
  destruct (insert_all_facts rs Hne) as ((Ha & _) & Hin & Hch).
  destruct (insert_all_facts rs' Hne') as ((Ha' & _) & Hin' & Hch').
  apply (markers_determined _ _ false Ha' Ha).
  - intros c. rewrite Hch, Hch'. unfold is_endpoint. split.
    + intros (q & Hq & Hc). exists q. split; [|exact Hc].
      eapply Permutation_in; [symmetry|]; eassumption.
    + intros (q & Hq & Hc). exists q. split; [|exact Hc].
      eapply Permutation_in; eassumption.
  - intros x.
    assert (Hiff : inside_from false (insert_all rs') x = true
                   <-> inside_from false (insert_all rs) x = true).
    { rewrite Hin, Hin'. unfold in_union. split.
      - intros (r & Hr & Hx). exists r. split; [|exact Hx].
        eapply Permutation_in; [symmetry|]; eassumption.
      - intros (r & Hr & Hx). exists r. split; [|exact Hx].
        eapply Permutation_in; eassumption. }
    destruct (inside_from false (insert_all rs') x),
      (inside_from false (insert_all rs) x); try reflexivity.
    + symmetry. now apply Hiff.
    + now apply Hiff.
Qed.

Lemma adjacent_maximal_uniform rs r :
  Forall nonempty_range rs ->
  fst r < snd r -> is_endpoint rs (fst r) -> is_endpoint rs (snd r) ->
  (forall c, is_endpoint rs c -> c <= fst r \/ snd r <= c) ->
  maximal_uniform rs r.
Proof.
  intros Hne Hr (ql & Hql & Hlo) (qh & Hqh & Hhi) Hadj.
  rewrite Forall_forall in Hne. unfold nonempty_range in Hne. split.
  - intros q Hq. pose proof (Hne q Hq) as Hq'.
    assert (H1 : is_endpoint rs (fst q)) by (exists q; tauto).
    assert (H2 : is_endpoint rs (snd q)) by (exists q; tauto).
    apply Hadj in H1, H2. lia.
  - intros [lo' hi'] Hlo' Hhi' Hu. destruct r as [lo hi]. simpl in *.
    pose proof (Hu ql Hql) as Ul. pose proof (Hu qh Hqh) as Uh.
    pose proof (Hne ql Hql) as Nl. pose proof (Hne qh Hqh) as Nh.
    simpl in *. f_equal; lia.
Qed.

(** C2 (as stated, refuted).  Inserting [0, 256), [0, 32) and [0, 64) - the
    example of the comment above [insert] - makes the loop of
    [generate_states] visit [0, 32), [32, 64) and [64, 256): these are not the
    maximal intervals of the union, which is the single interval [0, 256). *)
Lemma insert_all_not_maximal_union_intervals :
  exists out,
    distinct_ranges (insert_all [(0, 256); (0, 32); (0, 64)]) = Some out
    /\ out = [(0, 32); (32, 64); (64, 256)]
    /\ ~ maximal_union_intervals [(0, 256); (0, 32); (0, 64)] out.
Proof.
  exists [(0, 32); (32, 64); (64, 256)].
  split; [reflexivity|]. split; [reflexivity|].
  intros (_ & _ & Hmax). inversion Hmax as [|r l [_ Hright] _]; subst.
  apply Hright. exists (0, 256). split; [now left|].
  unfold in_range. simpl. lia.
Qed.

(** C2 (amended).  After inserting any finite sequence of non-empty half-open
    ranges into a cleared range set, the loop of [generate_states] over the
    markers visits exactly the adjacent marker pairs whose left marker is in;
    these intervals are non-empty, ascending and pairwise disjoint, their
    union is the union of the inserted ranges, each lies entirely inside or
    entirely outside every inserted range and none can be extended without
    losing that; and the result is the same for every order of insertion. *)
Theorem insert_all_coarsest_uniform_partition (rs : list (Z * Z)) :
  Forall nonempty_range rs ->
  exists out,
    distinct_ranges (insert_all rs) = Some out
    /\ out = inside_intervals (insert_all rs)
    /\ coarsest_uniform_partition rs out
    /\ forall rs', Permutation rs rs' ->
         distinct_ranges (insert_all rs') = Some out.
Proof.
  intros Hne.
  destruct (insert_all_facts rs Hne) as ((Ha & Hno & Hl) & Hin & Hch).
  pose proof (distinct_ranges_inside_intervals _ Hno Hl) as Hwalk.
  exists (inside_intervals (insert_all rs)).
  split; [exact Hwalk|]. split; [reflexivity|]. split.
  - split; [now apply inside_intervals_ordered|]. split.
    + intros x. rewrite <- Hin.
      rewrite (inside_intervals_cover false _ x Ha Hl).
      split; [tauto|]. intros [[H _]|H]; [discriminate | exact H].
    + apply Forall_forall. intros r Hr.
      destruct (inside_intervals_adjacent _ r Ha Hr) as (H1 & H2 & H3 & H4).
      apply adjacent_maximal_uniform; try assumption.
      * now apply Hch.
      * now apply Hch.
      * intros c Hc. apply H4. now apply Hch.
  - intros rs' Hp. now rewrite (insert_all_permutation rs rs' Hne Hp).
Qed.

Lemma insert_all_coarsest_uniform_partition_witness :
  Forall nonempty_range [(0, 256); (0, 32); (0, 64)]
  /\ exists out,
       distinct_ranges (insert_all [(0, 256); (0, 32); (0, 64)]) = Some out
       /\ out = inside_intervals (insert_all [(0, 256); (0, 32); (0, 64)])
       /\ coarsest_uniform_partition [(0, 256); (0, 32); (0, 64)] out
       /\ forall rs', Permutation [(0, 256); (0, 32); (0, 64)] rs' ->
            distinct_ranges (insert_all rs') = Some out.
Proof.
  assert (H : Forall nonempty_range [(0, 256); (0, 32); (0, 64)]).
  { repeat constructor. }
  split; [exact H|].
  apply (insert_all_coarsest_uniform_partition [(0, 256); (0, 32); (0, 64)] H).
Defined.

(** ** Symbol selection *)

Lemma fold_option_app {A B : Type} (f : B -> A -> option A) l1 l2 a :
  fold_option f (l1 ++ l2) a
  = match fold_option f l1 a with
    | Some a' => fold_option f l2 a'
    | None => None
    end.
Proof.
  revert a. induction l1 as [|b l1 IH]; intros a; simpl; [reflexivity|].
  destruct (f b a); [apply IH | reflexivity].
Qed.

Lemma fold_option_flat_map {A B C : Type} (f : B -> A -> option A)
  (h : C -> list B) l a :
  fold_option (fun c acc => fold_option f (h c) acc) l a
  = fold_option f (flat_map h l) a.
Proof.
  revert a. induction l as [|c l IH]; intros a; simpl; [reflexivity|].
  rewrite fold_option_app. destruct (fold_option f (h c) a); [apply IH | reflexivity].
Qed.

Lemma visit_node_token_of n acc :
  visit_node n acc = fold_option visit_token (token_of n) acc.
Proof.
  unfold visit_node, token_of. destruct (is_end n); [|reflexivity].
  destruct (get_token n); simpl; [|reflexivity].
  now destruct (visit_token l acc).
Qed.

Lemma set_delivered_same g : set_delivered (delivered_ g) g = g.
Proof. now destruct g. Qed.

Section SymbolSelection.

Context `{Declarations}.

Lemma fold_visit_nodes ns acc :
  fold_option visit_node ns acc
  = fold_option visit_token (flat_map token_of ns) acc.
Proof.
  revert acc. induction ns as [|n ns IH]; intros acc; simpl; [reflexivity|].
  rewrite fold_option_app, visit_node_token_of.
  destruct (fold_option visit_token (token_of n) acc); [apply IH | reflexivity].
Qed.

Lemma select_token_accepting_tokens node state g :
  select_token node state g
  = fold_option visit_token (accepting_tokens node state) (initial_selection, g).
Proof.
  unfold select_token, accepting_tokens.
  generalize (initial_selection, g).
  induction (items_ state) as [|item l IH]; intros acc; simpl; [reflexivity|].
  rewrite fold_option_app, fold_visit_nodes.
  destruct (fold_option visit_token
              (flat_map token_of (get_next_nodes node item)) acc);
    [apply IH | reflexivity].
Qed.

(** The three outcomes of visiting a token. *)
Lemma visit_token_cases t sel g :
  consistent sel -> selectable t ->
  (visit_token t (sel, g) = Some (select t, g)
   /\ (sel_type sel < token_type t
       \/ (token_type t = sel_type sel /\ token_line t < sel_line sel)))
  \/ (exists token,
        sel_token sel = Some token
        /\ visit_token t (sel, g)
           = Some (sel, fire_error g (token_line token)
                          (LexerSymbolConflictError token t))
        /\ token_type t = sel_type sel /\ token_line t = sel_line sel)
  \/ (visit_token t (sel, g) = Some (sel, g)
      /\ (token_type t < sel_type sel
          \/ (token_type t = sel_type sel /\ sel_line sel < token_line t))).
Proof.
  intros Hc Hs. unfold visit_token.
  destruct (token_type t >? sel_type sel) eqn:E1.
  { left. split; [reflexivity | lia]. }
  destruct (token_type t =? sel_type sel) eqn:E2; simpl.
  - destruct (token_line t <? sel_line sel) eqn:E3.
    { left. split; [reflexivity | lia]. }
    destruct (token_line t =? sel_line sel) eqn:E4.
    + right. left. unfold consistent in Hc.
      destruct (sel_token sel) as [token|].
      * exists token. repeat split; lia.
      * exfalso. unfold selectable in Hs. lia.
    + right. right. split; [reflexivity | lia].
  - right. right. split; [reflexivity | lia].
Qed.

Lemma consistent_select t : consistent (select t).
Proof. unfold consistent. simpl. tauto. Qed.

Lemma consistent_initial : consistent initial_selection.
Proof. unfold consistent. simpl. tauto. Qed.

(** The loop over the tokens never fails on selectable tokens, and it ends on
    a best token. *)
Lemma fold_visit_best toks : forall sel g,
  consistent sel -> Forall selectable toks ->
  exists sel' g',
    fold_option visit_token toks (sel, g) = Some (sel', g')
    /\ consistent sel'
    /\ (sel' = sel \/ exists t, In t toks /\ sel_token sel' = Some t)
    /\ (sel_type sel < sel_type sel'
        \/ (sel_type sel = sel_type sel' /\ sel_line sel' <= sel_line sel))
    /\ (forall c, In c toks ->
          token_type c < sel_type sel'
          \/ (token_type c = sel_type sel' /\ sel_line sel' <= token_line c)).
Proof.
  induction toks as [|t toks IH]; intros sel g Hc Hs.
  - exists sel, g. simpl. repeat split; try tauto. right. lia.
  - inversion Hs as [|? ? Ht Hs']; subst. cbn [fold_option].
    destruct (visit_token_cases t sel g Hc Ht)
      as [[-> Hb]|[(token & Htok & -> & Hty & Hln)|[-> Hw]]].
    + destruct (IH (select t) g (consistent_select t) Hs')
        as (sel' & g' & Hf & Hc' & Hfrom & Hmono & Hbest).
      exists sel', g'. simpl in Hmono. repeat split; try assumption.
      * destruct Hfrom as [->|(t' & Hin & Ht')].
        -- right. exists t. split; [now left | reflexivity].
        -- right. exists t'. split; [now right | assumption].
      * lia.
      * intros c [<-|Hin]; [lia | now apply Hbest].
    + destruct (IH sel (fire_error g (token_line token)
                          (LexerSymbolConflictError token t)) Hc Hs')
        as (sel' & g' & Hf & Hc' & Hfrom & Hmono & Hbest).
      exists sel', g'. repeat split; try assumption.
      * destruct Hfrom as [->|(t' & Hin & Ht')]; [now left|].
        right. exists t'. split; [now right | assumption].
      * intros c [<-|Hin]; [lia | now apply Hbest].
    + destruct (IH sel g Hc Hs') as (sel' & g' & Hf & Hc' & Hfrom & Hmono & Hbest).
      exists sel', g'. repeat split; try assumption.
      * destruct Hfrom as [->|(t' & Hin & Ht')]; [now left|].
        right. exists t'. split; [now right | assumption].
      * intros c [<-|Hin]; [lia | now apply Hbest].
Qed.

(** The selection does not depend on the generator the loop runs in. *)
Lemma fold_visit_any_generator toks : forall sel g sel' g' g2,
  fold_option visit_token toks (sel, g) = Some (sel', g') ->
  exists g2', fold_option visit_token toks (sel, g2) = Some (sel', g2').
Proof.
  induction toks as [|t toks IH]; intros sel g sel' g' g2 Hf; simpl in *.
  - inversion Hf; subst. now exists g2.
  - unfold visit_token in *.
    destruct (token_type t >? sel_type sel); [now apply (IH _ g _ g')|].
    destruct ((token_type t =? sel_type sel) && (token_line t <? sel_line sel));
      [now apply (IH _ g _ g')|].
    destruct ((token_type t =? sel_type sel) && (token_line t =? sel_line sel)).
    + destruct (sel_token sel) as [token|]; [|discriminate].
      eapply IH. exact Hf.
    + now apply (IH _ g _ g').
Qed.

Lemma fire_error_delivered g line error :
  event_sink_ g = true ->
  fire_error g line error
  = set_delivered (delivered_ g ++ [lexer_error line error]) g.
Proof. intros E. unfold fire_error. now rewrite E. Qed.

Lemma fire_error_null g line error :
  event_sink_ g = false -> fire_error g line error = g.
Proof. intros E. unfold fire_error. now rewrite E. Qed.

Lemma fold_visit_null_sink toks : forall sel g sel' g',
  event_sink_ g = false ->
  fold_option visit_token toks (sel, g) = Some (sel', g') -> g' = g.
Proof.
  induction toks as [|t toks IH]; intros sel g sel' g' E Hf; simpl in Hf.
  - now inversion Hf.
  - unfold visit_token in Hf.
    destruct (token_type t >? sel_type sel); [now apply (IH _ _ _ _ E Hf)|].
    destruct ((token_type t =? sel_type sel) && (token_line t <? sel_line sel));
      [now apply (IH _ _ _ _ E Hf)|].
    destruct ((token_type t =? sel_type sel) && (token_line t =? sel_line sel));
      [|now apply (IH _ _ _ _ E Hf)].
    destruct (sel_token sel) as [token|]; [|discriminate].
    rewrite (fire_error_null _ _ _ E) in Hf. now apply (IH _ _ _ _ E Hf).
Qed.

Lemma tie_cons t toks : tie toks -> tie (t :: toks).
Proof.
  intros (l1 & t1 & l2 & t2 & l3 & -> & Hr).
  now exists (t :: l1), t1, l2, t2, l3.
Qed.

Lemma tie_head t c toks : In c toks -> same_rank t c -> tie (t :: toks).
Proof.
  intros Hin Hr. apply in_split in Hin as (l2 & l3 & ->).
  now exists [], t, l2, c, l3.
Qed.

(** What the loop over the tokens delivers to a sink that is not null. *)
Lemma fold_visit_conflicts toks : forall sel g,
  consistent sel -> Forall selectable toks -> event_sink_ g = true ->
  exists sel' g' calls,
    fold_option visit_token toks (sel, g) = Some (sel', g')
    /\ g' = set_delivered (delivered_ g ++ calls) g
    /\ Forall is_conflict calls
    /\ (calls <> [] ->
        (exists t token, In t toks /\ sel_token sel = Some token
                         /\ same_rank token t)
        \/ tie toks)
    /\ ((exists t, In t toks /\ sel_token sel <> None
                   /\ token_type t = sel_type sel
                   /\ token_line t = sel_line sel
                   /\ sel_type sel = sel_type sel'
                   /\ sel_line sel = sel_line sel')
        \/ tie_at (sel_type sel') (sel_line sel') toks ->
        calls <> []).
Proof.
  induction toks as [|t toks IH]; intros sel g Hc Hs Hsink.
  - exists sel, g, []. simpl. rewrite app_nil_r, set_delivered_same.
    repeat split; try constructor.
    + congruence.
    + intros [(t & [] & _)|(l1 & t1 & l2 & t2 & l3 & E & _)].
      now destruct l1.
  - inversion Hs as [|? ? Ht Hs']; subst. cbn [fold_option].
    destruct (visit_token_cases t sel g Hc Ht)
      as [[-> Hb]|[(token & Htok & -> & Hty & Hln)|[-> Hw]]].
    + (* [t] replaces the selection *)
      destruct (IH (select t) g (consistent_select t) Hs' Hsink)
        as (sel' & g' & calls & Hf & Hg & Hall & Honly & Hif).
      destruct (fold_visit_best toks (select t) g (consistent_select t) Hs')
        as (sel2 & g2 & Hf2 & _ & _ & Hmono & _).
      rewrite Hf in Hf2. inversion Hf2; subst sel2 g2. simpl in Hmono.
      exists sel', g', calls. repeat split; try assumption.
      * intros Hne. right. destruct (Honly Hne) as [(c & token & Hin & E & Hr)|Hti].
        -- simpl in E. inversion E; subst token. now apply (tie_head t c).
        -- now apply tie_cons.
      * intros [(c & Hin & _ & Hcty & Hcln & Hsty & Hsln)|Hti]; [lia|].
        apply Hif. destruct Hti as (l1 & t1 & l2 & t2 & l3 & E & H1 & H2 & H3 & H4).
        destruct l1 as [|x l1]; simpl in E; inversion E; subst.
        -- left. exists t2. simpl. repeat split; try congruence.
           apply in_or_app. right. now left.
        -- right. now exists l1, t1, l2, t2, l3.
    + (* [t] conflicts with the selection *)
      set (g1 := fire_error g (token_line token)
                   (LexerSymbolConflictError token t)) in *.
      assert (Hg1 : g1 = set_delivered
                          (delivered_ g ++ [lexer_error (token_line token)
                             (LexerSymbolConflictError token t)]) g)
        by now apply fire_error_delivered.
      assert (Hsink1 : event_sink_ g1 = true) by now rewrite Hg1.
      destruct (IH sel g1 Hc Hs' Hsink1)
        as (sel' & g' & calls & Hf & Hg & Hall & Honly & Hif).
      exists sel', g',
        (lexer_error (token_line token) (LexerSymbolConflictError token t)
           :: calls).
      repeat split; try assumption.
      * rewrite Hg, Hg1. simpl. now rewrite <- app_assoc.
      * constructor; [|assumption]. now exists (token_line token), token, t.
      * intros _. left. exists t, token. repeat split; try (now left); try assumption.
        -- unfold consistent in Hc. rewrite Htok in Hc. lia.
        -- unfold consistent in Hc. rewrite Htok in Hc. lia.
      * intros _. discriminate.
    + (* [t] loses to the selection *)
      destruct (IH sel g Hc Hs' Hsink)
        as (sel' & g' & calls & Hf & Hg & Hall & Honly & Hif).
      destruct (fold_visit_best toks sel g Hc Hs')
        as (sel2 & g2 & Hf2 & _ & _ & Hmono & _).
      rewrite Hf in Hf2. inversion Hf2; subst sel2 g2.
      exists sel', g', calls. repeat split; try assumption.
      * intros Hne. destruct (Honly Hne) as [(c & token & Hin & E & Hr)|Hti].
        -- left. exists c, token. repeat split; try assumption; try apply Hr.
           now right.
        -- right. now apply tie_cons.
      * intros [(c & [<-|Hin] & Hn & Hcty & Hcln & Hsty & Hsln)|Hti]; [lia| |].
        -- apply Hif. left. exists c. repeat split; assumption.
        -- apply Hif.
           destruct Hti as (l1 & t1 & l2 & t2 & l3 & E & H1 & H2 & H3 & H4).
           destruct l1 as [|x l1]; simpl in E; inversion E; subst; [lia|].
           right. now exists l1, t1, l2, t2, l3.
Qed.

Lemma conflict_met_cons t toks sel g sel1 g1 :
  visit_token t (sel, g) = Some (sel1, g1) ->
  conflict_met sel g (t :: toks)
  <-> (token_type t = sel_type sel /\ token_line t = sel_line sel)
      \/ conflict_met sel1 g1 toks.
Proof.
  intros Hstep. split.
  - intros (pre & t' & post & sel_p & g_p & E & Hf & Hty & Hln).
    destruct pre as [|t0 pre]; simpl in E; inversion E; subst.
    + left. simpl in Hf. inversion Hf; subst. now split.
    + right. cbn [fold_option] in Hf. rewrite Hstep in Hf.
      now exists pre, t', post, sel_p, g_p.
  - intros [[Hty Hln]|(pre & t' & post & sel_p & g_p & -> & Hf & Hty & Hln)].
    + now exists [], t, toks, sel, g.
    + exists (t :: pre), t', post, sel_p, g_p. cbn [fold_option].
      now rewrite Hstep.
Qed.

(** The sink receives something exactly when a token is met that has the
    type and line of the selection at that moment. *)
Lemma fold_visit_conflict_met toks : forall sel g sel' g',
  consistent sel -> Forall selectable toks -> event_sink_ g = true ->
  fold_option visit_token toks (sel, g) = Some (sel', g') ->
  (List.length (delivered_ g) <= List.length (delivered_ g'))%nat
  /\ ((List.length (delivered_ g) < List.length (delivered_ g'))%nat
      <-> conflict_met sel g toks).
Proof.
  induction toks as [|t toks IH]; intros sel g sel' g' Hc Hs Hsink Hf.
  - simpl in Hf. inversion Hf; subst. split; [lia|]. split; [lia|].
    intros (pre & t & post & _ & _ & E & _). now destruct pre.
  - inversion Hs as [|? ? Ht Hs']; subst. cbn [fold_option] in Hf.
    destruct (visit_token_cases t sel g Hc Ht)
      as [[Hstep Hb]|[(token & Htok & Hstep & Hty & Hln)|[Hstep Hw]]];
      rewrite Hstep in Hf; rewrite (conflict_met_cons _ _ _ _ _ _ Hstep).
    + destruct (IH _ _ _ _ (consistent_select t) Hs' Hsink Hf) as [Hle Hiff].
      split; [exact Hle|]. rewrite Hiff. split; [tauto|].
      intros [[Hty Hln]|Hm]; [lia | exact Hm].
    + rewrite (fire_error_delivered _ _ _ Hsink) in Hf.
      apply IH in Hf; [|exact Hc|exact Hs'|exact Hsink].
      destruct Hf as [Hle _]. simpl in Hle. rewrite length_app in Hle.
      simpl in Hle. split; [lia|]. split; [intros _; now left | lia].
    + destruct (IH _ _ _ _ Hc Hs' Hsink Hf) as [Hle Hiff].
      split; [exact Hle|]. rewrite Hiff. split; [tauto|].
      intros [[Hty Hln]|Hm]; [lia | exact Hm].
Qed.

(** The selected type and line are those of a best token whatever the order
    of the tokens. *)
Lemma fold_visit_permutation toks toks' g g0 sel g1 :
  Forall selectable toks -> Permutation toks toks' ->
  fold_option visit_token toks (initial_selection, g) = Some (sel, g1) ->
  exists sel' g0',
    fold_option visit_token toks' (initial_selection, g0) = Some (sel', g0')
    /\ sel_type sel' = sel_type sel /\ sel_line sel' = sel_line sel.
Proof.
  intros Hs Hp Hf.
  assert (Hs' : Forall selectable toks') by (eapply Permutation_Forall; eassumption).
  destruct (fold_visit_best toks initial_selection g consistent_initial Hs)
    as (s1 & g1' & Hf1 & Hc1 & Hfrom1 & _ & Hbest1).
  rewrite Hf in Hf1. inversion Hf1; subst s1 g1'.
  destruct (fold_visit_best toks' initial_selection g0 consistent_initial Hs')
    as (sel' & g0' & Hf2 & Hc2 & Hfrom2 & _ & Hbest2).
  exists sel', g0'. split; [exact Hf2|].
  rewrite Forall_forall in Hs, Hs'.
  assert (Hrank : forall s l, consistent s ->
            (s = initial_selection \/ exists t, In t l /\ sel_token s = Some t) ->
            (forall c, In c l -> selectable c) ->
            (forall c, In c l ->
               token_type c < sel_type s
               \/ (token_type c = sel_type s /\ sel_line s <= token_line c)) ->
            (l = [] /\ s = initial_selection)
            \/ exists t, In t l /\ sel_type s = token_type t
                         /\ sel_line s = token_line t).
  { intros s l Hc [->|(t & Hin & Ht)] Hsel Hb.
    - destruct l as [|c l]; [now left|]. exfalso.
      specialize (Hsel c (or_introl eq_refl)). specialize (Hb c (or_introl eq_refl)).
      unfold selectable in Hsel. simpl in Hb. lia.
    - right. exists t. split; [assumption|]. unfold consistent in Hc.
      now rewrite Ht in Hc. }
  destruct (Hrank sel toks Hc1 Hfrom1 Hs Hbest1) as [[-> ->]|(t & Hin & Hty & Hln)].
  - apply Permutation_nil in Hp. subst toks'.
    simpl in Hf2. inversion Hf2. now subst.
  - destruct (Hrank sel' toks' Hc2 Hfrom2 Hs' Hbest2)
      as [[-> ->]|(t' & Hin' & Hty' & Hln')].
    + apply Permutation_sym, Permutation_nil in Hp. now subst toks.
    + assert (H1 := Hbest2 t (Permutation_in _ Hp Hin)).
      assert (H2 := Hbest1 t' (Permutation_in _ (Permutation_sym Hp) Hin')).
      lia.
Qed.

Lemma above_null_selectable t : above_null t -> selectable t.
Proof. intros [Hty _]. now left. Qed.

Lemma visit_token_pre_above_null t sel :
  consistent sel -> above_null t -> visit_token_pre t sel = true.
Proof.
  intros Hc [Hty Hln]. unfold visit_token_pre.
  destruct (token_type t >? sel_type sel); [reflexivity|].
  destruct ((token_type t =? sel_type sel) && (token_line t <? sel_line sel));
    [reflexivity|].
  destruct ((token_type t =? sel_type sel) && (token_line t =? sel_line sel))
    eqn:E; [|reflexivity].
  apply andb_prop in E as [E1 E2].
  apply Z.eqb_eq in E1. apply Z.eqb_eq in E2.
  assert (E3 : (sel_type sel =? TOKEN_NULL) = false) by (apply Z.eqb_neq; lia).
  assert (E4 : (sel_line sel =? INT_MAX) = false) by (apply Z.eqb_neq; lia).
  rewrite E3, E4. simpl. unfold consistent in Hc.
  destruct (sel_token sel); [reflexivity | lia].
Qed.

(** The assertions of the conflict branch pass for tokens of a type above
    [TOKEN_NULL] on a line other than [INT_MAX]. *)
Lemma visit_tokens_pre_above_null toks : forall sel g,
  consistent sel -> Forall above_null toks ->
  visit_tokens_pre toks (sel, g) = true.
Proof.
  induction toks as [|t toks IH]; intros sel g Hc Hs; [reflexivity|].
  inversion Hs as [|? ? Ht Hs']; subst. cbn [visit_tokens_pre fst].
  rewrite (visit_token_pre_above_null t sel Hc Ht). cbn [andb].
  destruct (visit_token_cases t sel g Hc (above_null_selectable t Ht))
    as [[-> _]|[(token & _ & -> & _)|[-> _]]].
  - apply IH; [apply consistent_select | exact Hs'].
  - now apply IH.
  - now apply IH.
Qed.

(** What the loop over selectable tokens ends on, said of the tokens: the
    selection it started from, which no token beats, or the first token that
    beats it and that no token beats. *)
Lemma fold_visit_first toks : forall sel g,
  consistent sel -> Forall selectable toks ->
  exists sel' g',
    fold_option visit_token toks (sel, g) = Some (sel', g')
    /\ ((sel' = sel
         /\ forall c, In c toks ->
              token_type c < sel_type sel
              \/ (token_type c = sel_type sel /\ sel_line sel <= token_line c))
        \/ exists t,
             sel_token sel' = Some t
             /\ sel_type sel' = token_type t /\ sel_line sel' = token_line t
             /\ (sel_type sel < token_type t
                 \/ (sel_type sel = token_type t
                     /\ token_line t < sel_line sel))
             /\ first_unbeaten toks t).
Proof.
  induction toks as [|t toks IH]; intros sel g Hc Hs.
  - exists sel, g. split; [reflexivity|]. left. split; [reflexivity|].
    intros c [].
  - inversion Hs as [|? ? Ht Hs']; subst. cbn [fold_option].
    destruct (visit_token_cases t sel g Hc Ht)
      as [[-> Hb]|[(token & Htok & -> & Hty & Hln)|[-> Hw]]].
    + destruct (IH (select t) g (consistent_select t) Hs')
        as (sel' & g' & Hf & Hend).
      exists sel', g'. split; [exact Hf|]. right.
      destruct Hend as [[-> Hlose]|(t' & Ht' & Hty' & Hln' & Hb' & Hfirst)].
      * exists t. split; [reflexivity|]. split; [reflexivity|].
        split; [reflexivity|]. split; [lia|].
        exists [], toks. split; [reflexivity|]. split; [intros c []|].
        intros c Hin. specialize (Hlose c Hin). simpl in Hlose.
        unfold not_beaten_by. lia.
      * exists t'. split; [exact Ht'|]. split; [exact Hty'|].
        split; [exact Hln'|]. simpl in Hb'. split; [lia|].
        destruct Hfirst as (pre & post & -> & Hpre & Hpost).
        exists (t :: pre), post. split; [reflexivity|].
        split; [|exact Hpost].
        intros c [<-|Hin]; [unfold beats; lia | now apply Hpre].
    + destruct (IH sel (fire_error g (token_line token)
                          (LexerSymbolConflictError token t)) Hc Hs')
        as (sel' & g' & Hf & Hend).
      exists sel', g'. split; [exact Hf|].
      destruct Hend as [[-> Hlose]|(t' & Ht' & Hty' & Hln' & Hb' & Hfirst)].
      * left. split; [reflexivity|].
        intros c [<-|Hin]; [lia | now apply Hlose].
      * right. exists t'. split; [exact Ht'|]. split; [exact Hty'|].
        split; [exact Hln'|]. split; [exact Hb'|].
        destruct Hfirst as (pre & post & -> & Hpre & Hpost).
        exists (t :: pre), post. split; [reflexivity|].
        split; [|exact Hpost].
        intros c [<-|Hin]; [unfold beats; lia | now apply Hpre].
    + destruct (IH sel g Hc Hs') as (sel' & g' & Hf & Hend).
      exists sel', g'. split; [exact Hf|].
      destruct Hend as [[-> Hlose]|(t' & Ht' & Hty' & Hln' & Hb' & Hfirst)].
      * left. split; [reflexivity|].
        intros c [<-|Hin]; [lia | now apply Hlose].
      * right. exists t'. split; [exact Ht'|]. split; [exact Hty'|].
        split; [exact Hln'|]. split; [exact Hb'|].
        destruct Hfirst as (pre & post & -> & Hpre & Hpost).
        exists (t :: pre), post. split; [reflexivity|].
        split; [|exact Hpost].
        intros c [<-|Hin]; [unfold beats; lia | now apply Hpre].
Qed.

Lemma first_unbeaten_unbeaten toks t :
  first_unbeaten toks t -> unbeaten toks t.
Proof.
  intros (pre & post & -> & Hpre & Hpost). split.
  - apply in_or_app. right. now left.
  - intros c Hin. apply in_app_or in Hin as [Hin|[<-|Hin]].
    + specialize (Hpre c Hin). unfold beats in Hpre. unfold not_beaten_by. lia.
    + unfold not_beaten_by. lia.
    + now apply Hpost.
Qed.

Lemma fold_visit_unbeaten toks g :
  Forall selectable toks ->
  exists sel g',
    fold_option visit_token toks (initial_selection, g) = Some (sel, g')
    /\ (toks = [] -> sel_token sel = None)
    /\ (toks <> [] ->
        exists t, sel_token sel = Some t /\ first_unbeaten toks t
                  /\ sel_type sel = token_type t
                  /\ sel_line sel = token_line t).
Proof.
  intros Hs.
  destruct (fold_visit_first toks initial_selection g consistent_initial Hs)
    as (sel & g' & Hf & Hend).
  exists sel, g'. split; [exact Hf|]. split.
  - intros ->. simpl in Hf. now inversion Hf.
  - intros Hne.
    destruct Hend as [[-> Hlose]|(t & Ht & Hty & Hln & _ & Hfirst)].
    + exfalso. destruct toks as [|c l]; [congruence|].
      inversion Hs as [|? ? Hsel _]; subst.
      specialize (Hlose c (or_introl eq_refl)).
      unfold selectable in Hsel. simpl in Hlose. lia.
    + exists t. now repeat split.
Qed.



(** C4 (amended).  With a sink that is not null and accepting tokens of a
    type above [TOKEN_NULL] on lines other than [INT_MAX], the assertions of
    [generate_symbol_for_state] pass and everything it delivers is a symbol
    conflict; a conflict is delivered if and only if an accepting token is
    met that has the type and line of the token selected so far.  So one is
    delivered only if two accepting positions of the state carry tokens of
    equal type and line, and one is delivered whenever two accepting
    positions carry tokens of the type and line of the token whose symbol
    is set.  The call still returns; it changes nothing of the state but the
    symbol, which is the symbol of an accepting token that no accepting
    token beats; and the state it returns is the same in every generator,
    whatever was delivered before. *)
Theorem generate_symbol_for_state_conflicts node state g :
  event_sink_ g = true ->
  Forall above_null (accepting_tokens node state) ->
  generate_symbol_for_state_pre node state g = true
  /\ exists state' g' calls,
       generate_symbol_for_state node state g = Some (state', g')
       /\ g' = set_delivered (delivered_ g ++ calls) g
       /\ Forall is_conflict calls
       /\ (calls <> [] <->
           conflict_met initial_selection g (accepting_tokens node state))
       /\ (calls <> [] -> tie (accepting_tokens node state))
       /\ state' = set_symbol (symbol_ state') state
       /\ (accepting_tokens node state = [] -> symbol_ state' = None)
       /\ (accepting_tokens node state <> [] ->
           exists t, unbeaten (accepting_tokens node state) t
                     /\ symbol_ state' = token_symbol t
                     /\ (tie_at (token_type t) (token_line t)
                           (accepting_tokens node state) ->
                         calls <> []))
       /\ (forall g2, exists g2',
             generate_symbol_for_state node state g2 = Some (state', g2')).
Proof.
  intros Hsink Ha.
  assert (Hs : Forall selectable (accepting_tokens node state)).
  { rewrite Forall_forall in Ha |- *. intros t Ht.
    now apply above_null_selectable, Ha. }
  split.
  { unfold generate_symbol_for_state_pre.
    apply visit_tokens_pre_above_null; [apply consistent_initial | exact Ha]. }
  destruct (fold_visit_conflicts _ initial_selection g consistent_initial Hs Hsink)
    as (sel & g' & calls & Hf & Hg & Hall & Honly & Hif).
  destruct (fold_visit_unbeaten _ g Hs) as (sel2 & g2 & Hf2 & Hnil & Hcons).
  rewrite Hf in Hf2. inversion Hf2; subst sel2 g2.
  destruct (fold_visit_conflict_met _ _ _ _ _ consistent_initial Hs Hsink Hf)
    as [_ Hmet].
  exists (set_symbol (symbol_of (sel_token sel)) state), g', calls.
  split; [unfold generate_symbol_for_state;
          now rewrite select_token_accepting_tokens, Hf|].
  split; [exact Hg|]. split; [exact Hall|]. split.
  { rewrite <- Hmet, Hg. simpl. rewrite length_app.
    destruct calls; simpl; split; intros; try lia; congruence. }
  split.
  { intros Hne. destruct (Honly Hne) as [(t & token & _ & E & _)|Hti];
      [discriminate | exact Hti]. }
  split; [reflexivity|]. split.
  { intros E. simpl. now rewrite (Hnil E). }
  split.
  { intros Hne. destruct (Hcons Hne) as (t & Ht & Hfirst & Hty & Hln).
    exists t. split; [now apply first_unbeaten_unbeaten|].
    split; [simpl; now rewrite Ht|].
    intros Hti. apply Hif. right. now rewrite Hty, Hln. }
  intros g2.
  destruct (fold_visit_any_generator _ _ _ _ _ g2 Hf) as (g2' & Hf').
  exists g2'. unfold generate_symbol_for_state.
  now rewrite select_token_accepting_tokens, Hf'.
Qed.

End SymbolSelection.



Lemma generate_symbol_for_state_conflicts_witness :
  event_sink_ (initial_generator true) = true
  /\ Forall (@above_null example_declarations)
       (accepting_tokens three_ends three_ends_state)
  /\ @generate_symbol_for_state_pre example_declarations three_ends
       three_ends_state (initial_generator true) = true
  /\ exists state' g',
       @generate_symbol_for_state example_declarations three_ends
         three_ends_state (initial_generator true) = Some (state', g')
       /\ symbol_ state' = Some 20%nat.
Proof.
  assert (Ha : Forall (@above_null example_declarations)
                 (accepting_tokens three_ends three_ends_state)).
  { repeat constructor; unfold INT_MAX; simpl; lia. }
  split; [reflexivity|]. split; [exact Ha|].
  destruct (@generate_symbol_for_state_conflicts example_declarations
              three_ends three_ends_state (initial_generator true) eq_refl Ha)
    as (Hpre & state' & g' & calls & Hgen & _).
  split; [exact Hpre|].
  exists state', g'. split; [exact Hgen|].
  vm_compute in Hgen. now inversion Hgen.
Defined.

(** C4 (as stated, refuted).  A state accepts a token of type 2 and two
    tokens of type 1 that share line 5, met in this order: two accepting
    tokens have equal type and line, yet nothing is delivered to the sink. *)
Lemma three_ends_tie_not_reported :
  ~ @reports_conflict_iff_tie example_declarations three_ends three_ends_state
      (initial_generator true).
Proof.
  intros (state' & g' & Hgen & Hiff).
  vm_compute in Hgen. inversion Hgen; subst. clear Hgen.
  apply (proj2 Hiff); [|reflexivity].
  exists [token 2 1 20], (token 1 5 11), [], (token 1 5 12), [].
  split; [reflexivity|]. split; reflexivity.
Qed.

(** ** The action registry *)

Lemma find_action_none identifier actions :
  (forall a, In a actions -> action_identifier a <> identifier) ->
  find_action identifier actions = None.
Proof.
  induction actions as [|a rest IH]; intros Hnot; simpl; [reflexivity|].
  destruct (String.eqb_spec (action_identifier a) identifier) as [E|_].
  - exfalso. apply (Hnot a); [now left | exact E].
  - apply IH. intros a' Hin. apply Hnot. now right.
Qed.

Lemma find_action_app identifier actions more a :
  find_action identifier actions = Some a ->
  find_action identifier (actions ++ more) = Some a.
Proof.
  induction actions as [|a' rest IH]; simpl; [discriminate|].
  destruct (String.eqb (action_identifier a') identifier); auto.
Qed.

Lemma find_action_last identifier actions a :
  find_action identifier actions = None -> action_identifier a = identifier ->
  find_action identifier (actions ++ [a]) = Some a.
Proof.
  intros Hnone <-. induction actions as [|a' rest IH]; simpl in *.
  - now rewrite String.eqb_refl.
  - destruct (String.eqb (action_identifier a') (action_identifier a));
      [discriminate | auto].
Qed.

(** A call only ever appends to [actions_], and what it appends carries the
    identifier of the call. *)
Lemma add_lexer_action_appends identifier g :
  exists more,
    actions_ (snd (add_lexer_action identifier g)) = actions_ g ++ more
    /\ forall a, In a more -> action_identifier a = identifier.
Proof.
  unfold add_lexer_action. destruct (negb (empty identifier)).
  - destruct (find_action identifier (actions_ g)).
    + exists []. simpl. rewrite app_nil_r. split; [reflexivity | contradiction].
    + eexists. simpl. split; [reflexivity|]. now intros a [<-|[]].
  - exists []. simpl. rewrite app_nil_r. split; [reflexivity | contradiction].
Qed.

Lemma add_lexer_actions_appends identifiers : forall g,
  exists more,
    actions_ (add_lexer_actions identifiers g) = actions_ g ++ more
    /\ forall a, In a more -> In (action_identifier a) identifiers.
Proof.
  induction identifiers as [|s rest IH]; intros g; simpl.
  - exists []. rewrite app_nil_r. split; [reflexivity | contradiction].
  - destruct (add_lexer_action_appends s g) as (m1 & E1 & H1).
    destruct (IH (snd (add_lexer_action s g))) as (m2 & E2 & H2).
    exists (m1 ++ m2). unfold add_lexer_actions in *. simpl.
    rewrite E2, E1, app_assoc. split; [reflexivity|].
    intros a Hin. apply in_app_or in Hin as [Hin|Hin].
    + left. symmetry. now apply H1.
    + right. now apply H2.
Qed.

(** [add_lexer_action] changes no member but [actions_], and does not read
    the sink. *)
Lemma add_lexer_action_members identifier g :
  snd (add_lexer_action identifier g)
  = set_actions (actions_ (snd (add_lexer_action identifier g))) g.
Proof.
  unfold add_lexer_action. destruct (negb (empty identifier));
    [|now destruct g].
  destruct (find_action identifier (actions_ g)); now destruct g.
Qed.

Lemma new_RegexParser_members regex_parser g :
  new_RegexParser regex_parser g
  = set_actions (actions_ (new_RegexParser regex_parser g)) g.
Proof.
  unfold new_RegexParser, add_lexer_actions.
  revert g. induction (parser_actions regex_parser) as [|s rest IH]; intros g;
    simpl; [now destruct g|].
  remember (snd (add_lexer_action s g)) as g1 eqn:E1.
  transitivity
    (set_actions
       (actions_
          (fold_left (fun g' identifier => snd (add_lexer_action identifier g'))
             rest g1)) g1); [apply IH|].
  rewrite E1 at 2. rewrite (add_lexer_action_members s g). reflexivity.
Qed.

Lemma new_RegexParser_kept regex_parser g :
  event_sink_ (new_RegexParser regex_parser g) = event_sink_ g
  /\ states_ (new_RegexParser regex_parser g) = states_ g
  /\ whitespace_states_ (new_RegexParser regex_parser g) = whitespace_states_ g
  /\ start_state_ (new_RegexParser regex_parser g) = start_state_ g
  /\ whitespace_start_state_ (new_RegexParser regex_parser g)
     = whitespace_start_state_ g
  /\ delivered_ (new_RegexParser regex_parser g) = delivered_ g.
Proof. rewrite new_RegexParser_members. repeat split. Qed.

Lemma add_lexer_action_silence identifier g :
  snd (add_lexer_action identifier (silence g))
  = silence (snd (add_lexer_action identifier g)).
Proof.
  unfold add_lexer_action. simpl. destruct (negb (empty identifier));
    [|reflexivity].
  now destruct (find_action identifier (actions_ g)).
Qed.

Lemma new_RegexParser_silence regex_parser g :
  new_RegexParser regex_parser (silence g)
  = silence (new_RegexParser regex_parser g).
Proof.
  unfold new_RegexParser, add_lexer_actions.
  revert g. induction (parser_actions regex_parser) as [|s rest IH]; intros g;
    simpl; [reflexivity|].
  now rewrite add_lexer_action_silence, IH.
Qed.

Lemma add_lexer_action_found identifier g a :
  empty identifier = false ->
  find_action identifier (actions_ g) = Some a ->
  add_lexer_action identifier g = (Some a, g).
Proof. intros He Hf. unfold add_lexer_action. now rewrite He, Hf. Qed.

(** C7.  Starting from a generator without actions, the first call of
    [add_lexer_action] with a non-empty identifier [s] appends a new action
    whose index is the number of actions created before; every later call
    with [s], whatever calls come in between, returns that action, stored at
    its index in [actions_], and creates nothing; a call with the empty
    identifier returns null and leaves the generator as it is.  The
    assertion of the function holds for [s] and not for the empty
    identifier, which the body handles all the same. *)
Theorem add_lexer_action_interns (event_sink : bool) (before later : list string)
  (s : string) :
  empty s = false -> ~ In s before ->
  let g := add_lexer_actions before (initial_generator event_sink) in
  exists a,
    add_lexer_action s g = (Some a, set_actions (actions_ g ++ [a]) g)
    /\ action_index a = Z.of_nat (List.length (actions_ g))
    /\ action_identifier a = s
    /\ (let g' := add_lexer_actions later (snd (add_lexer_action s g)) in
        add_lexer_action s g' = (Some a, g')
        /\ nth_error (actions_ g') (Z.to_nat (action_index a)) = Some a)
    /\ (forall g0, add_lexer_action EmptyString g0 = (None, g0))
    /\ add_lexer_action_pre s = true
    /\ add_lexer_action_pre EmptyString = false.
Proof.
  intros He Hnew g.
  destruct (add_lexer_actions_appends before (initial_generator event_sink))
    as (acts & Hacts & Hids).
  simpl in Hacts. fold g in Hacts.
  assert (Hnone : find_action s (actions_ g) = None).
  { apply find_action_none. intros a Hin E. rewrite Hacts in Hin.
    apply Hnew. rewrite <- E. now apply Hids. }
  set (a := {| action_index := Z.of_nat (List.length (actions_ g));
               action_identifier := s |}).
  assert (Hadd : add_lexer_action s g
                 = (Some a, set_actions (actions_ g ++ [a]) g)).
  { unfold add_lexer_action. now rewrite He, Hnone. }
  exists a. split; [exact Hadd|]. split; [reflexivity|]. split; [reflexivity|].
  split; [|split; [reflexivity|]; split;
            [unfold add_lexer_action_pre; now rewrite He | reflexivity]].
  rewrite Hadd. simpl snd.
  destruct (add_lexer_actions_appends later (set_actions (actions_ g ++ [a]) g))
    as (more & Hmore & _).
  simpl in Hmore. split.
  - apply add_lexer_action_found; [exact He|].
    rewrite Hmore. apply find_action_app. now apply find_action_last.
  - rewrite Hmore. simpl. rewrite Nat2Z.id.
    rewrite <- app_assoc. rewrite nth_error_app2 by lia.
    now rewrite Nat.sub_diag.
Qed.

Lemma add_lexer_action_interns_witness :
  empty "x" = false /\ ~ In "x"%string ["y"%string; EmptyString]
  /\ exists a,
       add_lexer_action "x"
         (add_lexer_actions ["y"%string; EmptyString] (initial_generator true))
       = (Some a,
          set_actions
            (actions_ (add_lexer_actions ["y"%string; EmptyString]
                         (initial_generator true)) ++ [a])
            (add_lexer_actions ["y"%string; EmptyString]
               (initial_generator true)))
       /\ action_index a = 1.
Proof.
  assert (H1 : empty "x" = false) by reflexivity.
  assert (H2 : ~ In "x"%string ["y"%string; EmptyString]).
  { simpl. intros [E|[E|[]]]; discriminate. }
  split; [exact H1|]. split; [exact H2|].
  destruct (add_lexer_action_interns true ["y"%string; EmptyString]
              ["z"%string; "x"%string] "x" H1 H2) as (a & Hadd & Hidx & _).
  exists a. split; [exact Hadd|]. exact Hidx.
Defined.

(** ** Assertions of [goto_], skipped generation, indices *)

Section GeneratorFacts.

Context `{Declarations}.

Lemma goto_pre_below_sentinel end_ :
  exists begin, goto_pre begin end_ = true.
Proof.
  set (low := Z.min end_ (Z.min INVALID_BEGIN_CHARACTER INVALID_END_CHARACTER)).
  exists (low - 1). unfold goto_pre.
  assert ((low - 1 =? INVALID_BEGIN_CHARACTER) = false) as -> by lia.
  assert ((low - 1 =? INVALID_END_CHARACTER) = false) as -> by lia.
  simpl. lia.
Qed.

(** The assertions of [goto_] compare [begin] with both sentinel values and
    [end] with neither: taken alone, and whatever the two values are, they
    pass for some [begin] with an [end] that is a sentinel value.  A [begin]
    that is a sentinel value fails them. *)
Lemma goto_pre_passes_end_sentinel :
  (exists begin, goto_pre begin INVALID_END_CHARACTER = true)
  /\ (exists begin, goto_pre begin INVALID_BEGIN_CHARACTER = true)
  /\ (forall end_, goto_pre INVALID_BEGIN_CHARACTER end_ = false)
  /\ (forall end_, goto_pre INVALID_END_CHARACTER end_ = false).
Proof.
  split; [apply goto_pre_below_sentinel|].
  split; [apply goto_pre_below_sentinel|].
  split; intros end_; unfold goto_pre.
  - now rewrite Z.eqb_refl.
  - rewrite Z.eqb_refl. now rewrite andb_false_r.
Qed.

Lemma set_indices_length states : forall index,
  List.length (fst (set_indices index states)) = List.length states
  /\ snd (set_indices index states) = index + Z.of_nat (List.length states).
Proof.
  induction states as [|s rest IH]; intros index; simpl.
  - split; [reflexivity | lia].
  - destruct (IH (index + 1)) as [IH1 IH2].
    destruct (set_indices (index + 1) rest) as [rest' index']. simpl in *.
    split; [now rewrite IH1 | lia].
Qed.

Lemma set_indices_indices states : forall index,
  map index_ (fst (set_indices index states))
  = indices_from index (List.length states).
Proof.
  unfold indices_from.
  induction states as [|s rest IH]; intros index; simpl; [reflexivity|].
  specialize (IH (index + 1)).
  destruct (set_indices (index + 1) rest) as [rest' index']. simpl in *.
  rewrite IH. f_equal; [lia|]. rewrite <- seq_shift, map_map.
  apply map_ext. intros i. lia.
Qed.

Lemma map_seq_from {A : Type} (f : nat -> A) len : forall start,
  map f (seq start len) = map (fun i => f (start + i)%nat) (seq 0 len).
Proof.
  induction len as [|len IH]; intros start; simpl; [reflexivity|].
  rewrite Nat.add_0_r. f_equal. rewrite IH, <- seq_shift, map_map.
  apply map_ext. intros i. now rewrite Nat.add_succ_r.
Qed.

Lemma indices_from_app first n m :
  indices_from first (n + m)
  = indices_from first n ++ indices_from (first + Z.of_nat n) m.
Proof.
  unfold indices_from. rewrite seq_app, map_app. f_equal. simpl.
  rewrite map_seq_from. apply map_ext. intros i. lia.
Qed.

Lemma generate_indices_for_states_indices g :
  let g' := generate_indices_for_states g in
  List.length (states_ g') = List.length (states_ g)
  /\ List.length (whitespace_states_ g') = List.length (whitespace_states_ g)
  /\ map index_ (states_ g') = indices_from 0 (List.length (states_ g))
  /\ map index_ (whitespace_states_ g')
     = indices_from (Z.of_nat (List.length (states_ g)))
         (List.length (whitespace_states_ g)).
Proof.
  unfold generate_indices_for_states.
  pose proof (set_indices_length (states_ g) 0) as [L1 N1].
  pose proof (set_indices_indices (states_ g) 0) as I1.
  destruct (set_indices 0 (states_ g)) as [states index]. simpl in *.
  pose proof (set_indices_length (whitespace_states_ g) index) as [L2 _].
  pose proof (set_indices_indices (whitespace_states_ g) index) as I2.
  destruct (set_indices index (whitespace_states_ g)) as [ws index']. simpl in *.
  subst index. repeat split; assumption.
Qed.

Lemma generate_states_indexed fuel regex_parser t g g' :
  generate_states fuel regex_parser t g = Some g' ->
  exists g0, g' = generate_indices_for_states g0.
Proof.
  unfold generate_states.
  destruct (negb (parser_empty regex_parser) && (parser_errors regex_parser =? 0)).
  - destruct (generate_symbol_for_state _ _ g) as [[state' g1]|]; [|discriminate].
    destruct (while_added _ _ _ _) as [g0|]; [|discriminate].
    simpl. intros E. inversion E. now exists g0.
  - simpl. intros E. inversion E. now exists g.
Qed.

Lemma constructor_indices fuel tokens whitespace_tokens event_sink g :
  new_LexerGenerator fuel tokens whitespace_tokens event_sink = Some g ->
  let n := List.length (states_ g) in
  let m := List.length (whitespace_states_ g) in
  map index_ (states_ g) = indices_from 0 n
  /\ map index_ (whitespace_states_ g) = indices_from (Z.of_nat n) m
  /\ map index_ (states_ g ++ whitespace_states_ g) = indices_from 0 (n + m).
Proof.
  unfold new_LexerGenerator.
  destruct (generate_states fuel tokens TokenStates _) as [g1|]; [|discriminate].
  intros Hg. apply generate_states_indexed in Hg as (g0 & ->).
  destruct (generate_indices_for_states_indices g0) as (L1 & L2 & I1 & I2).
  rewrite L1, L2.
  split; [exact I1|]. split; [exact I2|].
  rewrite map_app, I1, I2. now rewrite indices_from_app.
Qed.

(** C3.  When the parser reported an error or is empty, [generate_states]
    on an empty set and a null start state (its assertions) returns with the
    set still empty and the start state still null, and delivers nothing to
    the sink. *)
Theorem generate_states_skipped fuel regex_parser t g :
  generate_states_pre t g = true ->
  parser_errors regex_parser <> 0 \/ parser_empty regex_parser = true ->
  exists g',
    generate_states fuel regex_parser t g = Some g'
    /\ get_states t g' = []
    /\ get_start_state t g' = None
    /\ delivered_ g' = delivered_ g.
Proof.
  intros Hpre Hskip. unfold generate_states.
  assert (negb (parser_empty regex_parser) && (parser_errors regex_parser =? 0)
          = false) as ->.
  { destruct Hskip as [He|He].
    - apply Z.eqb_neq in He. rewrite He. apply andb_false_r.
    - now rewrite He. }
  simpl. eexists. split; [reflexivity|].
  unfold generate_states_pre in Hpre. unfold generate_indices_for_states.
  pose proof (set_indices_length (states_ g) 0) as [L1 _].
  destruct (set_indices 0 (states_ g)) as [states index].
  pose proof (set_indices_length (whitespace_states_ g) index) as [L2 _].
  destruct (set_indices index (whitespace_states_ g)) as [ws index'].
  simpl in L1, L2.
  destruct t; simpl in *.
  - destruct (states_ g); [|discriminate].
    destruct (start_state_ g); [discriminate|].
    destruct states; [|discriminate]. repeat split.
  - destruct (whitespace_states_ g); [|discriminate].
    destruct (whitespace_start_state_ g); [discriminate|].
    destruct ws; [|discriminate]. repeat split.
Qed.

End GeneratorFacts.

Lemma generate_states_skipped_witness :
  @generate_states_pre TokenStates (initial_generator true) = true
  /\ (parser_errors failed_parser <> 0 \/ parser_empty failed_parser = true)
  /\ exists g',
       @generate_states example_declarations 0 failed_parser TokenStates
         (initial_generator true) = Some g'
       /\ get_states TokenStates g' = []
       /\ get_start_state TokenStates g' = None
       /\ delivered_ g' = delivered_ (initial_generator true).
Proof.
  assert (H2 : parser_errors failed_parser <> 0 \/ parser_empty failed_parser = true).
  { left. simpl. lia. }
  split; [reflexivity|]. split; [exact H2|].
  exact (@generate_states_skipped example_declarations 0 failed_parser
           TokenStates (initial_generator true) eq_refl H2).
Defined.


(** ** A null sink *)

(** Induction along the walk of the loop over [ranges_], which advances by
    one marker or by two. *)
Lemma ranges_walk_ind (P : Ranges -> Prop) :
  P [] -> (forall m, P [m]) ->
  (forall m1 m2 rest, P (m2 :: rest) -> P rest -> P (m1 :: m2 :: rest)) ->
  forall ranges, P ranges.
Proof.
  intros Hnil Hone Hstep ranges.
  enough (P ranges /\ forall m, P (m :: ranges)) by tauto.
  induction ranges as [|a rest [IH1 IH2]].
  - split; [exact Hnil | exact Hone].
  - split; [apply IH2|]. intros m. apply Hstep; [apply IH2 | exact IH1].
Qed.

Lemma fold_option_commute {A B : Type} (f : B -> A -> option A)
  (phi : A -> A) :
  (forall b a, f b (phi a) = option_map phi (f b a)) ->
  forall l a, fold_option f l (phi a) = option_map phi (fold_option f l a).
Proof.
  intros Hf l. induction l as [|b l IH]; intros a; simpl; [reflexivity|].
  rewrite Hf. destruct (f b a) as [a'|]; simpl; [apply IH | reflexivity].
Qed.

Lemma silence_fire_error g line error :
  silence (fire_error g line error) = silence g.
Proof. unfold fire_error. now destruct (event_sink_ g). Qed.

Lemma visit_token_silence t acc :
  visit_token t (silence_selection acc)
  = option_map silence_selection (visit_token t acc).
Proof.
  destruct acc as [sel g]. unfold visit_token, silence_selection. simpl.
  destruct (token_type t >? sel_type sel); [reflexivity|].
  destruct ((token_type t =? sel_type sel) && (token_line t <? sel_line sel));
    [reflexivity|].
  destruct ((token_type t =? sel_type sel) && (token_line t =? sel_line sel));
    [|reflexivity].
  destruct (sel_token sel); [|reflexivity]. simpl.
  now rewrite silence_fire_error.
Qed.

Lemma silence_set_states t states g :
  set_states t states (silence g) = silence (set_states t states g).
Proof. reflexivity. Qed.

Lemma get_states_silence t g : get_states t (silence g) = get_states t g.
Proof. now destruct t. Qed.

Section NullSink.

Context `{Declarations}.

Lemma select_token_silence node state g :
  select_token node state (silence g)
  = option_map silence_selection (select_token node state g).
Proof.
  rewrite !select_token_accepting_tokens.
  apply (fold_option_commute visit_token silence_selection visit_token_silence
           _ (initial_selection, g)).
Qed.

Lemma generate_symbol_for_state_silence node state g :
  generate_symbol_for_state node state (silence g)
  = option_map silence_state (generate_symbol_for_state node state g).
Proof.
  unfold generate_symbol_for_state. rewrite select_token_silence.
  now destruct (select_token node state g) as [[sel g']|].
Qed.

Lemma goto_step_silence node t state begin end_ acc :
  goto_step node t state begin end_ (silence_added acc)
  = option_map silence_added (goto_step node t state begin end_ acc).
Proof.
  destruct acc as [g added]. unfold goto_step, silence_added. simpl.
  destruct (items_ (goto_ node state begin end_)); [reflexivity|].
  rewrite get_states_silence.
  destruct (set_insert state_compare _ (get_states t g)) as [states inserted].
  destruct inserted.
  - rewrite silence_set_states, generate_symbol_for_state_silence.
    destruct (generate_symbol_for_state node _ (set_states t states g))
      as [[goto_state' g2]|]; simpl; [|reflexivity].
    rewrite ?silence_set_states, ?get_states_silence. reflexivity.
  - simpl. rewrite ?silence_set_states, ?get_states_silence. reflexivity.
Qed.

Lemma goto_loop_silence node t state ranges : forall acc,
  goto_loop node t state ranges (silence_added acc)
  = option_map silence_added (goto_loop node t state ranges acc).
Proof.
  induction ranges as [|m|[b f] [e fe] rest IH1 IH2] using ranges_walk_ind;
    intros acc.
  - reflexivity.
  - now destruct m.
  - cbn [goto_loop]. rewrite goto_step_silence.
    destruct (goto_step node t state b e acc) as [acc'|]; simpl; [|reflexivity].
    destruct fe; [apply IH1 | apply IH2].
Qed.

Lemma process_state_silence node t state acc :
  process_state node t state (silence_added acc)
  = option_map silence_added (process_state node t state acc).
Proof.
  destruct acc as [g added]. unfold process_state. simpl.
  rewrite get_states_silence.
  apply (goto_loop_silence node t state _
           (set_ranges _ (set_states t _ g), added)).
Qed.

Lemma get_states_silence_added t acc :
  get_states t (fst (silence_added acc)) = get_states t (fst acc).
Proof. destruct acc. apply get_states_silence. Qed.

Lemma for_states_silence fuel node t : forall i acc,
  for_states fuel node t i (silence_added acc)
  = option_map silence_added (for_states fuel node t i acc).
Proof.
  induction fuel as [|fuel IH]; intros i acc; cbn [for_states]; [reflexivity|].
  destruct i as [k|]; [|reflexivity].
  rewrite get_states_silence_added.
  destruct (find_state k (get_states t (fst acc))) as [state|]; [|reflexivity].
  destruct (processed_ state).
  - rewrite get_states_silence_added. apply IH.
  - rewrite process_state_silence.
    destruct (process_state node t state acc) as [acc'|]; cbn [option_map];
      [|reflexivity].
    rewrite get_states_silence_added. apply IH.
Qed.

Lemma while_added_silence fuel node t : forall g,
  while_added fuel node t (silence g)
  = option_map silence (while_added fuel node t g).
Proof.
  induction fuel as [|fuel IH]; intros g; cbn [while_added]; [reflexivity|].
  rewrite get_states_silence.
  change (silence g, 0) with (silence_added (g, 0)).
  rewrite for_states_silence.
  destruct (for_states fuel node t _ (g, 0)) as [[g' added]|];
    cbn [option_map silence_added fst snd]; [|reflexivity].
  destruct (added >? 0); [apply IH | reflexivity].
Qed.

Lemma generate_indices_for_states_silence g :
  generate_indices_for_states (silence g)
  = silence (generate_indices_for_states g).
Proof.
  unfold generate_indices_for_states. simpl.
  destruct (set_indices 0 (states_ g)) as [states index].
  now destruct (set_indices index (whitespace_states_ g)).
Qed.

Lemma generate_states_silence fuel regex_parser t g :
  generate_states fuel regex_parser t (silence g)
  = option_map silence (generate_states fuel regex_parser t g).
Proof.
  unfold generate_states.
  destruct (negb (parser_empty regex_parser) && (parser_errors regex_parser =? 0)).
  - rewrite generate_symbol_for_state_silence.
    destruct (generate_symbol_for_state _ _ g) as [[state' g1]|]; simpl;
      [|reflexivity].
    rewrite get_states_silence.
    change (set_start_state t (Some (items_ state'))
              (set_states t ?l (silence g1)))
      with (silence (set_start_state t (Some (items_ state'))
                       (set_states t l g1))).
    rewrite while_added_silence.
    destruct (while_added _ _ _ _); simpl; [|reflexivity].
    now rewrite generate_indices_for_states_silence.
  - simpl. now rewrite generate_indices_for_states_silence.
Qed.

Lemma new_LexerGenerator_silence fuel tokens whitespace_tokens event_sink :
  new_LexerGenerator fuel tokens whitespace_tokens false
  = option_map silence
      (new_LexerGenerator fuel tokens whitespace_tokens event_sink).
Proof.
  unfold new_LexerGenerator.
  change (initial_generator false) with (silence (initial_generator event_sink)).
  rewrite new_RegexParser_silence, generate_states_silence.
  destruct (generate_states fuel tokens TokenStates _); simpl; [|reflexivity].
  rewrite new_RegexParser_silence. apply generate_states_silence.
Qed.

End NullSink.


(** ** Fuel *)

Section Fuel.

Context `{Declarations}.

Lemma for_states_more_fuel fuel : forall fuel' node t i acc r,
  (fuel <= fuel')%nat ->
  for_states fuel node t i acc = Some r ->
  for_states fuel' node t i acc = Some r.
Proof.
  induction fuel as [|fuel IH]; intros fuel' node t i acc r Hle Hrun;
    [discriminate|].
  destruct fuel' as [|fuel']; [lia|]. cbn [for_states] in *.
  destruct i as [k|]; [|exact Hrun].
  destruct (find_state k (get_states t (fst acc))) as [state|]; [|discriminate].
  destruct (if processed_ state then Some acc
            else process_state node t state acc) as [acc'|]; [|discriminate].
  apply (IH fuel'); [lia | exact Hrun].
Qed.

Lemma while_added_more_fuel fuel : forall fuel' node t g r,
  (fuel <= fuel')%nat ->
  while_added fuel node t g = Some r ->
  while_added fuel' node t g = Some r.
Proof.
  induction fuel as [|fuel IH]; intros fuel' node t g r Hle Hrun;
    [discriminate|].
  destruct fuel' as [|fuel']; [lia|]. cbn [while_added] in *.
  destruct (for_states fuel node t _ (g, 0)) as [[g' added]|] eqn:Hfor;
    [|discriminate].
  rewrite (for_states_more_fuel fuel fuel' _ _ _ _ _ ltac:(lia) Hfor).
  destruct (added >? 0); [|exact Hrun].
  apply (IH fuel'); [lia | exact Hrun].
Qed.

Lemma generate_states_more_fuel fuel fuel' regex_parser t g r :
  (fuel <= fuel')%nat ->
  generate_states fuel regex_parser t g = Some r ->
  generate_states fuel' regex_parser t g = Some r.
Proof.
  intros Hle. unfold generate_states.
  destruct (negb (parser_empty regex_parser) && (parser_errors regex_parser =? 0));
    [|tauto].
  destruct (generate_symbol_for_state _ _ g) as [[state' g1]|]; [|tauto].
  destruct (while_added fuel _ _ _) as [g'|] eqn:Hrun; [|discriminate].
  now rewrite (while_added_more_fuel fuel fuel' _ _ _ _ Hle Hrun).
Qed.

Lemma new_LexerGenerator_more_fuel fuel fuel' tokens whitespace_tokens sink r :
  (fuel <= fuel')%nat ->
  new_LexerGenerator fuel tokens whitespace_tokens sink = Some r ->
  new_LexerGenerator fuel' tokens whitespace_tokens sink = Some r.
Proof.
  intros Hle. unfold new_LexerGenerator.
  destruct (generate_states fuel tokens TokenStates _) as [g1|] eqn:H1;
    [|discriminate].
  rewrite (generate_states_more_fuel fuel fuel' _ _ _ _ Hle H1).
  now apply generate_states_more_fuel.
Qed.

End Fuel.

(** ** Ordered sets *)

#[local] Instance nat_StrictCompare : StrictCompare Nat.compare.
Proof.
  split.
  - intros x y. apply Nat.compare_eq_iff.
  - intros x y. apply Nat.compare_antisym.
  - intros x y z. rewrite !Nat.compare_lt_iff. lia.
Qed.

#[local] Instance lexicographical_StrictCompare {A : Type}
  (cmp : A -> A -> comparison) `{!StrictCompare cmp} :
  StrictCompare (lexicographical_compare cmp).
Proof.
  split.
  - intros x. induction x as [|a x IH]; intros [|b y]; simpl;
      try (split; discriminate); [tauto|].
    destruct (cmp a b) eqn:E.
    + apply compare_eq_iff in E. subst b. rewrite IH.
      split; [now intros -> | now inversion 1].
    + split; [discriminate|]. inversion 1; subst.
      rewrite (proj2 (compare_eq_iff b b) eq_refl) in E. discriminate.
    + split; [discriminate|]. inversion 1; subst.
      rewrite (proj2 (compare_eq_iff b b) eq_refl) in E. discriminate.
  - intros x. induction x as [|a x IH]; intros [|b y]; simpl; try reflexivity.
    rewrite (compare_antisym a b). destruct (cmp a b); simpl; auto.
  - intros x. induction x as [|a x IH]; intros [|b y] [|c z]; simpl;
      try discriminate; try reflexivity.
    destruct (cmp a b) eqn:E1.
    + apply compare_eq_iff in E1. subst b. destruct (cmp a c); auto.
      apply IH.
    + destruct (cmp b c) eqn:E2.
      * apply compare_eq_iff in E2. subst c. now rewrite E1.
      * now rewrite (compare_trans a b c E1 E2).
      * discriminate.
    + discriminate.
Qed.

#[local] Instance item_StrictCompare : StrictCompare item_compare.
Proof. unfold item_compare. typeclasses eauto. Qed.

#[local] Instance items_StrictCompare : StrictCompare items_compare.
Proof. unfold items_compare. typeclasses eauto. Qed.

Section SetInsert.

Context {A : Type} (cmp : A -> A -> comparison) `{!StrictCompare cmp}.

Lemma compare_refl x : cmp x x = Eq.
Proof. now apply compare_eq_iff. Qed.

Lemma compare_gt_lt x y : cmp x y = Gt -> cmp y x = Lt.
Proof. intros E. rewrite (compare_antisym x y), E. reflexivity. Qed.

Lemma set_insert_in x l y :
  In y (fst (set_insert cmp x l)) <-> y = x \/ In y l.
Proof.
  induction l as [|z l IH]; simpl; [intuition|].
  destruct (cmp x z) eqn:E.
  - apply compare_eq_iff in E. subst z. simpl. intuition.
  - simpl. intuition.
  - destruct (set_insert cmp x l) as [l' b]. simpl in *. rewrite IH. intuition.
Qed.

Lemma set_insert_sorted x l :
  sorted_set cmp l -> sorted_set cmp (fst (set_insert cmp x l)).
Proof.
  unfold sorted_set. induction l as [|z l IH]; intros Hs; simpl.
  - repeat constructor.
  - inversion Hs as [|? ? Hl Hz]; subst. destruct (cmp x z) eqn:E.
    + exact Hs.
    + constructor; [exact Hs|]. constructor; [exact E|].
      rewrite Forall_forall in *. intros y Hy.
      apply (compare_trans x z y E). now apply Hz.
    + pose proof (set_insert_in x l) as Hin. specialize (IH Hl).
      destruct (set_insert cmp x l) as [l' b]. simpl in *.
      constructor; [exact IH|]. rewrite Forall_forall in *.
      intros y Hy. apply Hin in Hy as [->|Hy]; [now apply compare_gt_lt|].
      now apply Hz.
Qed.

Lemma set_insert_inserted x l :
  sorted_set cmp l -> snd (set_insert cmp x l) = true -> ~ In x l.
Proof.
  unfold sorted_set. induction l as [|z l IH]; intros Hs Hi; simpl in *;
    [tauto|].
  inversion Hs as [|? ? Hl Hz]; subst. rewrite Forall_forall in Hz.
  destruct (cmp x z) eqn:E.
  - discriminate.
  - intros [->|Hin]; [rewrite compare_refl in E; discriminate|].
    specialize (Hz x Hin).
    rewrite (compare_antisym z x), Hz in E. discriminate.
  - destruct (set_insert cmp x l) as [l' b]. simpl in *.
    intros [->|Hin]; [rewrite compare_refl in E; discriminate|].
    now apply (IH Hl Hi).
Qed.

Lemma set_insert_present x l :
  snd (set_insert cmp x l) = false -> In x l.
Proof.
  induction l as [|z l IH]; simpl; [discriminate|].
  destruct (cmp x z) eqn:E.
  - apply compare_eq_iff in E. now left.
  - discriminate.
  - destruct (set_insert cmp x l) as [l' b]. simpl in *. auto.
Qed.

Lemma set_insert_length x l :
  List.length (fst (set_insert cmp x l))
  = if snd (set_insert cmp x l) then S (List.length l) else List.length l.
Proof.
  induction l as [|z l IH]; simpl; [reflexivity|].
  destruct (cmp x z); simpl; try reflexivity.
  destruct (set_insert cmp x l) as [l' b]. simpl in *. rewrite IH.
  now destruct b.
Qed.

End SetInsert.

Lemma set_insert_states s states :
  map items_ (fst (set_insert state_compare s states))
  = fst (set_insert items_compare (items_ s) (map items_ states))
  /\ snd (set_insert state_compare s states)
     = snd (set_insert items_compare (items_ s) (map items_ states)).
Proof.
  induction states as [|z l [IH1 IH2]]; simpl; [tauto|].
  unfold state_compare at 1 3.
  destruct (items_compare (items_ s) (items_ z)); simpl; try tauto.
  destruct (set_insert state_compare s l), (set_insert items_compare _ _).
  simpl in *. now subst.
Qed.

Lemma same_items_iff k s : same_items k s = true <-> items_ s = k.
Proof.
  unfold same_items. rewrite <- (compare_eq_iff (cmp := items_compare)).
  destruct (items_compare (items_ s) k); intuition discriminate.
Qed.

Lemma update_state_items k f states :
  (forall s, items_ s = k -> items_ (f s) = items_ s) ->
  map items_ (update_state k f states) = map items_ states.
Proof.
  intros Hf. induction states as [|s l IH]; simpl; [reflexivity|].
  destruct (same_items k s) eqn:E; simpl; [|now rewrite IH].
  apply same_items_iff in E. now rewrite Hf.
Qed.

(** A write through a pointer changes the state pointed to and no other. *)
Lemma update_state_found k f states s :
  find_state k states = Some s ->
  exists l1 l2,
    states = l1 ++ s :: l2
    /\ update_state k f states = l1 ++ f s :: l2
    /\ items_ s = k.
Proof.
  unfold find_state. induction states as [|z l IH]; simpl; [discriminate|].
  destruct (same_items k z) eqn:E.
  - inversion 1; subst. exists [], l. apply same_items_iff in E. auto.
  - intros Hf. destruct (IH Hf) as (l1 & l2 & -> & -> & Hk).
    now exists (z :: l1), l2.
Qed.

Lemma update_state_missing k f states :
  find_state k states = None -> update_state k f states = states.
Proof.
  unfold find_state. induction states as [|z l IH]; simpl; [reflexivity|].
  destruct (same_items k z); [discriminate|]. intros Hf. now rewrite IH.
Qed.

(** ** Invariants of the loops of [generate_states] *)

Section LoopInvariants.

Context `{Declarations}.

Variable Inv : LexerGenerator -> Prop.
Variable node : nat -> RegexNode.
Variable t : Target.

Lemma goto_loop_invariant state ranges :
  (forall begin end_ acc acc',
      Inv (fst acc) -> goto_step node t state begin end_ acc = Some acc' ->
      Inv (fst acc')) ->
  forall acc acc',
    Inv (fst acc) -> goto_loop node t state ranges acc = Some acc' ->
    Inv (fst acc').
Proof.
  intros Hstep.
  induction ranges as [|m|[b f] [e fe] rest IH1 IH2] using ranges_walk_ind;
    intros acc acc' Hinv Hrun.
  - inversion Hrun. now subst.
  - destruct m. discriminate.
  - cbn [goto_loop] in Hrun.
    destruct (goto_step node t state b e acc) as [acc1|] eqn:E; [|discriminate].
    apply Hstep in E; [|exact Hinv].
    destruct fe; [now apply (IH1 acc1) | now apply (IH2 acc1)].
Qed.

Hypothesis process_state_invariant : forall state acc acc',
  Inv (fst acc) ->
  find_state (items_ state) (get_states t (fst acc)) = Some state ->
  processed_ state = false ->
  process_state node t state acc = Some acc' ->
  Inv (fst acc').

Lemma for_states_invariant fuel : forall i acc acc',
  Inv (fst acc) -> for_states fuel node t i acc = Some acc' -> Inv (fst acc').
Proof.
  induction fuel as [|fuel IH]; intros i acc acc' Hinv Hrun; [discriminate|].
  cbn [for_states] in Hrun. destruct i as [k|]; [|inversion Hrun; now subst].
  destruct (find_state k (get_states t (fst acc))) as [state|] eqn:Hfind;
    [|discriminate].
  destruct (processed_ state) eqn:Hp.
  - eapply IH; eassumption.
  - destruct (process_state node t state acc) as [acc1|] eqn:E; [|discriminate].
    eapply IH; [|exact Hrun].
    apply (process_state_invariant state acc); try assumption.
    destruct (update_state_found k (fun s => s) _ _ Hfind) as (_ & _ & _ & _ & <-).
    exact Hfind.
Qed.

Lemma while_added_invariant fuel : forall g g',
  Inv g -> while_added fuel node t g = Some g' -> Inv g'.
Proof.
  induction fuel as [|fuel IH]; intros g g' Hinv Hrun; [discriminate|].
  cbn [while_added] in Hrun.
  destruct (for_states fuel node t _ (g, 0)) as [[g1 added]|] eqn:E;
    [|discriminate].
  apply for_states_invariant in E; [|exact Hinv]. simpl in E.
  destruct (added >? 0); [eapply IH; eassumption | inversion Hrun; now subst].
Qed.

End LoopInvariants.

(** ** The order of the writes on a state *)

Lemma no_processed_lifecycle writes :
  ~ In FProcessed writes -> items_before_processed writes.
Proof.
  intros Hno before after ->. exfalso. apply Hno.
  apply in_or_app. right. now left.
Qed.

Lemma lifecycle_append writes f :
  f = FSymbol \/ f = FIndex \/ f = FTransitions ->
  items_before_processed writes -> items_before_processed (writes ++ [f]).
Proof.
  intros Hf Hw before after E f' Hin.
  destruct (exists_last (l := FProcessed :: after)) as (l & x & El);
    [discriminate|].
  rewrite El in E. rewrite app_assoc in E.
  apply app_inj_tail in E as [E <-].
  destruct after as [|a after'].
  - contradiction.
  - destruct l as [|p l]; [destruct after'; discriminate|].
    simpl in El. inversion El as [[Ep Ea]]. subst p.
    assert (Hin' : In f' (l ++ [f])) by (rewrite <- Ea; exact Hin).
    apply in_app_or in Hin' as [Hin'|[<-|[]]]; [|exact Hf].
    apply (Hw before l); [exact E | exact Hin'].
Qed.

Lemma lifecycle_append_processed writes :
  ~ In FProcessed writes -> items_before_processed (writes ++ [FProcessed]).
Proof.
  intros Hno before after E f Hin.
  destruct (exists_last (l := FProcessed :: after)) as (l & x & El);
    [discriminate|].
  rewrite El in E. rewrite app_assoc in E.
  apply app_inj_tail in E as [E <-].
  destruct l as [|p l].
  - simpl in El. inversion El. subst. contradiction.
  - simpl in El. inversion El. subst p. exfalso. apply Hno. rewrite E.
    apply in_or_app. right. now left.
Qed.

Lemma in_processed_app writes f :
  f <> FProcessed -> In FProcessed (writes ++ [f]) -> In FProcessed writes.
Proof.
  intros Hf Hin. apply in_app_or in Hin as [Hin|[E|[]]]; [exact Hin|].
  contradiction.
Qed.

Lemma unprocessed_well_written s : unprocessed s -> well_written s.
Proof.
  intros [Hp Hno]. split; [now apply no_processed_lifecycle | now intros _].
Qed.

Lemma unprocessed_add_item next s : unprocessed s -> unprocessed (add_item next s).
Proof.
  intros [Hp Hno]. split; [exact Hp|]. simpl. intros Hin.
  apply in_processed_app in Hin; [tauto | discriminate].
Qed.

Lemma unprocessed_set_symbol symbol s :
  unprocessed s -> unprocessed (set_symbol symbol s).
Proof.
  intros [Hp Hno]. split; [exact Hp|]. simpl. intros Hin.
  apply in_processed_app in Hin; [tauto | discriminate].
Qed.

Lemma well_written_add_transition begin end_ target s :
  well_written s -> well_written (add_transition begin end_ target s).
Proof.
  intros [Hl Hp]. split; simpl.
  - apply lifecycle_append; [tauto | exact Hl].
  - intros E Hin. apply in_processed_app in Hin; [now apply Hp | discriminate].
Qed.

Lemma well_written_set_index index s :
  well_written s -> well_written (set_index index s).
Proof.
  intros [Hl Hp]. split; simpl.
  - apply lifecycle_append; [tauto | exact Hl].
  - intros E Hin. apply in_processed_app in Hin; [now apply Hp | discriminate].
Qed.

Lemma well_written_set_processed s :
  well_written s -> processed_ s = false -> well_written (set_processed true s).
Proof.
  intros [Hl Hp] E. split; simpl; [|discriminate].
  apply lifecycle_append_processed. now apply Hp.
Qed.

Lemma unprocessed_goto_ node state begin end_ :
  unprocessed (goto_ node state begin end_).
Proof.
  unfold goto_.
  assert (Hnew : unprocessed new_LexerState) by (split; [reflexivity | simpl; tauto]).
  revert Hnew. generalize new_LexerState.
  induction (items_ state) as [|item l IH]; intros s Hs; simpl; [exact Hs|].
  apply IH. destruct (next_nodes node item begin end_); [exact Hs|].
  now apply unprocessed_add_item.
Qed.

Lemma set_insert_incl {A : Type} (cmp : A -> A -> comparison) x l y :
  In y (fst (set_insert cmp x l)) -> y = x \/ In y l.
Proof.
  induction l as [|z l IH]; simpl; [intuition|].
  destruct (cmp x z); simpl; [intuition | intuition |].
  destruct (set_insert cmp x l) as [l' b]. simpl in *. intuition.
Qed.

Lemma set_insert_Forall {A : Type} (cmp : A -> A -> comparison) (P : A -> Prop)
  x l :
  P x -> Forall P l -> Forall P (fst (set_insert cmp x l)).
Proof.
  intros Hx Hl. rewrite Forall_forall in *. intros y Hy.
  apply set_insert_incl in Hy as [->|Hy]; auto.
Qed.

Lemma update_state_Forall (P : LexerState -> Prop) k f states :
  Forall P states ->
  (forall s, In s states -> items_ s = k -> P (f s)) ->
  Forall P (update_state k f states).
Proof.
  induction states as [|z l IH]; intros Hall Hf; simpl; [constructor|].
  inversion Hall; subst. destruct (same_items k z) eqn:E.
  - constructor; [|assumption]. apply Hf; [now left|].
    now apply same_items_iff.
  - constructor; [assumption|]. apply IH; [assumption|].
    intros s Hin. apply Hf. now right.
Qed.

(** [generate_symbol_for_state] writes the symbol of the state and changes
    nothing of the generator but what the sink has received. *)
Lemma visit_token_members t sel g sel' g' :
  visit_token t (sel, g) = Some (sel', g') ->
  g' = set_delivered (delivered_ g') g.
Proof.
  unfold visit_token.
  destruct (token_type t >? sel_type sel);
    [inversion 1; subst; symmetry; apply set_delivered_same|].
  destruct ((token_type t =? sel_type sel) && (token_line t <? sel_line sel));
    [inversion 1; subst; symmetry; apply set_delivered_same|].
  destruct ((token_type t =? sel_type sel) && (token_line t =? sel_line sel));
    [|inversion 1; subst; symmetry; apply set_delivered_same].
  destruct (sel_token sel); [|discriminate]. inversion 1; subst.
  unfold fire_error. destruct (event_sink_ g); [reflexivity|].
  symmetry. apply set_delivered_same.
Qed.

Lemma fold_visit_members toks : forall sel g sel' g',
  fold_option visit_token toks (sel, g) = Some (sel', g') ->
  g' = set_delivered (delivered_ g') g.
Proof.
  induction toks as [|t toks IH]; intros sel g sel' g' Hf;
    cbn [fold_option] in Hf.
  - inversion Hf; subst. symmetry. apply set_delivered_same.
  - destruct (visit_token t (sel, g)) as [[sel1 g1]|] eqn:E; [|discriminate].
    apply visit_token_members in E. apply IH in Hf. rewrite Hf, E. reflexivity.
Qed.

Section Lifecycle.

Context `{Declarations}.

Lemma generate_symbol_for_state_result node state g state' g' :
  generate_symbol_for_state node state g = Some (state', g') ->
  g' = set_delivered (delivered_ g') g
  /\ exists symbol, state' = set_symbol symbol state.
Proof.
  unfold generate_symbol_for_state.
  destruct (select_token node state g) as [[sel g1]|] eqn:E; [|discriminate].
  inversion 1; subst. rewrite select_token_accepting_tokens in E.
  apply fold_visit_members in E. split; [exact E | eauto].
Qed.

Lemma all_well_written_set_states t states g :
  all_well_written g -> Forall well_written states ->
  all_well_written (set_states t states g).
Proof. intros [H1 H2] Hs. destruct t; split; assumption. Qed.

Lemma all_well_written_get_states t g :
  all_well_written g -> Forall well_written (get_states t g).
Proof. intros [H1 H2]. now destruct t. Qed.

Lemma all_well_written_goto_step node t state begin end_ acc acc' :
  all_well_written (fst acc) ->
  goto_step node t state begin end_ acc = Some acc' ->
  all_well_written (fst acc').
Proof.
  destruct acc as [g added]. unfold goto_step. simpl. intros Hg.
  pose proof (unprocessed_goto_ node state begin end_) as Hfresh.
  destruct (items_ (goto_ node state begin end_)) eqn:Eitems;
    [inversion 1; now subst|].
  pose proof (set_insert_Forall state_compare well_written _ _
                (unprocessed_well_written _ Hfresh)
                (all_well_written_get_states t g Hg)) as Hins.
  destruct (set_insert state_compare _ (get_states t g)) as [states inserted].
  simpl in Hins.
  pose proof (all_well_written_set_states t states g Hg Hins) as Hg1.
  assert (Hlast : forall g3 (added' : Z),
             all_well_written g3 ->
             all_well_written
               (fst (set_states t
                       (update_state (items_ state)
                          (add_transition begin end_ (l :: l0))
                          (get_states t g3)) g3, added'))).
  { intros g3 added' Hg3. simpl.
    apply all_well_written_set_states; [exact Hg3|].
    apply update_state_Forall; [now apply all_well_written_get_states|].
    intros s Hin _. apply well_written_add_transition.
    pose proof (all_well_written_get_states t g3 Hg3) as Hall.
    rewrite Forall_forall in Hall. now apply Hall. }
  destruct inserted.
  - destruct (generate_symbol_for_state node _ (set_states t states g))
      as [[goto_state' g2]|] eqn:Esym; [|discriminate].
    apply generate_symbol_for_state_result in Esym as [Eg2 (symbol & ->)].
    inversion 1; subst. apply Hlast.
    assert (Hg2 : all_well_written g2) by (rewrite Eg2; exact Hg1).
    apply all_well_written_set_states; [exact Hg2|].
    apply update_state_Forall; [now apply all_well_written_get_states|].
    intros s _ _. apply unprocessed_well_written.
    now apply unprocessed_set_symbol.
  - inversion 1; subst. now apply Hlast.
Qed.

Lemma all_well_written_process_state node t state acc acc' :
  all_well_written (fst acc) ->
  find_state (items_ state) (get_states t (fst acc)) = Some state ->
  processed_ state = false ->
  process_state node t state acc = Some acc' ->
  all_well_written (fst acc').
Proof.
  destruct acc as [g added]. unfold process_state. simpl.
  intros Hg Hfind Hp Hrun.
  apply (goto_loop_invariant all_well_written node t state) in Hrun;
    [exact Hrun | apply all_well_written_goto_step|].
  simpl.
  change (all_well_written
            (set_states t (update_state (items_ state) (set_processed true)
                             (get_states t g)) g)).
  apply all_well_written_set_states; [exact Hg|].
  pose proof (all_well_written_get_states t g Hg) as Hall.
  destruct (update_state_found _ (set_processed true) _ _ Hfind)
    as (l1 & l2 & E1 & -> & _).
  rewrite E1 in Hall. apply Forall_app in Hall as [H1 H2].
  inversion H2; subst. apply Forall_app. split; [exact H1|].
  constructor; [|assumption]. now apply well_written_set_processed.
Qed.

Lemma set_indices_well_written states : forall index,
  Forall well_written states ->
  Forall well_written (fst (set_indices index states)).
Proof.
  induction states as [|s rest IH]; intros index Hall; simpl; [constructor|].
  inversion Hall; subst. specialize (IH (index + 1) H3).
  destruct (set_indices (index + 1) rest). simpl in *.
  constructor; [now apply well_written_set_index | exact IH].
Qed.

Lemma all_well_written_generate_states fuel regex_parser t g g' :
  all_well_written g ->
  generate_states fuel regex_parser t g = Some g' ->
  all_well_written g'.
Proof.
  intros Hg. unfold generate_states.
  assert (Hidx : forall g0, all_well_written g0 ->
                            all_well_written (generate_indices_for_states g0)).
  { intros g0 [H1 H2]. unfold generate_indices_for_states.
    pose proof (set_indices_well_written (states_ g0) 0 H1) as H1'.
    destruct (set_indices 0 (states_ g0)) as [states index].
    pose proof (set_indices_well_written (whitespace_states_ g0) index H2) as H2'.
    destruct (set_indices index (whitespace_states_ g0)). now split. }
  destruct (negb (parser_empty regex_parser) && (parser_errors regex_parser =? 0)).
  - destruct (generate_symbol_for_state _ _ g) as [[state' g1]|] eqn:Esym;
      [|discriminate].
    apply generate_symbol_for_state_result in Esym as [Eg1 (symbol & ->)].
    destruct (while_added fuel _ t _) as [g2|] eqn:Erun; [|discriminate].
    inversion 1; subst. apply Hidx.
    apply (while_added_invariant all_well_written _ t) in Erun; [exact Erun| |].
    + apply all_well_written_process_state.
    + assert (Hg1 : all_well_written g1) by (rewrite Eg1; exact Hg).
      change (all_well_written
                (set_states t (fst (set_insert state_compare
                                      (set_symbol symbol
                                         (add_item (first_positions regex_parser)
                                            new_LexerState))
                                      (get_states t g1))) g1)).
      apply all_well_written_set_states; [exact Hg1|].
      apply set_insert_Forall; [|now apply all_well_written_get_states].
      apply unprocessed_well_written, unprocessed_set_symbol,
        unprocessed_add_item.
      split; [reflexivity | simpl; tauto].
  - inversion 1; subst. now apply Hidx.
Qed.

Lemma constructor_well_written fuel tokens whitespace_tokens sink g :
  new_LexerGenerator fuel tokens whitespace_tokens sink = Some g ->
  forall s, In s (states_ g ++ whitespace_states_ g) ->
            items_before_processed (writes_ s).
Proof.
  unfold new_LexerGenerator.
  destruct (generate_states fuel tokens TokenStates _) as [g1|] eqn:E1;
    [|discriminate].
  intros E2 s Hin.
  assert (Hkept : forall regex_parser g0,
            all_well_written g0 ->
            all_well_written (new_RegexParser regex_parser g0)).
  { intros regex_parser g0 Hg0. unfold all_well_written.
    now destruct (new_RegexParser_kept regex_parser g0) as (_ & -> & -> & _). }
  apply all_well_written_generate_states in E1;
    [|apply Hkept; split; constructor].
  apply all_well_written_generate_states in E2; [|apply Hkept; exact E1].
  destruct E2 as [H1 H2]. rewrite Forall_forall in H1, H2.
  apply in_app_or in Hin as [Hin|Hin]; [now apply H1 | now apply H2].
Qed.

End Lifecycle.

(** C8 (as stated, refuted).  For the single token [x] the start state is
    marked processed and its transition on [x] is added afterwards. *)
Lemma transitions_written_after_processed :
  exists g s,
    @new_LexerGenerator example_declarations 10 x_parser space_parser true
    = Some g
    /\ In s (states_ g)
    /\ writes_ s
       = [FItems; FSymbol; FProcessed; FTransitions; FIndex; FIndex]
    /\ ~ only_symbol_and_index_after_processed (writes_ s).
Proof.
  destruct (@new_LexerGenerator example_declarations 10 x_parser space_parser
              true) as [g|] eqn:E; [|vm_compute in E; discriminate].
  vm_compute in E. inversion E as [Eg]. clear E.
  eexists. eexists. split; [reflexivity|]. split; [now left|].
  split; [reflexivity|]. simpl.
  intros Hclaim.
  destruct (Hclaim [FItems; FSymbol] [FTransitions; FIndex; FIndex] eq_refl
              FTransitions (or_introl eq_refl)); discriminate.
Qed.

(** ** The order of the states *)

Section Order.

Context `{Declarations}.

Lemma states_sorted_set_states t states g :
  states_sorted g -> sorted_states states ->
  states_sorted (set_states t states g).
Proof. intros [H1 H2] Hs. destruct t; split; assumption. Qed.

Lemma states_sorted_get_states t g :
  states_sorted g -> sorted_states (get_states t g).
Proof. intros [H1 H2]. now destruct t. Qed.

Lemma sorted_states_insert s states :
  sorted_states states ->
  sorted_states (fst (set_insert state_compare s states)).
Proof.
  unfold sorted_states. intros Hs.
  rewrite (proj1 (set_insert_states s states)).
  now apply set_insert_sorted; [typeclasses eauto|].
Qed.

Lemma sorted_states_update k f states :
  (forall s, items_ s = k -> items_ (f s) = items_ s) ->
  sorted_states states -> sorted_states (update_state k f states).
Proof. unfold sorted_states. intros Hf Hs. now rewrite update_state_items. Qed.

Lemma states_sorted_goto_step node t state begin end_ acc acc' :
  states_sorted (fst acc) ->
  goto_step node t state begin end_ acc = Some acc' ->
  states_sorted (fst acc').
Proof.
  destruct acc as [g added]. unfold goto_step. simpl. intros Hg.
  destruct (items_ (goto_ node state begin end_)) eqn:Eitems;
    [inversion 1; now subst|].
  pose proof (sorted_states_insert (goto_ node state begin end_) _
                (states_sorted_get_states t g Hg)) as Hins.
  destruct (set_insert state_compare _ (get_states t g)) as [states inserted].
  simpl in Hins.
  pose proof (states_sorted_set_states t states g Hg Hins) as Hg1.
  assert (Hlast : forall g3 (added' : Z),
             states_sorted g3 ->
             states_sorted
               (fst (set_states t
                       (update_state (items_ state)
                          (add_transition begin end_ (l :: l0))
                          (get_states t g3)) g3, added'))).
  { intros g3 added' Hg3. simpl.
    apply states_sorted_set_states; [exact Hg3|].
    apply sorted_states_update; [reflexivity|].
    now apply states_sorted_get_states. }
  destruct inserted.
  - destruct (generate_symbol_for_state node _ (set_states t states g))
      as [[goto_state' g2]|] eqn:Esym; [|discriminate].
    apply generate_symbol_for_state_result in Esym as [Eg2 (symbol & ->)].
    inversion 1; subst. apply Hlast.
    assert (Hg2 : states_sorted g2) by (rewrite Eg2; exact Hg1).
    apply states_sorted_set_states; [exact Hg2|].
    apply sorted_states_update; [|now apply states_sorted_get_states].
    intros s Hs. simpl. now rewrite Hs.
  - inversion 1; subst. now apply Hlast.
Qed.

Lemma states_sorted_process_state node t state acc acc' :
  states_sorted (fst acc) ->
  find_state (items_ state) (get_states t (fst acc)) = Some state ->
  processed_ state = false ->
  process_state node t state acc = Some acc' ->
  states_sorted (fst acc').
Proof.
  destruct acc as [g added]. unfold process_state. simpl.
  intros Hg _ _ Hrun.
  apply (goto_loop_invariant states_sorted node t state) in Hrun;
    [exact Hrun | apply states_sorted_goto_step|].
  simpl.
  change (states_sorted
            (set_states t (update_state (items_ state) (set_processed true)
                             (get_states t g)) g)).
  apply states_sorted_set_states; [exact Hg|].
  apply sorted_states_update; [reflexivity|].
  now apply states_sorted_get_states.
Qed.

Lemma set_indices_items states : forall index,
  map items_ (fst (set_indices index states)) = map items_ states.
Proof.
  induction states as [|s rest IH]; intros index; simpl; [reflexivity|].
  specialize (IH (index + 1)). destruct (set_indices (index + 1) rest).
  simpl in *. now rewrite IH.
Qed.

Lemma states_sorted_generate_indices g :
  states_sorted g -> states_sorted (generate_indices_for_states g).
Proof.
  intros [H1 H2]. unfold generate_indices_for_states.
  pose proof (set_indices_items (states_ g) 0) as E1.
  destruct (set_indices 0 (states_ g)) as [states index].
  pose proof (set_indices_items (whitespace_states_ g) index) as E2.
  destruct (set_indices index (whitespace_states_ g)) as [ws index'].
  simpl in *. split; unfold sorted_states; simpl.
  - now rewrite E1.
  - now rewrite E2.
Qed.

Lemma states_sorted_generate_states fuel regex_parser t g g' :
  states_sorted g ->
  generate_states fuel regex_parser t g = Some g' ->
  states_sorted g'.
Proof.
  intros Hg. unfold generate_states.
  destruct (negb (parser_empty regex_parser) && (parser_errors regex_parser =? 0)).
  - destruct (generate_symbol_for_state _ _ g) as [[state' g1]|] eqn:Esym;
      [|discriminate].
    apply generate_symbol_for_state_result in Esym as [Eg1 (symbol & ->)].
    destruct (while_added fuel _ t _) as [g2|] eqn:Erun; [|discriminate].
    inversion 1; subst. apply states_sorted_generate_indices.
    apply (while_added_invariant states_sorted _ t) in Erun; [exact Erun| |].
    + apply states_sorted_process_state.
    + assert (Hg1 : states_sorted g1) by (rewrite Eg1; exact Hg).
      change (states_sorted
                (set_states t (fst (set_insert state_compare
                                      (set_symbol symbol
                                         (add_item (first_positions regex_parser)
                                            new_LexerState))
                                      (get_states t g1))) g1)).
      apply states_sorted_set_states; [exact Hg1|].
      apply sorted_states_insert. now apply states_sorted_get_states.
  - inversion 1; subst. now apply states_sorted_generate_indices.
Qed.

End Order.


(** ** Termination *)

Lemma nil_in_sublists {A : Type} (l : list A) : In [] (sublists l).
Proof.
  induction l as [|a l IH]; simpl; [now left|].
  apply in_or_app. now right.
Qed.

Lemma sorted_in_sublists len : forall start l,
  sorted_set Nat.compare l ->
  (forall i, In i l -> (start <= i < start + len)%nat) ->
  In l (sublists (seq start len)).
Proof.
  induction len as [|len IH]; intros start l Hs Hb.
  - destruct l as [|a l]; [now left|].
    specialize (Hb a (or_introl eq_refl)). lia.
  - destruct l as [|a l]; [apply nil_in_sublists|].
    simpl. apply in_or_app. inversion Hs as [|? ? Hs' Ha]; subst.
    rewrite Forall_forall in Ha.
    destruct (Nat.eq_dec a start) as [->|Hne].
    + left. apply in_map. apply IH; [exact Hs'|].
      intros i Hi. specialize (Ha i Hi). apply Nat.compare_lt_iff in Ha.
      specialize (Hb i (or_intror Hi)). lia.
    + right. apply IH; [exact Hs|].
      pose proof (Hb a (or_introl eq_refl)) as Hba.
      intros i [<-|Hi]; [lia|].
      specialize (Ha i Hi). apply Nat.compare_lt_iff in Ha.
      pose proof (Hb i (or_intror Hi)). lia.
Qed.

Lemma item_below_all_items n item :
  item_below n item -> In [item] (all_items n).
Proof.
  intros [Hs Hb]. unfold all_items.
  apply (in_map (fun item => [item])). apply sorted_in_sublists; [exact Hs|].
  intros i Hi. specialize (Hb i Hi). lia.
Qed.

Lemma filter_length_lt {A : Type} (f g : A -> bool) l x :
  (forall y, f y = true -> g y = true) ->
  In x l -> g x = true -> f x = false ->
  (List.length (filter f l) < List.length (filter g l))%nat.
Proof.
  intros Hfg. induction l as [|a l IH]; intros Hin Hg Hf; [contradiction|].
  assert (Hle : forall l', (List.length (filter f l')
                            <= List.length (filter g l'))%nat).
  { induction l' as [|b l' IHl']; simpl; [lia|].
    destruct (f b) eqn:Efb.
    - rewrite (Hfg b Efb). simpl. lia.
    - destruct (g b); simpl; lia. }
  simpl. destruct Hin as [->|Hin].
  - rewrite Hg, Hf. simpl. specialize (Hle l). lia.
  - specialize (IH Hin Hg Hf). destruct (f a) eqn:Efa.
    + rewrite (Hfg a Efa). simpl. lia.
    + destruct (g a); simpl; lia.
Qed.

Lemma filter_length_le {A : Type} (f : A -> bool) l :
  (List.length (filter f l) <= List.length l)%nat.
Proof.
  induction l as [|a l IH]; simpl; [lia|]. destruct (f a); simpl; lia.
Qed.

Lemma above_decreases n k k' :
  items_compare k k' = Lt -> In k' (all_items n) ->
  (above n k' < above n k)%nat.
Proof.
  intros Hlt Hin. unfold above. apply (filter_length_lt _ _ _ k').
  - intros u Hu. destruct (items_compare k' u) eqn:E; try discriminate.
    now rewrite (compare_trans k k' u Hlt E).
  - exact Hin.
  - now rewrite Hlt.
  - now rewrite (proj2 (compare_eq_iff k' k') eq_refl).
Qed.

(** The follow positions gathered by [next_nodes] form an item. *)
Lemma next_nodes_below n node item begin end_ :
  (forall i, (i < n)%nat ->
     forall j, In j (follow_positions (node i)) -> (j < n)%nat) ->
  (forall i, In i item -> (i < n)%nat) ->
  item_below n (next_nodes node item begin end_).
Proof.
  intros Hfollow. unfold next_nodes.
  assert (Hnil : item_below n []) by (split; [constructor | contradiction]).
  revert Hnil. generalize (@nil nat) as acc.
  induction item as [|i item IH]; intros acc Hacc Hitem; simpl; [exact Hacc|].
  apply IH; [|intros j Hj; apply Hitem; now right].
  destruct (is_match (node i) begin end_); [|exact Hacc].
  assert (Hi : forall j, In j (follow_positions (node i)) -> (j < n)%nat).
  { apply Hfollow. apply Hitem. now left. }
  revert Hi Hacc. generalize acc as acc'.
  induction (follow_positions (node i)) as [|p ps IHp]; intros acc' Hps Hacc';
    simpl; [exact Hacc'|].
  apply IHp; [intros j Hj; apply Hps; now right|].
  destruct Hacc' as [Hs Hb]. split.
  - apply set_insert_sorted; [typeclasses eauto | exact Hs].
  - intros j Hj. apply (set_insert_in Nat.compare p acc' j) in Hj as [->|Hj].
    + apply Hps. now left.
    + now apply Hb.
Qed.

Lemma update_state_length k f states :
  List.length (update_state k f states) = List.length states.
Proof.
  induction states as [|s l IH]; simpl; [reflexivity|].
  destruct (same_items k s); simpl; [reflexivity | now rewrite IH].
Qed.

Lemma find_state_present k states s :
  In s states -> items_ s = k -> exists s', find_state k states = Some s'.
Proof.
  intros Hin Hk. unfold find_state.
  destruct (find (same_items k) states) as [s'|] eqn:E; [now exists s'|].
  exfalso. apply (find_none _ _ E) in Hin.
  apply same_items_iff in Hk. congruence.
Qed.

Lemma states_below_update n k f states :
  (forall s, items_ s = k -> items_ (f s) = items_ s) ->
  states_below n states -> states_below n (update_state k f states).
Proof.
  intros Hf [Hs Hall]. split; [now apply sorted_states_update|].
  apply update_state_Forall; [exact Hall|].
  intros s Hin Hk. rewrite Forall_forall in Hall.
  destruct (Hall s Hin) as (item & E & Hb). exists item.
  now rewrite (Hf s Hk).
Qed.

Lemma states_below_insert n s states item :
  items_ s = [item] -> item_below n item ->
  states_below n states ->
  states_below n (fst (set_insert state_compare s states)).
Proof.
  intros E Hb [Hs Hall]. split; [now apply sorted_states_insert|].
  apply set_insert_Forall; [now exists item | exact Hall].
Qed.

Section Termination.

Context `{Declarations}.

Variable n : nat.
Variable p : RegexParser.
Hypothesis Hwf : well_formed n p.
Variable t : Target.

Let node := node_at p.

Lemma goto_items state item begin end_ :
  items_ state = [item] -> item_below n item ->
  items_ (goto_ node state begin end_) = []
  \/ exists next, items_ (goto_ node state begin end_) = [next]
                  /\ item_below n next.
Proof.
  intros E Hb. unfold goto_. rewrite E. simpl.
  pose proof (next_nodes_below n node item begin end_
                (follow_positions_below n p Hwf) (proj2 Hb)) as Hnext.
  destruct (next_nodes node item begin end_) as [|i next] eqn:En;
    [now left|].
  right. exists (i :: next). split; [reflexivity | exact Hnext].
Qed.

Lemma accepting_tokens_selectable state item :
  items_ state = [item] -> item_below n item ->
  Forall selectable (accepting_tokens node state).
Proof.
  intros E [_ Hb]. unfold accepting_tokens. rewrite E. simpl.
  rewrite app_nil_r. unfold get_next_nodes. clear E.
  induction item as [|i item IH]; simpl; [constructor|].
  apply Forall_app. split.
  - unfold token_of. destruct (is_end (node i)) eqn:Ee; [|constructor].
    destruct (get_token (node i)) as [tok|] eqn:Et; constructor; [|constructor].
    apply (tokens_selectable n p Hwf i tok); auto. apply Hb. now left.
  - apply IH. intros j Hj. apply Hb. now right.
Qed.

Lemma generate_symbol_for_state_total state item g :
  items_ state = [item] -> item_below n item ->
  exists state' g', generate_symbol_for_state node state g = Some (state', g').
Proof.
  intros E Hb.
  destruct (fold_visit_best _ initial_selection g consistent_initial
              (accepting_tokens_selectable state item E Hb))
    as (sel & g' & Hf & _).
  unfold generate_symbol_for_state.
  rewrite select_token_accepting_tokens, Hf. eauto.
Qed.

Lemma goto_step_total state item begin end_ size0 added0 acc :
  items_ state = [item] -> item_below n item ->
  terminating n t size0 added0 acc ->
  exists acc', goto_step node t state begin end_ acc = Some acc'
               /\ terminating n t size0 added0 acc'.
Proof.
  intros E Hb [Hbelow Hadded]. destruct acc as [g added]. simpl in *.
  unfold goto_step.
  destruct (goto_items state item begin end_ E Hb)
    as [Hnil|(next & Hnext & Hnb)].
  { rewrite Hnil. eexists. split; [reflexivity|]. now split. }
  rewrite Hnext.
  pose proof (states_below_insert n (goto_ node state begin end_)
                (get_states t g) next Hnext Hnb Hbelow) as Hins.
  pose proof (set_insert_length state_compare (goto_ node state begin end_)
                (get_states t g)) as Hlen.
  destruct (set_insert state_compare _ (get_states t g)) as [states inserted].
  simpl in Hins, Hlen.
  assert (Hget : forall l g0, get_states t (set_states t l g0) = l)
    by (intros; now destruct t).
  assert (Hlast : forall g3 (added' : Z),
             states_below n (get_states t g3) ->
             added' - added0
             = Z.of_nat (List.length (get_states t g3)) - Z.of_nat size0 ->
             terminating n t size0 added0
               (set_states t
                  (update_state (items_ state)
                     (add_transition begin end_ [next]) (get_states t g3)) g3,
                added')).
  { intros g3 added' Hb3 Ha3. split; simpl.
    - rewrite Hget. now apply states_below_update.
    - rewrite Hget, update_state_length. exact Ha3. }
  destruct inserted.
  - destruct (generate_symbol_for_state_total (goto_ node state begin end_)
                next (set_states t states g) Hnext Hnb)
      as (goto_state' & g2 & Hgen).
    rewrite Hgen. eexists. split; [reflexivity|].
    apply generate_symbol_for_state_result in Hgen as [Eg2 (symbol & ->)].
    assert (Hg2 : get_states t g2 = states)
      by (rewrite Eg2; now destruct t).
    apply Hlast.
    + rewrite Hget, Hg2. apply states_below_update; [|exact Hins].
      intros s Hs. simpl. now rewrite Hs.
    + rewrite Hget, update_state_length, Hg2, Hlen. lia.
  - eexists. split; [reflexivity|]. apply Hlast.
    + now rewrite Hget.
    + rewrite Hget, Hlen. lia.
Qed.

Lemma goto_loop_total state item size0 added0 ranges :
  items_ state = [item] -> item_below n item ->
  no_out_out false ranges -> last_flag false ranges = false ->
  forall acc,
    terminating n t size0 added0 acc ->
    exists acc', goto_loop node t state ranges acc = Some acc'
                 /\ terminating n t size0 added0 acc'.
Proof.
  intros E Hb.
  induction ranges as [|m|[b f] [e fe] rest IH1 IH2] using ranges_walk_ind;
    intros Hno Hlast acc Hacc.
  - now exists acc.
  - destruct m as [c f]. simpl in Hno, Hlast. destruct Hno as [Hf _].
    subst f. now specialize (Hf eq_refl).
  - cbn [goto_loop].
    destruct (goto_step_total state item b e size0 added0 acc E Hb Hacc)
      as (acc1 & -> & Hacc1).
    destruct Hno as [_ [Hfe Hno]]. destruct fe.
    + apply IH1; [|exact Hlast|exact Hacc1].
      simpl. split; [discriminate | exact Hno].
    + apply IH2; [exact Hno | exact Hlast | exact Hacc1].
Qed.

Lemma insert_ranges_well_marked state item ranges :
  items_ state = [item] -> item_below n item ->
  well_marked ranges -> well_marked (insert_ranges node state ranges).
Proof.
  intros E [_ Hb]. unfold insert_ranges. rewrite E. simpl.
  unfold get_next_nodes. clear E. revert ranges.
  induction item as [|i item IH]; intros ranges Hwm; simpl; [exact Hwm|].
  apply IH; [intros j Hj; apply Hb; now right|].
  destruct (is_end (node i)) eqn:Ee; [exact Hwm|].
  apply well_marked_insert; [|exact Hwm].
  apply (ranges_not_empty n p Hwf); [apply Hb; now left | exact Ee].
Qed.

Lemma process_state_total state item size0 added0 acc :
  items_ state = [item] -> item_below n item ->
  terminating n t size0 added0 acc ->
  exists acc', process_state node t state acc = Some acc'
               /\ terminating n t size0 added0 acc'.
Proof.
  intros E Hb [Hbelow Hadded]. destruct acc as [g added]. simpl in *.
  unfold process_state.
  destruct (insert_ranges_well_marked state item (clear (ranges_ g)) E Hb
              well_marked_nil) as (_ & Hno & Hlast).
  apply (goto_loop_total state item size0 added0); try assumption.
  assert (Hget : forall l g0, get_states t (set_states t l g0) = l)
    by (intros; now destruct t).
  split; simpl.
  - change (states_below n
              (get_states t
                 (set_states t (update_state (items_ state) (set_processed true)
                                  (get_states t g)) g))).
    rewrite Hget. now apply states_below_update.
  - change (added - added0
            = Z.of_nat (List.length
                          (get_states t
                             (set_states t
                                (update_state (items_ state)
                                   (set_processed true) (get_states t g)) g)))
              - Z.of_nat size0).
    now rewrite Hget, update_state_length.
Qed.

Lemma above_bound k : (above n k <= List.length (all_items n))%nat.
Proof. unfold above. apply filter_length_le. Qed.

Lemma states_below_size states :
  states_below n states ->
  (List.length states <= List.length (all_items n))%nat.
Proof.
  intros [Hs Hall]. rewrite <- (length_map items_).
  apply NoDup_incl_length.
  - unfold sorted_states, sorted_set in Hs.
    induction Hs as [|k l Hl IH Hk]; constructor; [|exact IH].
    intros Hin. rewrite Forall_forall in Hk. specialize (Hk k Hin).
    rewrite (proj2 (compare_eq_iff k k) eq_refl) in Hk. discriminate.
  - intros k Hk. apply in_map_iff in Hk as (s & <- & Hin).
    rewrite Forall_forall in Hall. destruct (Hall s Hin) as (item & -> & Hb).
    now apply item_below_all_items.
Qed.

Lemma for_states_total fuel : forall i acc size0 added0,
  terminating n t size0 added0 acc ->
  (forall k, i = Some k ->
     exists s, In s (get_states t (fst acc)) /\ items_ s = k) ->
  (for_bound n i < fuel)%nat ->
  exists acc', for_states fuel node t i acc = Some acc'
               /\ terminating n t size0 added0 acc'.
Proof.
  induction fuel as [|fuel IH]; intros i acc size0 added0 Hacc Hi Hfuel; [lia|].
  cbn [for_states]. destruct i as [k|]; [|now exists acc].
  destruct (Hi k eq_refl) as (s & Hin & Hk).
  destruct (find_state_present k _ s Hin Hk) as (state & Hfind).
  rewrite Hfind.
  assert (Hstate : exists item, items_ state = [item] /\ item_below n item).
  { destruct Hacc as [[_ Hall] _]. rewrite Forall_forall in Hall.
    apply Hall. unfold find_state in Hfind. now apply find_some in Hfind. }
  destruct Hstate as (item & Eitem & Hitem).
  assert (Hnext : exists acc1,
             (if processed_ state then Some acc
              else process_state node t state acc) = Some acc1
             /\ terminating n t size0 added0 acc1).
  { destruct (processed_ state); [now exists acc|].
    now apply (process_state_total state item). }
  destruct Hnext as (acc1 & -> & Hacc1).
  apply IH; [exact Hacc1| |].
  - intros k' Hk'. unfold next_state in Hk'.
    destruct (find _ (get_states t (fst acc1))) as [s1|] eqn:E1;
      [|discriminate].
    inversion Hk'; subst. apply find_some in E1 as [Hin1 _]. now exists s1.
  - unfold next_state.
    destruct (find _ (get_states t (fst acc1))) as [s1|] eqn:E1; simpl.
    + apply find_some in E1 as [Hin1 Hlt].
      destruct (items_compare k (items_ s1)) eqn:Ecmp; try discriminate.
      assert (Hu : In (items_ s1) (all_items n)).
      { destruct Hacc1 as [[_ Hall] _]. rewrite Forall_forall in Hall.
        destruct (Hall s1 Hin1) as (item1 & -> & Hb1).
        now apply item_below_all_items. }
      pose proof (above_decreases n k (items_ s1) Ecmp Hu). simpl in Hfuel. lia.
    + simpl in Hfuel. lia.
Qed.

Lemma while_added_total m : forall fuel g,
  states_below n (get_states t g) ->
  (List.length (all_items n) - List.length (get_states t g) <= m)%nat ->
  (S (S (List.length (all_items n))) + m < fuel)%nat ->
  exists g', while_added fuel node t g = Some g'
             /\ states_below n (get_states t g').
Proof.
  induction m as [|m IH]; intros fuel g Hg Hm Hfuel;
    (destruct fuel as [|fuel]; [lia|]); cbn [while_added].
  all: destruct (for_states_total fuel
                   (option_map items_ (hd_error (get_states t g))) (g, 0)
                   (List.length (get_states t g)) 0)
         as ([g1 added] & -> & [Hg1 Hadded]);
    [split; [exact Hg | simpl; lia]
    | intros k Hk; simpl in *; destruct (get_states t g) as [|s l];
      [discriminate | inversion Hk; exists s; split; [now left | reflexivity]]
    | destruct (option_map items_ (hd_error (get_states t g))); simpl;
      [pose proof (above_bound l); lia | lia]
    | ].
  all: simpl in Hg1, Hadded; pose proof (states_below_size _ Hg1) as Hsize.
  - destruct (added >? 0) eqn:Ea; [lia | now exists g1].
  - destruct (added >? 0) eqn:Ea; [|now exists g1].
    apply IH; [exact Hg1 | lia | lia].
Qed.

Lemma generate_states_total g :
  get_states t g = [] ->
  exists fuel g', generate_states fuel p t g = Some g'.
Proof.
  intros Hempty. unfold generate_states.
  destruct (negb (parser_empty p) && (parser_errors p =? 0));
    [|exists 0%nat; simpl; eauto].
  set (state := add_item (first_positions p) new_LexerState).
  assert (Eitem : items_ state = [first_positions p]) by reflexivity.
  pose proof (first_positions_below n p Hwf) as Hfirst.
  destruct (generate_symbol_for_state_total state _ g Eitem Hfirst)
    as (state' & g1 & Hgen).
  pose proof Hgen as Hres.
  apply generate_symbol_for_state_result in Hres as [Eg1 (symbol & ->)].
  assert (Hg1 : get_states t g1 = []) by (rewrite Eg1; now destruct t).
  set (fuel := S (S (S (List.length (all_items n))) + List.length (all_items n))).
  exists fuel. fold node. rewrite Hgen, Hg1. simpl set_insert. cbn [fst].
  destruct (while_added_total (List.length (all_items n)) fuel
              (set_start_state t (Some (items_ (set_symbol symbol state)))
                 (set_states t [set_symbol symbol state] g1)))
    as (g2 & -> & _).
  - assert (get_states t
              (set_start_state t (Some (items_ (set_symbol symbol state)))
                 (set_states t [set_symbol symbol state] g1))
            = [set_symbol symbol state]) as -> by now destruct t.
    split.
    + unfold sorted_states, sorted_set. simpl. repeat constructor.
    + constructor; [|constructor]. now exists (first_positions p).
  - lia.
  - unfold fuel. lia.
  - simpl. eauto.
Qed.

End Termination.

(** ** The constructor *)

Section Constructor.

Context `{Declarations}.

(** Generating the token states leaves the whitespace states alone. *)
Lemma whitespace_states_kept fuel regex_parser g g' :
  whitespace_states_ g = [] ->
  generate_states fuel regex_parser TokenStates g = Some g' ->
  whitespace_states_ g' = [].
Proof.
  intros Hg. unfold generate_states.
  assert (Hidx : forall g0, whitespace_states_ g0 = [] ->
                            whitespace_states_ (generate_indices_for_states g0) = []).
  { intros g0 E. unfold generate_indices_for_states.
    destruct (set_indices 0 (states_ g0)) as [states index]. now rewrite E. }
  destruct (negb (parser_empty regex_parser) && (parser_errors regex_parser =? 0));
    [|inversion 1; subst; now apply Hidx].
  destruct (generate_symbol_for_state _ _ g) as [[state' g1]|] eqn:Esym;
    [|discriminate].
  apply generate_symbol_for_state_result in Esym as [Eg1 _].
  destruct (while_added fuel _ TokenStates _) as [g2|] eqn:Erun; [|discriminate].
  inversion 1; subst. apply Hidx.
  apply (while_added_invariant (fun g0 => whitespace_states_ g0 = [])
           _ TokenStates) in Erun; [exact Erun| |].
  - intros state [g0 added] acc' Hinv _ _ Hrun. unfold process_state in Hrun.
    apply (goto_loop_invariant (fun g3 => whitespace_states_ g3 = [])
             _ TokenStates state) in Hrun; [exact Hrun| |exact Hinv].
    intros begin end_ [g3 added3] acc3 Hinv3. unfold goto_step. simpl in *.
    destruct (items_ (goto_ _ state begin end_)); [inversion 1; now subst|].
    destruct (set_insert state_compare _ (states_ g3)) as [states inserted].
    destruct inserted; [|inversion 1; now subst].
    destruct (generate_symbol_for_state _ _ _) as [[goto_state' g4]|] eqn:E4;
      [|discriminate].
    apply generate_symbol_for_state_result in E4 as [Eg4 _].
    inversion 1; subst. simpl. now rewrite Eg4.
  - simpl. now rewrite Eg1.
Qed.

(** For well-formed parsers the constructor returns. *)
Lemma constructor_total n1 n2 tokens whitespace_tokens sink :
  well_formed n1 tokens -> well_formed n2 whitespace_tokens ->
  exists fuel g,
    new_LexerGenerator fuel tokens whitespace_tokens sink = Some g.
Proof.
  intros Hw1 Hw2.
  destruct (new_RegexParser_kept tokens (initial_generator sink))
    as (_ & Hs0 & Hws0 & _).
  destruct (generate_states_total n1 tokens Hw1 TokenStates
              (new_RegexParser tokens (initial_generator sink)) Hs0)
    as (fuel1 & g1 & E1).
  pose proof (whitespace_states_kept fuel1 tokens
                (new_RegexParser tokens (initial_generator sink)) g1
                Hws0 E1) as Hws.
  destruct (new_RegexParser_kept whitespace_tokens g1) as (_ & _ & Hws1 & _).
  rewrite Hws in Hws1.
  destruct (generate_states_total n2 whitespace_tokens Hw2 WhitespaceStates
              (new_RegexParser whitespace_tokens g1) Hws1)
    as (fuel2 & g2 & E2).
  exists (Nat.max fuel1 fuel2), g2. unfold new_LexerGenerator.
  rewrite (generate_states_more_fuel fuel1 _ _ _ _ _ (Nat.le_max_l _ _) E1).
  apply (generate_states_more_fuel fuel2 _ _ _ _ _ (Nat.le_max_r _ _) E2).
Qed.

(** C6.  When the constructor from tokens and whitespace tokens returns - and
    for well-formed parsers it does - the states of the main automaton carry
    the indices 0 .. n-1 in the order of the set and the whitespace states
    the indices n .. n+m-1: the indices of all states, main states first,
    are 0 .. n+m-1. *)
Theorem new_LexerGenerator_indices tokens whitespace_tokens sink :
  (forall fuel g,
      new_LexerGenerator fuel tokens whitespace_tokens sink = Some g ->
      let n := List.length (states_ g) in
      let m := List.length (whitespace_states_ g) in
      map index_ (states_ g) = indices_from 0 n
      /\ map index_ (whitespace_states_ g) = indices_from (Z.of_nat n) m
      /\ map index_ (states_ g ++ whitespace_states_ g)
         = indices_from 0 (n + m))
  /\ (forall n1 n2,
         well_formed n1 tokens -> well_formed n2 whitespace_tokens ->
         exists fuel g,
           new_LexerGenerator fuel tokens whitespace_tokens sink = Some g).
Proof.
  split.
  - intros fuel g. apply constructor_indices.
  - intros n1 n2. apply constructor_total.
Qed.

(** C8 (amended).  When the constructor returns - and for well-formed
    parsers it does - every state of the two sets has been written in this
    order: whatever was written after [processed] is the symbol, the index
    or the transitions; the items were written before. *)
Theorem items_written_before_processed tokens whitespace_tokens sink :
  (forall fuel g,
      new_LexerGenerator fuel tokens whitespace_tokens sink = Some g ->
      forall s, In s (states_ g ++ whitespace_states_ g) ->
                items_before_processed (writes_ s))
  /\ (forall n1 n2,
         well_formed n1 tokens -> well_formed n2 whitespace_tokens ->
         exists fuel g,
           new_LexerGenerator fuel tokens whitespace_tokens sink = Some g).
Proof.
  split.
  - intros fuel g. apply constructor_well_written.
  - intros n1 n2. apply constructor_total.
Qed.

(** C10.  With a null sink [fire_error] and [fire_printf] leave everything as
    it is.  The constructor run with a null sink returns exactly when it
    returns with a sink, with the same states, whitespace states, start
    states and actions - hence the same transitions, symbols and indices -
    and nothing delivered; for well-formed parsers it returns. *)
Theorem null_sink_same_generation tokens whitespace_tokens sink :
  (forall g line error,
      event_sink_ g = false -> fire_error g line error = g)
  /\ (forall g format args,
         event_sink_ g = false -> fire_printf g format args = g)
  /\ (forall fuel,
         match new_LexerGenerator fuel tokens whitespace_tokens false,
               new_LexerGenerator fuel tokens whitespace_tokens sink with
         | Some g0, Some g =>
             delivered_ g0 = []
             /\ states_ g0 = states_ g
             /\ whitespace_states_ g0 = whitespace_states_ g
             /\ start_state_ g0 = start_state_ g
             /\ whitespace_start_state_ g0 = whitespace_start_state_ g
             /\ actions_ g0 = actions_ g
         | None, None => True
         | _, _ => False
         end)
  /\ (forall n1 n2,
         well_formed n1 tokens -> well_formed n2 whitespace_tokens ->
         exists fuel g0,
           new_LexerGenerator fuel tokens whitespace_tokens false = Some g0).
Proof.
  split; [|split; [|split]].
  - intros g line error E. unfold fire_error. now rewrite E.
  - intros g format args E. unfold fire_printf. now rewrite E.
  - intros fuel.
    rewrite (new_LexerGenerator_silence fuel tokens whitespace_tokens sink).
    destruct (new_LexerGenerator fuel tokens whitespace_tokens sink);
      simpl; [repeat split | exact I].
  - intros n1 n2. apply constructor_total.
Qed.

End Constructor.

(** The two example parsers are well formed. *)
Lemma example_parsers_well_formed :
  @well_formed example_declarations 2 x_parser
  /\ @well_formed example_declarations 2 space_parser.
Proof.
  split; split.
  all: try (split; [repeat constructor | simpl; intros i [<-|[]]; lia]).
  all: try (intros [|[|i]] Hi; simpl; try lia; intros j [<-|[]]; lia).
  all: try (intros [|[|i]] Hi; simpl; try lia; discriminate).
  all: intros [|[|i]] tok Hi; simpl; try lia; try discriminate;
    intros _ E; inversion E; subst; left; simpl; lia.
Qed.

Lemma new_LexerGenerator_indices_witness :
  exists g,
    @new_LexerGenerator example_declarations 10 x_parser space_parser true
    = Some g
    /\ map index_ (states_ g) = [0; 1]
    /\ map index_ (whitespace_states_ g) = [2; 3]
    /\ exists fuel g',
         @new_LexerGenerator example_declarations fuel x_parser space_parser
           true = Some g'.
Proof.
  destruct (@new_LexerGenerator_indices example_declarations x_parser
              space_parser true) as [Hindices Htotal].
  destruct (@new_LexerGenerator example_declarations 10 x_parser space_parser
              true) as [g|] eqn:E; [|vm_compute in E; discriminate].
  exists g. split; [reflexivity|].
  destruct (Hindices 10%nat g E) as (H1 & H2 & _).
  rewrite H1, H2. vm_compute in E. inversion E.
  split; [reflexivity|]. split; [reflexivity|].
  exact (Htotal 2%nat 2%nat (proj1 example_parsers_well_formed)
           (proj2 example_parsers_well_formed)).
Defined.

Lemma items_written_before_processed_witness :
  exists g,
    @new_LexerGenerator example_declarations 10 x_parser space_parser true
    = Some g
    /\ (forall s, In s (states_ g ++ whitespace_states_ g) ->
                  items_before_processed (writes_ s))
    /\ exists fuel g',
         @new_LexerGenerator example_declarations fuel x_parser space_parser
           true = Some g'.
Proof.
  destruct (@items_written_before_processed example_declarations x_parser
              space_parser true) as [Hwritten Htotal].
  destruct (@new_LexerGenerator example_declarations 10 x_parser space_parser
              true) as [g|] eqn:E; [|vm_compute in E; discriminate].
  exists g. split; [reflexivity|]. split; [exact (Hwritten 10%nat g E)|].
  exact (Htotal 2%nat 2%nat (proj1 example_parsers_well_formed)
           (proj2 example_parsers_well_formed)).
Defined.

Lemma null_sink_same_generation_witness :
  event_sink_ (initial_generator false) = false
  /\ fire_error (initial_generator false) 1
       (LexerSymbolConflictError (token 1 1 1) (token 1 1 2))
     = initial_generator false
  /\ fire_printf (initial_generator false) "conflict" []
     = initial_generator false
  /\ exists fuel g0,
       @new_LexerGenerator example_declarations fuel x_parser space_parser
         false = Some g0.
Proof.
  destruct (@null_sink_same_generation example_declarations x_parser
              space_parser true) as (Herror & Hprintf & _ & Htotal).
  split; [reflexivity|]. split; [apply Herror; reflexivity|].
  split; [apply Hprintf; reflexivity|].
  exact (Htotal 2%nat 2%nat (proj1 example_parsers_well_formed)
           (proj2 example_parsers_well_formed)).
Defined.

(** * Further properties *)

(** ** One call of [insert] *)

Lemma insert_close_length end_ in_ ranges :
  (List.length ranges <= List.length (insert_close end_ in_ ranges)
   <= S (List.length ranges))%nat.
Proof.
  revert in_. induction ranges as [|[c f] rest IH]; intros in_; simpl; [lia|].
  destruct (c <? end_); simpl; [specialize (IH f); lia|].
  destruct (c =? end_); simpl; lia.
Qed.

Lemma insert_open_length begin end_ in_ ranges :
  (List.length ranges <= List.length (insert_open begin end_ in_ ranges)
   <= S (S (List.length ranges)))%nat.
Proof.
  revert in_. induction ranges as [|[c f] rest IH]; intros in_;
    cbn [insert_open]; [simpl; lia|].
  destruct (c <? begin); [specialize (IH f); simpl; lia|].
  pose proof (insert_close_length end_ in_ ((c, f) :: rest)).
  destruct (c =? begin); simpl in *; lia.
Qed.

(** X1.  One call of [insert] on a well-marked set adds exactly the range
    [begin, end): the set stays well marked, a character is inside
    afterwards if and only if it was inside or lies in the range, the
    markers are the old ones and [begin] and [end], and at most two markers
    are new. *)
Theorem insert_adds_range begin end_ ranges :
  begin < end_ -> well_marked ranges ->
  well_marked (insert begin end_ ranges)
  /\ (forall x, inside_from false (insert begin end_ ranges) x
                = in_rangeb x (begin, end_) || inside_from false ranges x)
  /\ (forall c, In c (chars (insert begin end_ ranges))
                <-> c = begin \/ c = end_ \/ In c (chars ranges))
  /\ (List.length ranges <= List.length (insert begin end_ ranges)
      <= List.length ranges + 2)%nat.
Proof.
  intros Hbe Hwm. split; [now apply well_marked_insert|].
  split; [intros x; apply inside_insert; [exact Hbe | apply Hwm]|].
  split; [intros c; apply chars_insert|].
  rewrite insert_unrolled.
  pose proof (insert_open_length begin end_ false ranges). lia.
Qed.

Lemma insert_adds_range_witness :
  0 < 32 /\ well_marked (insert 0 256 [])
  /\ well_marked (insert 0 32 (insert 0 256 []))
  /\ List.length (insert 0 32 (insert 0 256 [])) = 3%nat.
Proof.
  assert (H1 : 0 < 32) by lia.
  assert (H2 : well_marked (insert 0 256 []))
    by (apply well_marked_insert; [lia | apply well_marked_nil]).
  split; [exact H1|]. split; [exact H2|].
  destruct (insert_adds_range 0 32 (insert 0 256 []) H1 H2) as (Hwm & _).
  split; [exact Hwm | reflexivity].
Defined.

(** X2.  Inserting a range a second time changes nothing. *)
Theorem insert_idempotent begin end_ ranges :
  begin < end_ -> well_marked ranges ->
  insert begin end_ (insert begin end_ ranges) = insert begin end_ ranges.
Proof.
  intros Hbe Hwm.
  pose proof (well_marked_insert begin end_ ranges Hbe Hwm) as Hwm1.
  pose proof (well_marked_insert begin end_ _ Hbe Hwm1) as Hwm2.
  apply (markers_determined _ _ false (proj1 Hwm2) (proj1 Hwm1)).
  - intros c. rewrite !chars_insert. tauto.
  - intros x. rewrite !inside_insert; try assumption; try apply Hwm; try apply Hwm1.
    now destruct (in_rangeb x (begin, end_)).
Qed.

Lemma insert_idempotent_witness :
  0 < 32 /\ well_marked (insert 0 256 [])
  /\ insert 0 32 (insert 0 32 (insert 0 256 [])) = insert 0 32 (insert 0 256 []).
Proof.
  assert (H1 : 0 < 32) by lia.
  assert (H2 : well_marked (insert 0 256 []))
    by (apply well_marked_insert; [lia | apply well_marked_nil]).
  split; [exact H1|]. split; [exact H2|].
  exact (insert_idempotent 0 32 (insert 0 256 []) H1 H2).
Defined.

(** X3.  Two ranges can be inserted in either order. *)
Theorem insert_commutes begin1 end1 begin2 end2 ranges :
  begin1 < end1 -> begin2 < end2 -> well_marked ranges ->
  insert begin1 end1 (insert begin2 end2 ranges)
  = insert begin2 end2 (insert begin1 end1 ranges).
Proof.
  intros H1 H2 Hwm.
  pose proof (well_marked_insert begin1 end1 ranges H1 Hwm) as Hwm1.
  pose proof (well_marked_insert begin2 end2 ranges H2 Hwm) as Hwm2.
  pose proof (well_marked_insert begin1 end1 _ H1 Hwm2) as Hwm12.
  pose proof (well_marked_insert begin2 end2 _ H2 Hwm1) as Hwm21.
  apply (markers_determined _ _ false (proj1 Hwm12) (proj1 Hwm21)).
  - intros c. rewrite !chars_insert. tauto.
  - intros x. rewrite !inside_insert; try assumption;
      try apply Hwm; try apply Hwm1; try apply Hwm2.
    destruct (in_rangeb x (begin1, end1)), (in_rangeb x (begin2, end2));
      reflexivity.
Qed.

Lemma insert_commutes_witness :
  0 < 32 /\ 16 < 64 /\ well_marked (insert 0 256 [])
  /\ insert 0 32 (insert 16 64 (insert 0 256 []))
     = insert 16 64 (insert 0 32 (insert 0 256 [])).
Proof.
  assert (H1 : 0 < 32) by lia. assert (H2 : 16 < 64) by lia.
  assert (H3 : well_marked (insert 0 256 []))
    by (apply well_marked_insert; [lia | apply well_marked_nil]).
  split; [exact H1|]. split; [exact H2|]. split; [exact H3|].
  exact (insert_commutes 0 32 16 64 (insert 0 256 []) H1 H2 H3).
Defined.

(** ** An empty range *)

Lemma insert_open_empty_present b ranges : forall in_,
  ascending ranges -> In b (chars ranges) ->
  insert_open b b in_ ranges = ranges.
Proof.
  induction ranges as [|[c f] rest IH]; intros in_ Ha Hin; [contradiction|].
  apply ascending_cons in Ha as [Hrest Hc]. cbn [insert_open].
  destruct (c <? b) eqn:Hlt.
  - f_equal. apply IH; [exact Hrest|].
    destruct Hin as [E|Hin]; [simpl in E; lia | exact Hin].
  - destruct (c =? b) eqn:Heq.
    + simpl. now rewrite Hlt, Heq.
    + exfalso. destruct Hin as [E|Hin]; [simpl in E; lia|].
      specialize (Hc b Hin). lia.
Qed.

Lemma insert_open_empty_absent b ranges : forall in_,
  ~ In b (chars ranges) ->
  exists l1 f l2,
    ranges = l1 ++ l2
    /\ insert_open b b in_ ranges = l1 ++ (b, true) :: (b, f) :: l2.
Proof.
  induction ranges as [|[c f] rest IH]; intros in_ Hnot.
  - now exists [], in_, [].
  - cbn [insert_open]. destruct (c <? b) eqn:Hlt.
    + destruct (IH f) as (l1 & f' & l2 & -> & ->).
      { intros Hin. apply Hnot. now right. }
      now exists ((c, f) :: l1), f', l2.
    + destruct (c =? b) eqn:Heq.
      * exfalso. apply Hnot. left. simpl. lia.
      * exists [], in_, ((c, f) :: rest). simpl. now rewrite Hlt, Heq.
Qed.

Lemma ascending_adjacent l1 x y l2 :
  ascending (l1 ++ x :: y :: l2) -> fst x < fst y.
Proof.
  induction l1 as [|[c f] l1 IH]; simpl; intros Ha.
  - destruct x as [cx fx]. apply ascending_cons in Ha as [_ Hc].
    apply Hc. simpl. now left.
  - apply ascending_cons in Ha as [Ha _]. now apply IH.
Qed.

(** X4.  [insert] with [begin = end], which [generate_states] asserts never
    to walk: when the set has a marker at that character nothing changes;
    otherwise two markers are put at it, the first in, and the markers are
    no longer strictly ascending. *)
Theorem insert_empty_range b ranges :
  ascending ranges ->
  (In b (chars ranges) -> insert b b ranges = ranges)
  /\ (~ In b (chars ranges) ->
      (exists l1 f l2,
          ranges = l1 ++ l2
          /\ insert b b ranges = l1 ++ (b, true) :: (b, f) :: l2)
      /\ ~ ascending (insert b b ranges)).
Proof.
  intros Ha. rewrite insert_unrolled. split.
  - now apply insert_open_empty_present.
  - intros Hnot.
    destruct (insert_open_empty_absent b ranges false Hnot)
      as (l1 & f & l2 & E1 & E2).
    split; [now exists l1, f, l2|].
    rewrite E2. intros Hasc. apply ascending_adjacent in Hasc. simpl in Hasc. lia.
Qed.

Lemma insert_empty_range_witness :
  ascending [(0, true); (32, false)]
  /\ insert 0 0 [(0, true); (32, false)] = [(0, true); (32, false)]
  /\ insert 7 7 [(0, true); (32, false)]
     = [(0, true); (7, true); (7, true); (32, false)].
Proof.
  assert (Ha : ascending [(0, true); (32, false)]).
  { apply ascending_cons. split.
    - apply ascending_cons. split; [constructor | simpl; tauto].
    - simpl. intros c [<-|[]]. lia. }
  split; [exact Ha|].
  destruct (insert_empty_range 0 [(0, true); (32, false)] Ha) as [Hpresent _].
  split; [apply Hpresent; simpl; now left | reflexivity].
Defined.

(** ** The null token of [generate_symbol_for_state] *)

Section NullTokenFacts.

Context `{Declarations}.

Lemma visit_token_selected t sel g :
  sel_token sel <> None ->
  exists sel' g', visit_token t (sel, g) = Some (sel', g') /\ sel_token sel' <> None.
Proof.
  intros Hsel. unfold visit_token.
  destruct (token_type t >? sel_type sel);
    [exists (select t), g; split; [reflexivity | discriminate]|].
  destruct ((token_type t =? sel_type sel) && (token_line t <? sel_line sel));
    [exists (select t), g; split; [reflexivity | discriminate]|].
  destruct ((token_type t =? sel_type sel) && (token_line t =? sel_line sel)).
  - destruct (sel_token sel) as [token|] eqn:E; [|contradiction].
    eexists _, _. split; [reflexivity|]. rewrite E. discriminate.
  - now exists sel, g.
Qed.

Lemma fold_visit_selected toks : forall sel g,
  sel_token sel <> None -> fold_option visit_token toks (sel, g) <> None.
Proof.
  induction toks as [|t toks IH]; intros sel g Hsel; [discriminate|].
  cbn [fold_option].
  destruct (visit_token_selected t sel g Hsel) as (sel' & g' & -> & Hsel').
  now apply IH.
Qed.

Lemma null_token_read_cons t toks :
  null_token_read (t :: toks)
  <-> (token_type t = TOKEN_NULL /\ token_line t = INT_MAX)
      \/ (loses_to_initial t /\ null_token_read toks).
Proof.
  split.
  - intros (pre & u & post & E & Hpre & Hu).
    destruct pre as [|v pre]; simpl in E; inversion E; subst.
    + now left.
    + right. inversion Hpre; subst. split; [assumption|].
      now exists pre, u, post.
  - intros [Ht|[Ht (pre & u & post & -> & Hpre & Hu)]].
    + now exists [], t, toks.
    + exists (t :: pre), u, post. repeat split; try tauto. now constructor.
Qed.

Lemma fold_visit_null_token toks : forall g,
  fold_option visit_token toks (initial_selection, g) = None
  <-> null_token_read toks.
Proof.
  induction toks as [|t toks IH]; intros g.
  - split; [discriminate|]. intros (pre & u & post & E & _).
    now destruct pre.
  - rewrite null_token_read_cons. cbn [fold_option]. unfold visit_token.
    cbn [initial_selection sel_type sel_line sel_token].
    unfold loses_to_initial.
    destruct (token_type t >? TOKEN_NULL) eqn:E1.
    { split; [intros E; now apply fold_visit_selected in E | lia]. }
    destruct (token_type t =? TOKEN_NULL) eqn:E2; cbn [andb].
    + destruct (token_line t <? INT_MAX) eqn:E3.
      { split; [intros E; now apply fold_visit_selected in E | lia]. }
      destruct (token_line t =? INT_MAX) eqn:E4.
      * split; [lia | reflexivity].
      * rewrite IH. split; [intros Hr; right; split; [lia | exact Hr]|].
        intros [?|[_ Hr]]; [lia | exact Hr].
    + rewrite IH. split; [intros Hr; right; split; [lia | exact Hr]|].
      intros [?|[_ Hr]]; [lia | exact Hr].
Qed.

(** X5.  [generate_symbol_for_state] has no defined result exactly when its
    conflict branch reads [token->line()] through the null [token]: an
    accepting token of type [TOKEN_NULL] on line [INT_MAX] is met after none
    but tokens that lose to the initial [type] and [line]. *)
Theorem generate_symbol_for_state_null_token node state g :
  generate_symbol_for_state node state g = None
  <-> null_token_read (accepting_tokens node state).
Proof.
  unfold generate_symbol_for_state.
  rewrite select_token_accepting_tokens, <- (fold_visit_null_token _ g).
  destruct (fold_option visit_token _ _) as [[sel g']|]; [|tauto].
  split; discriminate.
Qed.

End NullTokenFacts.

(** ** The registry of actions *)

Lemma find_action_some identifier actions a :
  find_action identifier actions = Some a ->
  In a actions /\ action_identifier a = identifier.
Proof.
  induction actions as [|b actions IH]; simpl; [discriminate|].
  destruct (String.eqb (action_identifier b) identifier) eqn:E.
  - intros [= <-]. apply String.eqb_eq in E. now split; [left|].
  - intros Hf. destruct (IH Hf). now split; [right|].
Qed.

Lemma find_action_absent identifier actions :
  find_action identifier actions = None ->
  ~ In identifier (map action_identifier actions).
Proof.
  induction actions as [|b actions IH]; simpl; [tauto|].
  destruct (String.eqb (action_identifier b) identifier) eqn:E; [discriminate|].
  apply String.eqb_neq in E. intros Hf [E'|Hin]; [contradiction|].
  now apply IH.
Qed.

(** X6.  A second call with the same identifier returns what the first call
    returned and changes nothing, whatever the generator. *)
Theorem add_lexer_action_idempotent identifier g :
  add_lexer_action identifier (snd (add_lexer_action identifier g))
  = add_lexer_action identifier g.
Proof.
  unfold add_lexer_action.
  destruct (empty identifier) eqn:Hempty; cbn [negb]; [reflexivity|].
  destruct (find_action identifier (actions_ g)) as [a|] eqn:Hfind; cbn [snd].
  - now rewrite Hfind.
  - cbn [set_actions actions_].
    rewrite (find_action_last identifier (actions_ g)
               {| action_index := Z.of_nat (List.length (actions_ g));
                  action_identifier := identifier |} Hfind eq_refl).
    reflexivity.
Qed.

Lemma NoDup_snoc {A : Type} (l : list A) x :
  NoDup l -> ~ In x l -> NoDup (l ++ [x]).
Proof.
  intros Hl Hx. apply (Permutation_NoDup (l := x :: l)).
  - apply Permutation_cons_append.
  - now constructor.
Qed.

Lemma add_lexer_action_registry identifier g :
  registry (actions_ g) ->
  let g' := snd (add_lexer_action identifier g) in
  registry (actions_ g')
  /\ g' = set_actions (actions_ g') g
  /\ (forall s, In s (map action_identifier (actions_ g'))
                <-> In s (map action_identifier (actions_ g))
                    \/ (s = identifier /\ empty s = false)).
Proof.
  intros (Hidx & Hnodup & Hne). unfold add_lexer_action.
  assert (Hsame : g = set_actions (actions_ g) g) by now destruct g.
  assert (Hreg : registry (actions_ g)) by (repeat split; assumption).
  destruct (empty identifier) eqn:Hempty; cbn [negb snd].
  - split; [exact Hreg|]. split; [exact Hsame|]. intros s. split; [tauto|].
    intros [Hin|[-> E]]; [exact Hin | congruence].
  - destruct (find_action identifier (actions_ g)) as [a|] eqn:Hfind; cbn [snd].
    + split; [exact Hreg|]. split; [exact Hsame|]. intros s. split; [tauto|].
      intros [Hin|[-> _]]; [exact Hin|].
      apply find_action_some in Hfind as [Hin <-]. now apply in_map.
    + cbn [set_actions actions_]. split; [split; [|split]|split].
      * rewrite map_app, length_app, indices_from_app, Hidx. f_equal.
        unfold indices_from. simpl. f_equal. lia.
      * rewrite map_app. apply NoDup_snoc; [exact Hnodup|].
        now apply find_action_absent.
      * apply Forall_app. split; [exact Hne|]. now constructor.
      * reflexivity.
      * intros s. rewrite map_app, in_app_iff. simpl. split.
        -- intros [Hin|[<-|[]]]; [now left | now right].
        -- intros [Hin|[-> _]]; [now left | right; now left].
Qed.

(** X7.  Over any sequence of calls [add_lexer_action] keeps the registry:
    the index of every action is its place in [actions_], the identifiers
    are distinct and none is empty; no other member of the generator
    changes; and the identifiers registered are the ones there were and the
    non-empty ones the calls were given. *)
Theorem add_lexer_actions_registry identifiers g :
  registry (actions_ g) ->
  let g' := add_lexer_actions identifiers g in
  registry (actions_ g')
  /\ g' = set_actions (actions_ g') g
  /\ (forall s, In s (map action_identifier (actions_ g'))
                <-> In s (map action_identifier (actions_ g))
                    \/ (In s identifiers /\ empty s = false)).
Proof.
  revert g. induction identifiers as [|identifier identifiers IH]; intros g Hreg.
  - simpl. repeat split; try apply Hreg; [now destruct g | tauto | tauto].
  - destruct (add_lexer_action_registry identifier g Hreg) as (Hreg1 & Hg1 & Hin1).
    destruct (IH _ Hreg1) as (Hreg2 & Hg2 & Hin2).
    change (add_lexer_actions (identifier :: identifiers) g)
      with (add_lexer_actions identifiers (snd (add_lexer_action identifier g))).
    remember (snd (add_lexer_action identifier g)) as g1 eqn:E1.
    remember (add_lexer_actions identifiers g1) as g2 eqn:E2.
    cbv zeta. split; [exact Hreg2|]. split.
    + transitivity (set_actions (actions_ g2) g1); [exact Hg2|].
      rewrite Hg1. reflexivity.
    + intros s. rewrite Hin2, Hin1. simpl. intuition.
Qed.

Lemma add_lexer_actions_registry_witness :
  registry (actions_ (initial_generator true))
  /\ registry
       (actions_
          (add_lexer_actions ["x"%string; EmptyString; "x"%string; "y"%string]
             (initial_generator true)))
  /\ map action_identifier
       (actions_
          (add_lexer_actions ["x"%string; EmptyString; "x"%string; "y"%string]
             (initial_generator true)))
     = ["x"%string; "y"%string].
Proof.
  assert (Hreg : registry (actions_ (initial_generator true))).
  { repeat split; simpl; constructor. }
  split; [exact Hreg|]. split; [|reflexivity].
  exact (proj1 (add_lexer_actions_registry
                  ["x"%string; EmptyString; "x"%string; "y"%string]
                  (initial_generator true) Hreg)).
Defined.

(** ** What [generate_states] leaves alone *)

Lemma visit_token_delivers t sel g sel' g' :
  visit_token t (sel, g) = Some (sel', g') ->
  exists calls,
    g' = set_delivered (delivered_ g ++ calls) g
    /\ Forall is_conflict calls
    /\ (event_sink_ g = false -> calls = []).
Proof.
  assert (Hsame : g = set_delivered (delivered_ g ++ []) g)
    by (rewrite app_nil_r; now destruct g).
  unfold visit_token.
  destruct (token_type t >? sel_type sel);
    [intros [= <- <-]; exists []; auto|].
  destruct ((token_type t =? sel_type sel) && (token_line t <? sel_line sel));
    [intros [= <- <-]; exists []; auto|].
  destruct ((token_type t =? sel_type sel) && (token_line t =? sel_line sel));
    [|intros [= <- <-]; exists []; auto].
  destruct (sel_token sel) as [token|]; [|discriminate].
  intros [= <- <-]. unfold fire_error.
  destruct (event_sink_ g) eqn:Hsink; [|exists []; auto].
  eexists. split; [reflexivity|]. split; [|discriminate].
  constructor; [|constructor]. now exists (token_line token), token, t.
Qed.

Lemma fold_visit_delivers toks : forall sel g sel' g',
  fold_option visit_token toks (sel, g) = Some (sel', g') ->
  exists calls,
    g' = set_delivered (delivered_ g ++ calls) g
    /\ Forall is_conflict calls
    /\ (event_sink_ g = false -> calls = []).
Proof.
  induction toks as [|t toks IH]; intros sel g sel' g'; cbn [fold_option].
  - intros [= <- <-]. exists []. rewrite app_nil_r. now destruct g.
  - destruct (visit_token t (sel, g)) as [[sel1 g1]|] eqn:E; [|discriminate].
    intros Hrest.
    apply visit_token_delivers in E as (calls1 & -> & Hc1 & Hn1).
    apply IH in Hrest as (calls2 & -> & Hc2 & Hn2).
    exists (calls1 ++ calls2). simpl. rewrite app_assoc.
    split; [reflexivity|]. split; [now apply Forall_app|].
    intros Hsink. now rewrite (Hn1 Hsink), (Hn2 Hsink).
Qed.

Section Frame.

Context `{Declarations}.

Lemma generate_symbol_for_state_delivers node state g state' g' :
  generate_symbol_for_state node state g = Some (state', g') ->
  exists calls,
    g' = set_delivered (delivered_ g ++ calls) g
    /\ Forall is_conflict calls
    /\ (event_sink_ g = false -> calls = []).
Proof.
  unfold generate_symbol_for_state. rewrite select_token_accepting_tokens.
  destruct (fold_option visit_token _ _) as [[sel g1]|] eqn:E; [|discriminate].
  intros [= <- <-]. now apply fold_visit_delivers in E.
Qed.

Lemma frame_refl t g : frame t g g.
Proof.
  repeat split. exists []. rewrite app_nil_r. auto.
Qed.

Lemma frame_set_states t g0 g states :
  frame t g0 g -> frame t g0 (set_states t states g).
Proof. intros (H1 & H2 & H3 & H4 & H5). destruct t; repeat split; assumption. Qed.

Lemma frame_set_start_state t g0 g start :
  frame t g0 g -> frame t g0 (set_start_state t start g).
Proof. intros (H1 & H2 & H3 & H4 & H5). destruct t; repeat split; assumption. Qed.

Lemma frame_set_ranges t g0 g ranges :
  frame t g0 g -> frame t g0 (set_ranges ranges g).
Proof. intros (H1 & H2 & H3 & H4 & H5). destruct t; repeat split; assumption. Qed.

Lemma frame_delivered t g0 g calls :
  frame t g0 g -> Forall is_conflict calls ->
  (event_sink_ g = false -> calls = []) ->
  frame t g0 (set_delivered (delivered_ g ++ calls) g).
Proof.
  intros (H1 & H2 & H3 & H4 & calls0 & H5 & H6 & H7) Hc Hn.
  split; [exact H1|]. split; [exact H2|].
  split; [now destruct t|]. split; [now destruct t|].
  exists (calls0 ++ calls). simpl. rewrite H5, app_assoc.
  split; [reflexivity|]. split; [now apply Forall_app|].
  intros Hsink. rewrite (H7 Hsink), Hn; [reflexivity | congruence].
Qed.

Lemma frame_generate_symbol_for_state t g0 node state g state' g' :
  frame t g0 g ->
  generate_symbol_for_state node state g = Some (state', g') ->
  frame t g0 g'.
Proof.
  intros Hg Hgen.
  apply generate_symbol_for_state_delivers in Hgen as (calls & -> & Hc & Hn).
  now apply frame_delivered.
Qed.

Lemma frame_goto_step g0 node t state begin end_ acc acc' :
  frame t g0 (fst acc) ->
  goto_step node t state begin end_ acc = Some acc' ->
  frame t g0 (fst acc').
Proof.
  destruct acc as [g added]. unfold goto_step. simpl. intros Hg.
  destruct (items_ (goto_ node state begin end_)); [intros [= <-]; exact Hg|].
  destruct (set_insert state_compare _ (get_states t g)) as [states inserted].
  destruct inserted.
  - destruct (generate_symbol_for_state node _ (set_states t states g))
      as [[goto_state' g2]|] eqn:Esym; [|discriminate].
    intros [= <-]. simpl. apply frame_set_states, frame_set_states.
    apply (frame_generate_symbol_for_state t g0) in Esym; [exact Esym|].
    now apply frame_set_states.
  - intros [= <-]. simpl. now apply frame_set_states, frame_set_states.
Qed.

Lemma frame_process_state g0 node t state acc acc' :
  frame t g0 (fst acc) ->
  find_state (items_ state) (get_states t (fst acc)) = Some state ->
  processed_ state = false ->
  process_state node t state acc = Some acc' ->
  frame t g0 (fst acc').
Proof.
  destruct acc as [g added]. unfold process_state. simpl.
  intros Hg _ _ Hrun.
  apply (goto_loop_invariant (frame t g0) node t state) in Hrun;
    [exact Hrun | apply frame_goto_step|].
  simpl. apply (frame_set_ranges t g0 (set_states t _ g)).
  now apply frame_set_states.
Qed.

Lemma frame_generate_indices t g :
  event_sink_ (generate_indices_for_states g) = event_sink_ g
  /\ actions_ (generate_indices_for_states g) = actions_ g
  /\ delivered_ (generate_indices_for_states g) = delivered_ g
  /\ get_start_state t (generate_indices_for_states g) = get_start_state t g
  /\ exists index,
       get_states t (generate_indices_for_states g)
       = fst (set_indices index (get_states t g)).
Proof.
  unfold generate_indices_for_states.
  destruct (set_indices 0 (states_ g)) as [states index] eqn:E1.
  destruct (set_indices index (whitespace_states_ g)) as [ws index'] eqn:E2.
  split; [reflexivity|]. split; [reflexivity|]. split; [reflexivity|].
  split; [now destruct t|].
  destruct t; simpl; [exists 0 | exists index]; [now rewrite E1 | now rewrite E2].
Qed.

(** X8.  A call of [generate_states] that returns has kept the sink and the
    actions; of the set of states it was not handed it has kept the start
    state and every state, but for the indices that
    [generate_indices_for_states] writes again; and what it has delivered to
    the sink are symbol conflicts, never a message to print, and nothing
    when the sink is null. *)
Theorem generate_states_frame fuel regex_parser t g g' :
  generate_states fuel regex_parser t g = Some g' ->
  event_sink_ g' = event_sink_ g
  /\ actions_ g' = actions_ g
  /\ get_start_state (other t) g' = get_start_state (other t) g
  /\ (exists index,
        get_states (other t) g'
        = fst (set_indices index (get_states (other t) g)))
  /\ exists calls,
       delivered_ g' = delivered_ g ++ calls
       /\ Forall is_conflict calls
       /\ (event_sink_ g = false -> calls = []).
Proof.
  unfold generate_states.
  assert (Hend : forall g0, frame t g g0 ->
            event_sink_ (generate_indices_for_states g0) = event_sink_ g
            /\ actions_ (generate_indices_for_states g0) = actions_ g
            /\ get_start_state (other t) (generate_indices_for_states g0)
               = get_start_state (other t) g
            /\ (exists index,
                  get_states (other t) (generate_indices_for_states g0)
                  = fst (set_indices index (get_states (other t) g)))
            /\ exists calls,
                 delivered_ (generate_indices_for_states g0)
                 = delivered_ g ++ calls
                 /\ Forall is_conflict calls
                 /\ (event_sink_ g = false -> calls = [])).
  { intros g0 (H1 & H2 & H3 & H4 & H5).
    destruct (frame_generate_indices (other t) g0)
      as (E1 & E2 & E3 & E4 & index & E5).
    rewrite E1, E2, E3, E4, E5, H3. repeat split; try assumption.
    now exists index. }
  destruct (negb (parser_empty regex_parser) && (parser_errors regex_parser =? 0)).
  - destruct (generate_symbol_for_state _ _ g) as [[state' g1]|] eqn:Esym;
      [|discriminate].
    apply (frame_generate_symbol_for_state t g) in Esym; [|apply frame_refl].
    destruct (while_added fuel _ t _) as [g2|] eqn:Erun; [|discriminate].
    intros [= <-]. apply Hend.
    apply (while_added_invariant (frame t g) _ t) in Erun; [exact Erun| |].
    + apply frame_process_state.
    + now apply frame_set_start_state, frame_set_states.
  - intros [= <-]. apply Hend, frame_refl.
Qed.

End Frame.

Lemma generate_states_frame_witness :
  exists g',
    @generate_states example_declarations 10 x_parser TokenStates
      (initial_generator true) = Some g'
    /\ actions_ g' = []
    /\ delivered_ g' = [].
Proof.
  destruct (@generate_states example_declarations 10 x_parser TokenStates
              (initial_generator true)) as [g'|] eqn:E;
    [|vm_compute in E; discriminate].
  exists g'. split; [reflexivity|].
  destruct (@generate_states_frame example_declarations 10 x_parser TokenStates
              (initial_generator true) g' E) as (_ & Ha & _ & _ & _).
  split; [exact Ha|]. vm_compute in E. now inversion E.
Defined.

(** ** The steps of [generate_states] on the set of states *)

Lemma set_insert_present_same {A : Type} (cmp : A -> A -> comparison) x l :
  snd (set_insert cmp x l) = false -> fst (set_insert cmp x l) = l.
Proof.
  induction l as [|y l IH]; simpl; [discriminate|].
  destruct (cmp x y); simpl; try discriminate; [reflexivity|].
  destruct (set_insert cmp x l) as [l' b]. simpl in *.
  intros Hb. now rewrite (IH Hb).
Qed.

(** Inserting a state and writing on it through the pointer amounts to
    inserting the state written on. *)
Lemma update_state_inserted x x' states :
  items_ x' = items_ x ->
  snd (set_insert state_compare x states) = true ->
  update_state (items_ x) (fun _ => x') (fst (set_insert state_compare x states))
  = fst (set_insert state_compare x' states).
Proof.
  intros Hitems.
  assert (Hx : same_items (items_ x) x = true) by now apply same_items_iff.
  induction states as [|y l IH]; simpl.
  - intros _. now rewrite Hx.
  - assert (Ecmp : state_compare x' y = state_compare x y)
      by (unfold state_compare; now rewrite Hitems).
    rewrite Ecmp. destruct (state_compare x y) eqn:E; simpl;
      unfold state_compare in E.
    + discriminate.
    + intros _. now rewrite Hx.
    + destruct (set_insert state_compare x l) as [l1 b1] eqn:E1.
      destruct (set_insert state_compare x' l) as [l2 b2] eqn:E2.
      simpl in *. intros Hb.
      assert (Hy : same_items (items_ x) y = false).
      { destruct (same_items (items_ x) y) eqn:Ey; [|reflexivity].
        apply same_items_iff in Ey. rewrite Ey in E.
        rewrite (compare_refl items_compare) in E. discriminate. }
      rewrite Hy. now rewrite (IH Hb).
Qed.

Lemma get_set_states t states g : get_states t (set_states t states g) = states.
Proof. now destruct t. Qed.

Section Steps.

Context `{Declarations}.

(** The three ways through the body of the loop over [ranges_]: an empty
    goto state; a goto state that is new in the set, which is given its
    symbol; a goto state that the set has already. *)
Lemma goto_step_cases node t state begin end_ g added g' added' :
  goto_step node t state begin end_ (g, added) = Some (g', added') ->
  let goto_state := goto_ node state begin end_ in
  (items_ goto_state = [] /\ g' = g /\ added' = added)
  \/ (items_ goto_state <> []
      /\ snd (set_insert state_compare goto_state (get_states t g)) = true
      /\ added' = added + 1
      /\ exists sel g0 g2,
           select_token node goto_state g0 = Some (sel, g2)
           /\ get_states t g'
              = update_state (items_ state)
                  (add_transition begin end_ (items_ goto_state))
                  (fst (set_insert state_compare
                          (set_symbol (symbol_of (sel_token sel)) goto_state)
                          (get_states t g))))
  \/ (items_ goto_state <> []
      /\ snd (set_insert state_compare goto_state (get_states t g)) = false
      /\ added' = added
      /\ get_states t g'
         = update_state (items_ state)
             (add_transition begin end_ (items_ goto_state)) (get_states t g)).
Proof.
  unfold goto_step. cbv zeta.
  destruct (items_ (goto_ node state begin end_)) as [|item items] eqn:Eitems.
  { intros [= <- <-]. now left. }
  pose proof (set_insert_present_same state_compare
                (goto_ node state begin end_) (get_states t g)) as Hsame.
  pose proof (fun x' => update_state_inserted (goto_ node state begin end_) x'
                          (get_states t g)) as Hins.
  destruct (set_insert state_compare _ (get_states t g)) as [states inserted].
  simpl in Hsame, Hins. destruct inserted.
  - unfold generate_symbol_for_state.
    destruct (select_token node _ (set_states t states g)) as [[sel g2]|] eqn:Esel;
      [|discriminate].
    intros [= <- <-]. right. left.
    split; [discriminate|]. split; [reflexivity|]. split; [reflexivity|].
    exists sel, (set_states t states g), g2. split; [exact Esel|].
    rewrite get_set_states, get_set_states.
    assert (Eg2 : get_states t g2 = states).
    { rewrite select_token_accepting_tokens in Esel.
      apply fold_visit_members in Esel. rewrite Esel.
      now destruct t. }
    rewrite Eg2. f_equal.
    rewrite <- Eitems. apply Hins; reflexivity.
  - intros [= <- <-]. right. right.
    split; [discriminate|]. split; [reflexivity|]. split; [reflexivity|].
    rewrite get_set_states, get_set_states.
    now rewrite (Hsame eq_refl).
Qed.

(** The loop over [ranges_] walks the ranges that [distinct_ranges] lists:
    what holds before the loop and is carried by its body over each range
    holds after it for all of them. *)
Lemma goto_loop_walk node t state
  (Inv : list (Z * Z) -> LexerGenerator * Z -> Prop) :
  (forall walked begin end_ acc acc',
      Inv walked acc -> goto_step node t state begin end_ acc = Some acc' ->
      Inv (walked ++ [(begin, end_)]) acc') ->
  forall ranges walked acc acc',
    Inv walked acc -> goto_loop node t state ranges acc = Some acc' ->
    exists out, distinct_ranges ranges = Some out /\ Inv (walked ++ out) acc'.
Proof.
  intros Hstep.
  induction ranges as [|m|[b f] [e fe] rest IH1 IH2] using ranges_walk_ind;
    intros walked acc acc' Hinv Hrun.
  - inversion Hrun; subst. exists []. now rewrite app_nil_r.
  - destruct m. discriminate.
  - cbn [goto_loop] in Hrun.
    destruct (goto_step node t state b e acc) as [acc1|] eqn:E; [|discriminate].
    apply (Hstep walked) in E; [|exact Hinv].
    destruct fe.
    + destruct (IH1 _ _ _ E Hrun) as (out & Eout & Hout).
      exists ((b, e) :: out). rewrite <- app_assoc in Hout. split; [|exact Hout].
      change (option_map (cons (b, e)) (distinct_ranges ((e, true) :: rest))
              = Some ((b, e) :: out)).
      now rewrite Eout.
    + destruct (IH2 _ _ _ E Hrun) as (out & Eout & Hout).
      exists ((b, e) :: out). rewrite <- app_assoc in Hout. split; [|exact Hout].
      change (option_map (cons (b, e)) (distinct_ranges rest)
              = Some ((b, e) :: out)).
      now rewrite Eout.
Qed.

End Steps.

(** ** The states of a generated automaton *)

Lemma set_insert_states_in s states k :
  In k (map items_ (fst (set_insert state_compare s states)))
  <-> k = items_ s \/ In k (map items_ states).
Proof.
  rewrite (proj1 (set_insert_states s states)).
  apply (set_insert_in items_compare).
Qed.

Lemma set_insert_states_present s states :
  snd (set_insert state_compare s states) = false ->
  In (items_ s) (map items_ states).
Proof.
  rewrite (proj2 (set_insert_states s states)).
  apply (set_insert_present items_compare).
Qed.

Section AutomatonFacts.

Context `{Declarations}.

(** The goto state of a state with one item has one item or none. *)
Lemma goto_one_item node state item begin end_ :
  items_ state = [item] ->
  items_ (goto_ node state begin end_)
  = match next_nodes node item begin end_ with
    | [] => []
    | next => [next]
    end.
Proof.
  intros E. unfold goto_. rewrite E. simpl.
  now destruct (next_nodes node item begin end_).
Qed.

Lemma goto_fresh node state begin end_ :
  transitions_ (goto_ node state begin end_) = []
  /\ processed_ (goto_ node state begin end_) = false.
Proof.
  unfold goto_.
  assert (Hfold : forall items s,
             transitions_ s = [] /\ processed_ s = false ->
             transitions_
               (fold_left
                  (fun goto_state item =>
                     match next_nodes node item begin end_ with
                     | [] => goto_state
                     | next => add_item next goto_state
                     end) items s) = []
             /\ processed_
                  (fold_left
                     (fun goto_state item =>
                        match next_nodes node item begin end_ with
                        | [] => goto_state
                        | next => add_item next goto_state
                        end) items s) = false).
  { induction items as [|item items IH]; intros s Hs; simpl; [exact Hs|].
    apply IH. now destruct (next_nodes node item begin end_). }
  now apply Hfold.
Qed.

Lemma selected_symbol_select_token node state g sel g' :
  select_token node state g = Some (sel, g') ->
  selected_symbol node state = Some (symbol_of (sel_token sel)).
Proof.
  unfold selected_symbol. rewrite !select_token_accepting_tokens. intros E.
  destruct (fold_visit_any_generator _ _ _ _ _ (initial_generator false) E)
    as (g2 & ->).
  reflexivity.
Qed.

Lemma state_built_incl node keys keys' s :
  incl keys keys' -> state_built node keys s -> state_built node keys' s.
Proof.
  intros Hincl (H1 & H2 & H3). repeat split; try assumption.
  intros tr Htr. apply Hincl. now apply H3.
Qed.

Lemma state_built_add_transition node keys begin end_ target s :
  In target keys -> state_built node keys s ->
  state_built node keys (add_transition begin end_ target s).
Proof.
  intros Hin (H1 & H2 & H3). split; [exact H1|]. split; [exact H2|].
  simpl. intros tr Htr. apply set_insert_incl in Htr as [->|Htr];
    [exact Hin | now apply H3].
Qed.

Lemma states_built_goto_step node t start state begin end_ acc acc' :
  (exists item, items_ state = [item]) ->
  states_built node t start (fst acc) ->
  goto_step node t state begin end_ acc = Some acc' ->
  states_built node t start (fst acc').
Proof.
  destruct acc as [g added], acc' as [g' added']. simpl.
  intros (item & Eitem) (Hstart & Hin & Hall) Hrun.
  assert (Hstart' : get_start_state t g' = start).
  { rewrite <- Hstart. revert Hrun. unfold goto_step.
    destruct (items_ (goto_ node state begin end_)); [now intros [= <- <-]|].
    destruct (set_insert state_compare _ (get_states t g)) as [states inserted].
    destruct inserted.
    - destruct (generate_symbol_for_state node _ (set_states t states g))
        as [[goto_state' g2]|] eqn:Esym; [|discriminate].
      apply generate_symbol_for_state_result in Esym as [-> _].
      intros [= <- <-]. now destruct t.
    - intros [= <- <-]. now destruct t. }
  apply goto_step_cases in Hrun. cbv zeta in Hrun.
  destruct Hrun as [(_ & -> & _)|[(Hne & Hins & _ & sel & g0 & g2 & Hsel & Eg')
                                  |(Hne & Hins & _ & Eg')]].
  - repeat split; assumption.
  - set (goto_state := goto_ node state begin end_) in *.
    set (goto_state' := set_symbol (symbol_of (sel_token sel)) goto_state) in *.
    set (states1 := fst (set_insert state_compare goto_state' (get_states t g)))
      in *.
    assert (Hkeys : map items_ (get_states t g') = map items_ states1)
      by (rewrite Eg'; now apply update_state_items).
    assert (Hincl : incl (map items_ (get_states t g)) (map items_ states1)).
    { intros k Hk. apply set_insert_states_in. now right. }
    assert (Htarget : In (items_ goto_state) (map items_ states1)).
    { apply set_insert_states_in. now left. }
    split; [exact Hstart'|]. rewrite Hkeys.
    split; [intros k Hk; apply Hincl; now apply Hin|].
    assert (Hall1 : Forall (state_built node (map items_ states1)) states1).
    { apply set_insert_Forall.
      - split; [|split].
        + unfold goto_state', goto_state. simpl.
          rewrite (goto_one_item node state item begin end_ Eitem).
          unfold goto_state in Hne.
          rewrite (goto_one_item node state item begin end_ Eitem) in Hne.
          destruct (next_nodes node item begin end_) as [|i next];
            [contradiction | now eexists].
        + apply (selected_symbol_select_token node goto_state g0 sel g2 Hsel).
        + unfold goto_state', goto_state. simpl.
          rewrite (proj1 (goto_fresh node state begin end_)). intros tr [].
      - rewrite Forall_forall in Hall |- *. intros s Hs.
        apply (state_built_incl node _ _ s Hincl). now apply Hall. }
    rewrite Eg'. apply update_state_Forall; [exact Hall1|].
    intros s Hs _. apply state_built_add_transition; [exact Htarget|].
    rewrite Forall_forall in Hall1. now apply Hall1.
  - assert (Hkeys : map items_ (get_states t g') = map items_ (get_states t g))
      by (rewrite Eg'; now apply update_state_items).
    split; [exact Hstart'|]. rewrite Hkeys. split; [exact Hin|].
    rewrite Eg'. apply update_state_Forall; [exact Hall|].
    intros s Hs _. apply state_built_add_transition.
    + now apply set_insert_states_present.
    + rewrite Forall_forall in Hall. now apply Hall.
Qed.

Lemma selected_symbol_items node s1 s2 :
  items_ s1 = items_ s2 -> selected_symbol node s1 = selected_symbol node s2.
Proof. intros E. unfold selected_symbol, select_token. now rewrite E. Qed.

Lemma state_built_fields node keys s1 s2 :
  items_ s2 = items_ s1 -> symbol_ s2 = symbol_ s1 ->
  transitions_ s2 = transitions_ s1 ->
  state_built node keys s1 -> state_built node keys s2.
Proof.
  intros E1 E2 E3 (H1 & H2 & H3). unfold state_built.
  rewrite E1, E2, E3, (selected_symbol_items node s2 s1 E1). auto.
Qed.

Lemma states_built_update node t start k f g :
  (forall s, items_ (f s) = items_ s /\ symbol_ (f s) = symbol_ s
             /\ transitions_ (f s) = transitions_ s) ->
  states_built node t start g ->
  states_built node t start
    (set_states t (update_state k f (get_states t g)) g).
Proof.
  intros Hf (Hstart & Hin & Hall). unfold states_built.
  rewrite get_set_states, update_state_items; [|intros s _; apply Hf].
  split; [now destruct t|]. split; [exact Hin|].
  apply update_state_Forall; [exact Hall|].
  intros s Hs _. destruct (Hf s) as (E1 & E2 & E3).
  apply (state_built_fields node _ s); try assumption.
  rewrite Forall_forall in Hall. now apply Hall.
Qed.

Lemma states_built_process_state node t start state acc acc' :
  states_built node t start (fst acc) ->
  find_state (items_ state) (get_states t (fst acc)) = Some state ->
  processed_ state = false ->
  process_state node t state acc = Some acc' ->
  states_built node t start (fst acc').
Proof.
  destruct acc as [g added]. unfold process_state. simpl.
  intros Hg Hfind _ Hrun.
  assert (Hitem : exists item, items_ state = [item]).
  { destruct Hg as (_ & _ & Hall). rewrite Forall_forall in Hall.
    apply find_some in Hfind as [Hin _]. now destruct (Hall state Hin). }
  apply (goto_loop_invariant (states_built node t start) node t state) in Hrun;
    [exact Hrun | |].
  - intros begin end_ acc0 acc1. now apply states_built_goto_step.
  - simpl.
    apply (states_built_update node t start (items_ state) (set_processed true))
      in Hg; [|now intros s].
    destruct Hg as (H1 & H2 & H3). split; [|split].
    + now destruct t.
    + intros k Hk. specialize (H2 k Hk). now destruct t.
    + now destruct t.
Qed.

Lemma set_indices_Forall (P : LexerState -> Prop) states : forall index,
  (forall s i, P s -> P (set_index i s)) ->
  Forall P states -> Forall P (fst (set_indices index states)).
Proof.
  induction states as [|s rest IH]; intros index HP Hall; simpl; [constructor|].
  inversion Hall; subst. specialize (IH (index + 1) HP H3).
  destruct (set_indices (index + 1) rest). simpl in *.
  constructor; [now apply HP | exact IH].
Qed.

Lemma states_built_generate_indices node t start g :
  states_built node t start g ->
  states_built node t start (generate_indices_for_states g).
Proof.
  intros (Hstart & Hin & Hall).
  destruct (frame_generate_indices t g) as (_ & _ & _ & Es & index & Eg).
  unfold states_built. rewrite Es, Eg, set_indices_items.
  split; [exact Hstart|]. split; [exact Hin|].
  apply set_indices_Forall; [|exact Hall].
  intros s i. now apply state_built_fields.
Qed.

(** The states of the set when [generate_states] returns: the start state is
    the state of the first positions, or null when generation is skipped. *)
Lemma generate_states_built fuel regex_parser t g g' :
  generate_states_pre t g = true ->
  generate_states fuel regex_parser t g = Some g' ->
  states_built (node_at regex_parser) t
    (if negb (parser_empty regex_parser) && (parser_errors regex_parser =? 0)
     then Some [first_positions regex_parser] else None) g'.
Proof.
  unfold generate_states_pre, generate_states. intros Hpre.
  destruct (get_states t g) as [|s0 l0] eqn:Hstates; [|discriminate].
  destruct (get_start_state t g) eqn:Hstart; [discriminate|].
  destruct (negb (parser_empty regex_parser) && (parser_errors regex_parser =? 0)).
  - unfold generate_symbol_for_state.
    destruct (select_token _ _ g) as [[sel g1]|] eqn:Esel; [|discriminate].
    destruct (while_added fuel _ t _) as [g2|] eqn:Erun; [|discriminate].
    intros [= <-]. apply states_built_generate_indices.
    apply (while_added_invariant
             (states_built (node_at regex_parser) t
                (Some [first_positions regex_parser])) _ t) in Erun;
      [exact Erun | apply states_built_process_state|].
    pose proof (selected_symbol_select_token _ _ _ _ _ Esel) as Hsym.
    rewrite select_token_accepting_tokens in Esel.
    apply fold_visit_members in Esel.
    assert (Hg1 : get_states t g1 = []) by (rewrite Esel; now destruct t).
    unfold states_built. rewrite Hg1. simpl set_insert. cbn [fst].
    split; [now destruct t|].
    assert (get_states t
              (set_start_state t
                 (Some (items_ (set_symbol (symbol_of (sel_token sel))
                                  (add_item (first_positions regex_parser)
                                     new_LexerState))))
                 (set_states t
                    [set_symbol (symbol_of (sel_token sel))
                       (add_item (first_positions regex_parser) new_LexerState)]
                    g1))
            = [set_symbol (symbol_of (sel_token sel))
                 (add_item (first_positions regex_parser) new_LexerState)])
      as -> by now destruct t.
    split; [intros k [= <-]; now left|].
    constructor; [|constructor]. split; [now eexists|]. split; [exact Hsym|].
    intros tr [].
  - intros [= <-]. apply states_built_generate_indices.
    unfold states_built. rewrite Hstates, Hstart.
    split; [reflexivity|]. split; [discriminate | constructor].
Qed.

(** X9.  When [generate_states] returns, every state of the set it was
    handed has exactly one item, and its symbol is the symbol that
    [generate_symbol_for_state] selects for its items: no later step has
    changed it. *)
Theorem generate_states_items_and_symbols fuel regex_parser t g g' :
  generate_states_pre t g = true ->
  generate_states fuel regex_parser t g = Some g' ->
  forall s, In s (get_states t g') ->
    (exists item, items_ s = [item])
    /\ selected_symbol (node_at regex_parser) s = Some (symbol_ s).
Proof.
  intros Hpre Hrun s Hs.
  destruct (generate_states_built _ _ _ _ _ Hpre Hrun) as (_ & _ & Hall).
  rewrite Forall_forall in Hall. destruct (Hall s Hs) as (H1 & H2 & _).
  now split.
Qed.

(** X10.  When [generate_states] returns, the pointers it has stored lead
    into the set it was handed: the start state is the state of the first
    positions of the parser - or null when generation was skipped - and the
    target of every transition of every state is a state of the set. *)
Theorem generate_states_closed fuel regex_parser t g g' :
  generate_states_pre t g = true ->
  generate_states fuel regex_parser t g = Some g' ->
  get_start_state t g'
  = (if negb (parser_empty regex_parser) && (parser_errors regex_parser =? 0)
     then Some [first_positions regex_parser] else None)
  /\ (forall k, get_start_state t g' = Some k ->
        exists s, find_state k (get_states t g') = Some s)
  /\ (forall s tr, In s (get_states t g') -> In tr (transitions_ s) ->
        exists s', find_state (transition_state tr) (get_states t g') = Some s').
Proof.
  intros Hpre Hrun.
  destruct (generate_states_built _ _ _ _ _ Hpre Hrun) as (Hstart & Hin & Hall).
  assert (Hfind : forall k, In k (map items_ (get_states t g')) ->
                    exists s, find_state k (get_states t g') = Some s).
  { intros k Hk. apply in_map_iff in Hk as (s & Hs & Hk).
    now apply (find_state_present k _ s). }
  split; [exact Hstart|]. split.
  - intros k Hk. apply Hfind, Hin. now rewrite <- Hstart.
  - intros s tr Hs Htr. apply Hfind.
    rewrite Forall_forall in Hall. destruct (Hall s Hs) as (_ & _ & H3).
    now apply H3.
Qed.

End AutomatonFacts.

Lemma generate_states_items_and_symbols_witness :
  exists g',
    @generate_states example_declarations 10 x_parser TokenStates
      (initial_generator true) = Some g'
    /\ forall s, In s (states_ g') ->
         (exists item, items_ s = [item])
         /\ @selected_symbol example_declarations (node_at x_parser) s
            = Some (symbol_ s).
Proof.
  destruct (@generate_states example_declarations 10 x_parser TokenStates
              (initial_generator true)) as [g'|] eqn:E;
    [|vm_compute in E; discriminate].
  exists g'. split; [reflexivity|].
  exact (@generate_states_items_and_symbols example_declarations 10 x_parser
           TokenStates (initial_generator true) g' eq_refl E).
Defined.

Lemma generate_states_closed_witness :
  exists g',
    @generate_states example_declarations 10 x_parser TokenStates
      (initial_generator true) = Some g'
    /\ start_state_ g' = Some [[0%nat]]
    /\ exists s, find_state [[0%nat]] (states_ g') = Some s.
Proof.
  destruct (@generate_states example_declarations 10 x_parser TokenStates
              (initial_generator true)) as [g'|] eqn:E;
    [|vm_compute in E; discriminate].
  exists g'. split; [reflexivity|].
  destruct (@generate_states_closed example_declarations 10 x_parser
              TokenStates (initial_generator true) g' eq_refl E)
    as (Hstart & Hfind & _).
  split; [exact Hstart|]. apply Hfind. exact Hstart.
Defined.

(** ** Every state is processed *)

Lemma sorted_states_NoDup states :
  sorted_states states -> NoDup (map items_ states).
Proof.
  unfold sorted_states, sorted_set. intros Hs.
  induction Hs as [|k l Hl IH Hk]; constructor; [|exact IH].
  intros Hin. rewrite Forall_forall in Hk. specialize (Hk k Hin).
  rewrite (compare_refl items_compare) in Hk. discriminate.
Qed.

Lemma sorted_states_unique states s1 s2 :
  sorted_states states -> In s1 states -> In s2 states ->
  items_ s1 = items_ s2 -> s1 = s2.
Proof.
  intros Hs. apply sorted_states_NoDup in Hs.
  induction states as [|s l IH]; simpl; [contradiction|].
  simpl in Hs. inversion Hs as [|k l' Hnot Hnodup]; subst.
  intros [<-|H1] [<-|H2] E.
  - reflexivity.
  - exfalso. apply Hnot. rewrite E. now apply in_map.
  - exfalso. apply Hnot. rewrite <- E. now apply in_map.
  - now apply IH.
Qed.

Lemma pending_ext passed passed' states states' :
  map (fun s => negb (processed_ s) && passed s) states
  = map (fun s => negb (processed_ s) && passed' s) states' ->
  pending passed states = pending passed' states'.
Proof.
  unfold pending. intros E. f_equal. revert states' E.
  induction states as [|s l IH]; intros [|s' l'] E; simpl in *;
    try discriminate; [reflexivity|].
  inversion E as [[E1 E2]]. rewrite E1.
  destruct (negb (processed_ s') && passed' s'); simpl; now rewrite (IH l' E2).
Qed.

Lemma pending_update passed k f states :
  (forall s, passed (f s) = passed s /\ processed_ (f s) = processed_ s) ->
  pending passed (update_state k f states) = pending passed states.
Proof.
  intros Hf. apply pending_ext.
  induction states as [|s l IH]; simpl; [reflexivity|].
  destruct (same_items k s); simpl; [|now rewrite IH].
  destruct (Hf s) as [-> ->]. reflexivity.
Qed.

Lemma pending_insert passed x states :
  pending passed (fst (set_insert state_compare x states))
  <= pending passed states + 1.
Proof.
  unfold pending. induction states as [|y l IH]; simpl.
  - destruct (negb (processed_ x) && passed x); simpl; lia.
  - destruct (state_compare x y); simpl.
    + lia.
    + destruct (negb (processed_ x) && passed x); simpl; lia.
    + destruct (set_insert state_compare x l) as [l' b]. simpl in *.
      destruct (negb (processed_ y) && passed y); simpl; lia.
Qed.

Lemma pending_nonnegative passed states : 0 <= pending passed states.
Proof. unfold pending. lia. Qed.

Lemma pending_none states :
  pending (before None) states <= 0 ->
  forall s, In s states -> processed_ s = true.
Proof.
  unfold pending. intros Hle s Hs.
  destruct (processed_ s) eqn:Hp; [reflexivity|].
  assert (Hin : In s (filter (fun s => negb (processed_ s) && before None s)
                        states)).
  { apply filter_In. split; [exact Hs|]. now rewrite Hp. }
  destruct (filter _ states); [contradiction | simpl in Hle; lia].
Qed.

(** The state that [++i] leads to: the states below it are the states up to
    the one it leaves. *)
Lemma next_state_passed k states :
  sorted_states states ->
  forall s, In s states -> before (next_state k states) s = upto k s.
Proof.
  unfold sorted_states, sorted_set, next_state.
  induction states as [|y l IH]; intros Hs s Hin; [contradiction|].
  simpl in Hs. inversion Hs as [|y' l' Hl Hy]; subst.
  rewrite Forall_forall in Hy. cbn [find].
  destruct (items_compare k (items_ y)) eqn:Eky.
  - (* the state left is [y] *)
    apply (compare_eq_iff (cmp := items_compare)) in Eky. subst k.
    destruct Hin as [<-|Hin].
    + unfold upto. rewrite (compare_refl items_compare).
      destruct (find _ l) as [s'|] eqn:Ef; simpl; [|reflexivity].
      apply find_some in Ef as [Hs' _].
      now rewrite (Hy (items_ s') (in_map items_ _ _ Hs')).
    + now apply IH.
  - (* [y] is above *)
    simpl. unfold upto.
    destruct Hin as [<-|Hin].
    + rewrite (compare_refl items_compare).
      rewrite (compare_antisym k (items_ y)), Eky. reflexivity.
    + pose proof (Hy (items_ s) (in_map items_ _ _ Hin)) as Hys.
      rewrite (compare_antisym (items_ y) (items_ s)), Hys. simpl.
      pose proof (compare_trans (cmp := items_compare) _ _ _ Eky Hys) as Hks.
      rewrite (compare_antisym k (items_ s)), Hks. reflexivity.
  - (* [y] is below *)
    destruct Hin as [<-|Hin]; [|now apply IH].
    unfold upto. rewrite (compare_antisym k (items_ y)), Eky. simpl.
    destruct (find _ l) as [s'|] eqn:Ef; simpl; [|reflexivity].
    apply find_some in Ef as [Hs' _].
    now rewrite (Hy (items_ s') (in_map items_ _ _ Hs')).
Qed.

Lemma pending_next_state k states :
  sorted_states states ->
  pending (before (next_state k states)) states = pending (upto k) states.
Proof.
  intros Hs. apply pending_ext. apply map_ext_in. intros s Hin.
  now rewrite (next_state_passed k states Hs s Hin).
Qed.

(** Before the first state there is none. *)
Lemma pending_first states :
  sorted_states states ->
  pending (before (option_map items_ (hd_error states))) states = 0.
Proof.
  destruct states as [|y l]; [reflexivity|]. simpl.
  unfold sorted_states, sorted_set. simpl. intros Hs.
  inversion Hs as [|y' l' Hl Hy]; subst. rewrite Forall_forall in Hy.
  unfold pending. simpl. rewrite (compare_refl items_compare).
  rewrite andb_false_r.
  assert (Hnone : forall s, In s l ->
             negb (processed_ s)
             && match items_compare (items_ s) (items_ y) with
                | Lt => true
                | _ => false
                end = false).
  { intros s Hin. pose proof (Hy (items_ s) (in_map items_ _ _ Hin)) as Hys.
    rewrite (compare_antisym (items_ y) (items_ s)), Hys.
    apply andb_false_r. }
  clear Hs Hl Hy. induction l as [|s l IH]; [reflexivity|].
  simpl. rewrite (Hnone s (or_introl eq_refl)). apply IH.
  intros s' Hs'. apply Hnone. now right.
Qed.

(** Marking the state at the iterator: the states up to it that are left to
    process are those that were left below it. *)
Lemma pending_set_processed k states s :
  sorted_states states -> find_state k states = Some s ->
  pending (upto k) (update_state k (set_processed true) states)
  = pending (before (Some k)) states.
Proof.
  intros Hs Hfind.
  pose proof (sorted_states_NoDup states Hs) as Hnodup.
  destruct (update_state_found k (set_processed true) states s Hfind)
    as (l1 & l2 & E & -> & Hk).
  subst states. apply pending_ext. rewrite !map_app. simpl.
  rewrite Hk, (compare_refl items_compare), andb_false_r.
  rewrite map_app in Hnodup. simpl in Hnodup.
  apply NoDup_remove_2 in Hnodup.
  assert (Hother : forall l, (forall x, In x l -> items_ x <> k) ->
            map (fun s => negb (processed_ s) && upto k s) l
            = map (fun s => negb (processed_ s) && before (Some k) s) l).
  { intros l Hl. apply map_ext_in. intros x Hx. f_equal.
    unfold upto, before.
    destruct (items_compare (items_ x) k) eqn:E; try reflexivity.
    apply (compare_eq_iff (cmp := items_compare)) in E.
    now apply Hl in Hx. }
  rewrite (Hother l1), (Hother l2); [reflexivity| |].
  - intros x Hx E. apply Hnodup. apply in_or_app. right.
    rewrite Hk, <- E. now apply in_map.
  - intros x Hx E. apply Hnodup. apply in_or_app. left.
    rewrite Hk, <- E. now apply in_map.
Qed.

(** A state that is processed does not count. *)
Lemma pending_processed k states s :
  sorted_states states -> find_state k states = Some s ->
  processed_ s = true ->
  pending (upto k) states = pending (before (Some k)) states.
Proof.
  intros Hs Hfind Hp. apply pending_ext. apply map_ext_in. intros x Hx.
  unfold upto, before.
  destruct (items_compare (items_ x) k) eqn:E; try reflexivity.
  apply (compare_eq_iff (cmp := items_compare)) in E.
  apply find_some in Hfind as [Hin Hsame]. apply same_items_iff in Hsame.
  assert (x = s) as -> by (apply (sorted_states_unique states); congruence).
  now rewrite Hp.
Qed.

Section AllProcessed.

Context `{Declarations}.

Variable node : nat -> RegexNode.
Variable t : Target.

Lemma counted_goto_step passed state begin end_ acc acc' :
  (forall s1 s2, items_ s1 = items_ s2 -> passed s1 = passed s2) ->
  counted t passed acc ->
  goto_step node t state begin end_ acc = Some acc' ->
  counted t passed acc'.
Proof.
  destruct acc as [g added], acc' as [g' added']. unfold counted. simpl.
  intros Hpassed [Hs Hle] Hrun.
  apply goto_step_cases in Hrun. cbv zeta in Hrun.
  destruct Hrun as [(_ & -> & ->)|[(_ & _ & -> & sel & g0 & g2 & _ & ->)
                                  |(_ & _ & -> & ->)]].
  - now split.
  - split.
    + apply sorted_states_update; [reflexivity|]. now apply sorted_states_insert.
    + rewrite pending_update; [|intros s; split; [now apply Hpassed | reflexivity]].
      pose proof (pending_insert passed
                    (set_symbol (symbol_of (sel_token sel))
                       (goto_ node state begin end_)) (get_states t g)).
      lia.
  - split.
    + now apply sorted_states_update.
    + rewrite pending_update; [exact Hle|].
      intros s; split; [now apply Hpassed | reflexivity].
Qed.

Lemma upto_items k s1 s2 : items_ s1 = items_ s2 -> upto k s1 = upto k s2.
Proof. unfold upto. now intros ->. Qed.

Lemma counted_process_state state acc acc' :
  counted t (before (Some (items_ state))) acc ->
  find_state (items_ state) (get_states t (fst acc)) = Some state ->
  process_state node t state acc = Some acc' ->
  counted t (upto (items_ state)) acc'.
Proof.
  destruct acc as [g added]. unfold process_state. simpl.
  intros [Hs Hle] Hfind Hrun. simpl in Hs, Hle.
  destruct (goto_loop_walk node t state
              (fun _ acc0 => counted t (upto (items_ state)) acc0)) with
    (ranges := insert_ranges node state (clear (ranges_ g)))
    (walked := @nil (Z * Z))
    (acc := (set_ranges (insert_ranges node state (clear (ranges_ g)))
               (set_states t
                  (update_state (items_ state) (set_processed true)
                     (get_states t g)) g), added))
    (acc' := acc') as (out & _ & Hout).
  - intros walked begin end_ acc0 acc1.
    apply counted_goto_step. apply upto_items.
  - unfold counted. cbn [fst snd].
    assert (get_states t
              (set_ranges (insert_ranges node state (clear (ranges_ g)))
                 (set_states t
                    (update_state (items_ state) (set_processed true)
                       (get_states t g)) g))
            = update_state (items_ state) (set_processed true) (get_states t g))
      as -> by now destruct t.
    split; [now apply sorted_states_update|].
    now rewrite (pending_set_processed _ _ state Hs Hfind).
  - exact Hrun.
  - exact Hout.
Qed.

Lemma counted_for_states fuel : forall i acc acc',
  counted t (before i) acc ->
  for_states fuel node t i acc = Some acc' ->
  counted t (before None) acc'.
Proof.
  induction fuel as [|fuel IH]; intros i acc acc' Hacc Hrun; [discriminate|].
  cbn [for_states] in Hrun. destruct i as [k|]; [|inversion Hrun; now subst].
  destruct (find_state k (get_states t (fst acc))) as [state|] eqn:Hfind;
    [|discriminate].
  assert (Hk : items_ state = k).
  { apply find_some in Hfind as [_ Hsame]. now apply same_items_iff. }
  assert (Hnext : forall acc1,
            counted t (upto k) acc1 ->
            for_states fuel node t (next_state k (get_states t (fst acc1))) acc1
            = Some acc' ->
            counted t (before None) acc').
  { intros acc1 [Hs1 Hle1]. apply IH. split; [exact Hs1|].
    now rewrite pending_next_state. }
  destruct (processed_ state) eqn:Hp.
  - apply (Hnext acc); [|exact Hrun].
    destruct Hacc as [Hs Hle]. split; [exact Hs|].
    now rewrite (pending_processed k _ state Hs Hfind Hp).
  - destruct (process_state node t state acc) as [acc1|] eqn:E; [|discriminate].
    apply (Hnext acc1); [|exact Hrun]. rewrite <- Hk.
    apply (counted_process_state state acc); [now rewrite Hk | now rewrite Hk|].
    exact E.
Qed.

Lemma while_added_processed fuel : forall g g',
  sorted_states (get_states t g) ->
  while_added fuel node t g = Some g' ->
  sorted_states (get_states t g')
  /\ forall s, In s (get_states t g') -> processed_ s = true.
Proof.
  induction fuel as [|fuel IH]; intros g g' Hs Hrun; [discriminate|].
  cbn [while_added] in Hrun.
  destruct (for_states fuel node t _ (g, 0)) as [[g1 added]|] eqn:E;
    [|discriminate].
  apply counted_for_states in E.
  - destruct E as [Hs1 Hle1]. simpl in Hs1, Hle1.
    destruct (added >? 0) eqn:Ea.
    + now apply (IH g1 g' Hs1).
    + inversion Hrun; subst. split; [exact Hs1|].
      apply pending_none. lia.
  - split; [exact Hs|]. cbn [fst snd]. rewrite (pending_first _ Hs). lia.
Qed.

End AllProcessed.

Section AllProcessedAtReturn.

Context `{Declarations}.

Lemma generate_states_processed fuel regex_parser t g g' :
  generate_states_pre t g = true ->
  generate_states fuel regex_parser t g = Some g' ->
  forall s, In s (get_states t g') -> processed_ s = true.
Proof.
  intros Hpre. unfold generate_states_pre in Hpre.
  destruct (get_states t g) as [|s0 l0] eqn:Hstates; [|discriminate].
  unfold generate_states.
  assert (Hidx : forall g0,
            (forall s, In s (get_states t g0) -> processed_ s = true) ->
            forall s, In s (get_states t (generate_indices_for_states g0)) ->
                      processed_ s = true).
  { intros g0 Hall.
    destruct (frame_generate_indices t g0) as (_ & _ & _ & _ & index & ->).
    apply Forall_forall. apply set_indices_Forall; [now intros s i|].
    now apply Forall_forall. }
  destruct (negb (parser_empty regex_parser) && (parser_errors regex_parser =? 0)).
  - destruct (generate_symbol_for_state _ _ g) as [[state' g1]|] eqn:Esym;
      [|discriminate].
    apply generate_symbol_for_state_result in Esym as [Eg1 (symbol & ->)].
    destruct (while_added fuel _ t _) as [g2|] eqn:Erun; [|discriminate].
    intros [= <-]. apply Hidx.
    assert (Hg1 : get_states t g1 = []) by (rewrite Eg1; now destruct t).
    rewrite Hg1 in Erun. simpl set_insert in Erun. cbn [fst] in Erun.
    apply while_added_processed in Erun; [apply Erun|].
    assert (get_states t
                (set_start_state t
                   (Some (items_ (set_symbol symbol
                                    (add_item (first_positions regex_parser)
                                       new_LexerState))))
                   (set_states t
                      [set_symbol symbol
                         (add_item (first_positions regex_parser) new_LexerState)]
                      g1))
              = [set_symbol symbol
                   (add_item (first_positions regex_parser) new_LexerState)])
        as -> by now destruct t.
    unfold sorted_states, sorted_set. simpl. repeat constructor.
  - intros [= <-]. apply Hidx. rewrite Hstates. intros s [].
Qed.

(** X11.  When [generate_states], called on an empty set, returns, every
    state of the set is processed: the loop over the set does not end while
    a state that was inserted is left to visit. *)
Theorem generate_states_all_processed fuel regex_parser t g g' :
  generate_states_pre t g = true ->
  generate_states fuel regex_parser t g = Some g' ->
  forall s, In s (get_states t g') -> processed_ s = true.
Proof. apply generate_states_processed. Qed.

End AllProcessedAtReturn.

Lemma generate_states_all_processed_witness :
  exists g',
    @generate_states example_declarations 10 x_parser TokenStates
      (initial_generator true) = Some g'
    /\ forall s, In s (states_ g') -> processed_ s = true.
Proof.
  destruct (@generate_states example_declarations 10 x_parser TokenStates
              (initial_generator true)) as [g'|] eqn:E;
    [|vm_compute in E; discriminate].
  exists g'. split; [reflexivity|].
  exact (@generate_states_all_processed example_declarations 10 x_parser
           TokenStates (initial_generator true) g' eq_refl E).
Defined.

(** ** The transitions of a state *)

Lemma update_state_Forall_unique (P : LexerState -> Prop) k f states :
  NoDup (map items_ states) ->
  (forall s, In s states -> items_ s = k -> P (f s)) ->
  (forall s, In s states -> items_ s <> k -> P s) ->
  (forall s, items_ (f s) = items_ s) ->
  Forall P (update_state k f states).
Proof.
  intros Hnodup Hk Hother Hf. induction states as [|s l IH]; simpl; [constructor|].
  simpl in Hnodup. inversion Hnodup as [|k' l' Hnot Hl]; subst.
  destruct (same_items k s) eqn:E.
  - apply same_items_iff in E. constructor; [apply Hk; [now left | exact E]|].
    apply Forall_forall. intros x Hx. apply Hother; [now right|].
    intros Ex. apply Hnot. rewrite E, <- Ex. now apply in_map.
  - constructor.
    + apply Hother; [now left|]. intros Es. apply same_items_iff in Es.
      congruence.
    + apply IH; [exact Hl | |].
      * intros x Hx. apply Hk. now right.
      * intros x Hx. apply Hother. now right.
Qed.

Lemma transitions_of_items node s1 s2 :
  items_ s1 = items_ s2 -> transitions_of node s1 = transitions_of node s2.
Proof.
  intros E. unfold transitions_of, insert_ranges. rewrite E.
  destruct (distinct_ranges _) as [out|]; [|reflexivity].
  assert (Hadd : forall trs r, add_goto node s1 trs r = add_goto node s2 trs r)
    by (intros trs r; unfold add_goto, goto_; now rewrite E).
  generalize (@nil LexerTransition).
  induction out as [|r out IH]; intros trs; simpl; [reflexivity|].
  now rewrite Hadd, IH.
Qed.

Lemma settled_fields node s1 s2 :
  items_ s2 = items_ s1 -> processed_ s2 = processed_ s1 ->
  transitions_ s2 = transitions_ s1 -> settled node s1 -> settled node s2.
Proof.
  unfold settled. intros E1 E2 E3. rewrite E2, E3.
  now rewrite (transitions_of_items node s2 s1 E1).
Qed.

Section Transitions.

Context `{Declarations}.

Variable node : nat -> RegexNode.
Variable t : Target.

Lemma settling_goto_step state transitions begin end_ acc acc' :
  settling node t (items_ state) transitions (fst acc) ->
  goto_step node t state begin end_ acc = Some acc' ->
  settling node t (items_ state)
    (add_goto node state transitions (begin, end_)) (fst acc').
Proof.
  destruct acc as [g added], acc' as [g' added']. simpl.
  intros (Hs & Hin & Hall) Hrun.
  apply goto_step_cases in Hrun. cbv zeta in Hrun.
  unfold settling, add_goto. cbn [fst snd].
  destruct Hrun as [(Hnil & -> & _)|[(Hne & Hins & _ & sel & g0 & g2 & _ & Eg')
                                    |(Hne & Hins & _ & Eg')]].
  - rewrite Hnil. repeat split; assumption.
  - set (goto_state := goto_ node state begin end_) in *.
    set (goto_state' := set_symbol (symbol_of (sel_token sel)) goto_state) in *.
    set (states1 := fst (set_insert state_compare goto_state' (get_states t g)))
      in *.
    assert (Hs1 : sorted_states states1) by now apply sorted_states_insert.
    assert (Hnew : ~ In (items_ goto_state) (map items_ (get_states t g))).
    { apply (set_insert_inserted items_compare); [exact Hs|].
      now rewrite <- (proj2 (set_insert_states goto_state (get_states t g))). }
    assert (Hall1 : Forall (fun s => if same_items (items_ state) s
                                     then processed_ s = true
                                          /\ transitions_ s = transitions
                                     else settled node s) states1).
    { apply set_insert_Forall; [|exact Hall].
      destruct (same_items (items_ state) goto_state') eqn:E.
      - apply same_items_iff in E. exfalso. apply Hnew.
        change (items_ goto_state') with (items_ goto_state) in E.
        now rewrite E.
      - unfold settled, goto_state', goto_state. simpl.
        destruct (goto_fresh node state begin end_) as [-> ->]. reflexivity. }
    rewrite Eg'. split; [|split].
    + now apply sorted_states_update.
    + rewrite update_state_items; [|reflexivity].
      apply set_insert_states_in. now right.
    + rewrite Forall_forall in Hall1.
      apply update_state_Forall_unique;
        [now apply sorted_states_NoDup | | |reflexivity].
      * intros s Hin' Hk. specialize (Hall1 s Hin').
        assert (Esame : same_items (items_ state) s = true)
          by now apply same_items_iff.
        assert (Esame' : same_items (items_ state)
                           (add_transition begin end_ (items_ goto_state) s)
                         = true) by now apply same_items_iff.
        rewrite Esame in Hall1. rewrite Esame'. destruct Hall1 as [Hp Htr].
        split; [exact Hp|]. simpl. rewrite Htr.
        destruct (items_ goto_state); [contradiction | reflexivity].
      * intros s Hin' Hk. specialize (Hall1 s Hin').
        destruct (same_items (items_ state) s) eqn:Esame; [|exact Hall1].
        now apply same_items_iff in Esame.
  - rewrite Eg'. split; [|split].
    + now apply sorted_states_update.
    + now rewrite update_state_items.
    + rewrite Forall_forall in Hall.
      apply update_state_Forall_unique;
        [now apply sorted_states_NoDup | | |reflexivity].
      * intros s Hin' Hk. specialize (Hall s Hin').
        assert (Esame : same_items (items_ state) s = true)
          by now apply same_items_iff.
        assert (Esame' : same_items (items_ state)
                           (add_transition begin end_
                              (items_ (goto_ node state begin end_)) s)
                         = true) by now apply same_items_iff.
        rewrite Esame in Hall. rewrite Esame'. destruct Hall as [Hp Htr].
        split; [exact Hp|]. simpl. rewrite Htr.
        destruct (items_ (goto_ node state begin end_));
          [contradiction | reflexivity].
      * intros s Hin' Hk. specialize (Hall s Hin').
        destruct (same_items (items_ state) s) eqn:Esame; [|exact Hall].
        now apply same_items_iff in Esame.
Qed.

Lemma transitions_settled_process_state state acc acc' :
  transitions_settled node t (fst acc) ->
  find_state (items_ state) (get_states t (fst acc)) = Some state ->
  processed_ state = false ->
  process_state node t state acc = Some acc' ->
  transitions_settled node t (fst acc').
Proof.
  destruct acc as [g added]. unfold process_state. simpl.
  intros [Hs Hall] Hfind Hp Hrun.
  destruct (goto_loop_walk node t state
              (fun walked acc0 =>
                 settling node t (items_ state)
                   (fold_left (add_goto node state) walked []) (fst acc0))) with
    (ranges := insert_ranges node state (clear (ranges_ g)))
    (walked := @nil (Z * Z))
    (acc := (set_ranges (insert_ranges node state (clear (ranges_ g)))
               (set_states t
                  (update_state (items_ state) (set_processed true)
                     (get_states t g)) g), added))
    (acc' := acc') as (out & Eout & Hout).
  - intros walked begin end_ acc0 acc1 Hacc0 Hstep.
    rewrite fold_left_app. simpl.
    now apply (settling_goto_step state _ begin end_ acc0).
  - unfold settling. cbn [fst fold_left].
    assert (get_states t
              (set_ranges (insert_ranges node state (clear (ranges_ g)))
                 (set_states t
                    (update_state (items_ state) (set_processed true)
                       (get_states t g)) g))
            = update_state (items_ state) (set_processed true) (get_states t g))
      as -> by now destruct t.
    split; [|split].
    + now apply sorted_states_update.
    + rewrite update_state_items; [|reflexivity].
      apply find_some in Hfind as [Hin _]. now apply in_map.
    + rewrite Forall_forall in Hall.
      apply update_state_Forall_unique;
        [now apply sorted_states_NoDup | | |reflexivity].
      * intros s Hin Hk.
        assert (Esame : same_items (items_ state) (set_processed true s) = true)
          by now apply same_items_iff.
        rewrite Esame. split; [reflexivity|]. simpl.
        assert (s = state) as ->.
        { apply (sorted_states_unique (get_states t g)); try assumption.
          now apply find_some in Hfind as [Hin' _]. }
        specialize (Hall state Hin). unfold settled in Hall.
        now rewrite Hp in Hall.
      * intros s Hin Hk.
        destruct (same_items (items_ state) s) eqn:Esame;
          [now apply same_items_iff in Esame | now apply Hall].
  - exact Hrun.
  - simpl in Hout. destruct Hout as (Hs' & _ & Hall').
    split; [exact Hs'|].
    rewrite Forall_forall in Hall' |- *. intros s Hin. specialize (Hall' s Hin).
    destruct (same_items (items_ state) s) eqn:Esame; [|exact Hall'].
    apply same_items_iff in Esame. destruct Hall' as [Hps Htr].
    unfold settled. rewrite Hps, Htr, (transitions_of_items node s state Esame).
    unfold transitions_of. unfold clear in *. now rewrite Eout.
Qed.

End Transitions.

Section TransitionsAtReturn.

Context `{Declarations}.

Lemma generate_states_settled fuel regex_parser t g g' :
  generate_states_pre t g = true ->
  generate_states fuel regex_parser t g = Some g' ->
  transitions_settled (node_at regex_parser) t g'.
Proof.
  intros Hpre. unfold generate_states_pre in Hpre.
  destruct (get_states t g) as [|s0 l0] eqn:Hstates; [|discriminate].
  unfold generate_states.
  assert (Hidx : forall g0,
            transitions_settled (node_at regex_parser) t g0 ->
            transitions_settled (node_at regex_parser) t
              (generate_indices_for_states g0)).
  { intros g0 [Hs Hall]. unfold transitions_settled.
    destruct (frame_generate_indices t g0) as (_ & _ & _ & _ & index & ->).
    split.
    - unfold sorted_states. now rewrite set_indices_items.
    - apply set_indices_Forall; [|exact Hall].
      intros s i. now apply settled_fields. }
  destruct (negb (parser_empty regex_parser) && (parser_errors regex_parser =? 0)).
  - destruct (generate_symbol_for_state _ _ g) as [[state' g1]|] eqn:Esym;
      [|discriminate].
    apply generate_symbol_for_state_result in Esym as [Eg1 (symbol & ->)].
    destruct (while_added fuel _ t _) as [g2|] eqn:Erun; [|discriminate].
    intros [= <-]. apply Hidx.
    assert (Hg1 : get_states t g1 = []) by (rewrite Eg1; now destruct t).
    rewrite Hg1 in Erun. simpl set_insert in Erun. cbn [fst] in Erun.
    apply (while_added_invariant
             (transitions_settled (node_at regex_parser) t) _ t) in Erun;
      [exact Erun | apply transitions_settled_process_state|].
    unfold transitions_settled.
    assert (get_states t
              (set_start_state t
                 (Some (items_ (set_symbol symbol
                                  (add_item (first_positions regex_parser)
                                     new_LexerState))))
                 (set_states t
                    [set_symbol symbol
                       (add_item (first_positions regex_parser) new_LexerState)]
                    g1))
            = [set_symbol symbol
                 (add_item (first_positions regex_parser) new_LexerState)])
      as -> by now destruct t.
    split; [unfold sorted_states, sorted_set; simpl; repeat constructor|].
    constructor; [reflexivity | constructor].
  - intros [= <-]. apply Hidx. unfold transitions_settled. rewrite Hstates.
    split; [constructor | constructor].
Qed.

(** X12.  When [generate_states], called on an empty set, returns, the
    transitions of every state of the set are a function of the items of the
    state: the transitions to the goto states of the state on the distinct
    ranges of its next nodes, whenever the state was found and whatever was
    in the set then. *)
Theorem generate_states_transitions fuel regex_parser t g g' :
  generate_states_pre t g = true ->
  generate_states fuel regex_parser t g = Some g' ->
  forall s, In s (get_states t g') ->
    transitions_ s = transitions_of (node_at regex_parser) s.
Proof.
  intros Hpre Hrun s Hs.
  destruct (generate_states_settled _ _ _ _ _ Hpre Hrun) as [_ Hall].
  rewrite Forall_forall in Hall. specialize (Hall s Hs). unfold settled in Hall.
  now rewrite (generate_states_processed _ _ _ _ _ Hpre Hrun s Hs) in Hall.
Qed.

End TransitionsAtReturn.

Lemma generate_states_transitions_witness :
  exists g',
    @generate_states example_declarations 10 x_parser TokenStates
      (initial_generator true) = Some g'
    /\ forall s, In s (states_ g') ->
         transitions_ s = transitions_of (node_at x_parser) s.
Proof.
  destruct (@generate_states example_declarations 10 x_parser TokenStates
              (initial_generator true)) as [g'|] eqn:E;
    [|vm_compute in E; discriminate].
  exists g'. split; [reflexivity|].
  exact (@generate_states_transitions example_declarations 10 x_parser
           TokenStates (initial_generator true) g' eq_refl E).
Defined.

(** ** The transition on a character *)

Lemma fold_left_flat_map {A B C : Type} (f : A -> C -> A) (h : B -> list C) l :
  forall a,
    fold_left (fun a' b => fold_left f (h b) a') l a
    = fold_left f (flat_map h l) a.
Proof.
  induction l as [|b l IH]; intros a; simpl; [reflexivity|].
  now rewrite fold_left_app, IH.
Qed.

Lemma insert_ranges_state_ranges node state ranges :
  insert_ranges node state ranges
  = fold_left (fun m r => insert (fst r) (snd r) m) (state_ranges node state)
      ranges.
Proof.
  unfold insert_ranges, state_ranges.
  rewrite <- (fold_left_flat_map (fun m r => insert (fst r) (snd r) m)).
  revert ranges. induction (items_ state) as [|item items IH]; intros ranges;
    simpl; [reflexivity|].
  rewrite IH. f_equal. clear IH. revert ranges.
  induction (get_next_nodes node item) as [|n ns IH]; intros ranges; simpl;
    [reflexivity|].
  rewrite fold_left_app, <- IH. now destruct (is_end n).
Qed.

Lemma state_ranges_not_empty node state :
  character_ranges_not_empty node ->
  Forall nonempty_range (state_ranges node state).
Proof.
  intros Hne. unfold state_ranges, get_next_nodes.
  apply Forall_forall. intros r Hr.
  apply in_flat_map in Hr as (item & _ & Hr).
  apply in_flat_map in Hr as (n & Hn & Hr).
  apply in_map_iff in Hn as (i & <- & _).
  destruct (is_end (node i)) eqn:E; [contradiction|].
  destruct Hr as [<-|[]]. now apply Hne.
Qed.

(** A range that lies inside or outside the range of every next node leads
    where each of its characters leads. *)
Lemma is_match_uniform n begin end_ c :
  begin <= c < end_ ->
  (is_end n = false ->
   (begin_character n <= begin /\ end_ <= end_character n)
   \/ end_ <= begin_character n \/ end_character n <= begin) ->
  is_match n begin end_ = is_match n c (c + 1).
Proof.
  intros Hc Hu. unfold is_match. destruct (is_end n); [reflexivity|].
  specialize (Hu eq_refl). simpl.
  destruct (begin <? end_character n) eqn:E1,
    (begin_character n <? end_) eqn:E2,
    (c <? end_character n) eqn:E3,
    (begin_character n <? c + 1) eqn:E4; simpl; try reflexivity; lia.
Qed.

Lemma fold_left_ext_in {A B : Type} (f g : A -> B -> A) l :
  (forall a b, In b l -> f a b = g a b) ->
  forall a, fold_left f l a = fold_left g l a.
Proof.
  induction l as [|b l IH]; intros Hfg a; simpl; [reflexivity|].
  rewrite Hfg; [|now left]. apply IH. intros a' b' Hb'. apply Hfg. now right.
Qed.

Lemma goto_uniform node state r c :
  in_range c r -> uniform (state_ranges node state) r ->
  goto_ node state (fst r) (snd r) = goto_ node state c (c + 1).
Proof.
  intros Hc Hu. unfold goto_. apply fold_left_ext_in. intros goto_state item Hitem.
  assert (next_nodes node item (fst r) (snd r) = next_nodes node item c (c + 1))
    as ->; [|reflexivity].
  unfold next_nodes. apply fold_left_ext_in. intros acc i Hi.
  rewrite (is_match_uniform (node i) (fst r) (snd r) c Hc); [reflexivity|].
  intros Hend. apply (Hu (begin_character (node i), end_character (node i))).
  unfold state_ranges. apply in_flat_map. exists item. split; [exact Hitem|].
  apply in_flat_map. exists (node i).
  split; [unfold get_next_nodes; now apply in_map|].
  rewrite Hend. now left.
Qed.

Lemma fold_left_const {A B : Type} (l : list B) (a : A) :
  fold_left (fun a' _ => a') l a = a.
Proof. induction l as [|b l IH]; simpl; [reflexivity | exact IH]. Qed.

Lemma next_nodes_no_match node item begin end_ :
  (forall i, In i item -> is_match (node i) begin end_ = false) ->
  next_nodes node item begin end_ = [].
Proof.
  intros Hall. unfold next_nodes.
  rewrite (fold_left_ext_in _ (fun acc _ => acc)); [apply fold_left_const|].
  intros acc i Hi. now rewrite (Hall i Hi).
Qed.

Lemma goto_no_match node state begin end_ :
  (forall item, In item (items_ state) ->
     next_nodes node item begin end_ = []) ->
  goto_ node state begin end_ = new_LexerState.
Proof.
  intros Hall. unfold goto_.
  rewrite (fold_left_ext_in _ (fun goto_state _ => goto_state));
    [apply fold_left_const|].
  intros goto_state item Hitem. now rewrite (Hall item Hitem).
Qed.

(** A character with a goto state lies in the range of a next node. *)
Lemma goto_in_union node state c :
  items_ (goto_ node state c (c + 1)) <> [] ->
  in_union (state_ranges node state) c.
Proof.
  intros Hne.
  destruct (existsb
              (fun item => existsb (fun i => is_match (node i) c (c + 1)) item)
              (items_ state)) eqn:E.
  - apply existsb_exists in E as (item & Hitem & E).
    apply existsb_exists in E as (i & Hi & E).
    exists (begin_character (node i), end_character (node i)).
    unfold is_match in E.
    destruct (is_end (node i)) eqn:Hend; [discriminate|]. simpl in E.
    apply andb_prop in E as [E1 E2].
    split; [|unfold in_range; simpl; lia].
    unfold state_ranges. apply in_flat_map. exists item. split; [exact Hitem|].
    apply in_flat_map. exists (node i).
    split; [unfold get_next_nodes; now apply in_map|].
    rewrite Hend. now left.
  - exfalso. apply Hne. rewrite goto_no_match; [reflexivity|].
    intros item Hitem. apply next_nodes_no_match. intros i Hi.
    destruct (is_match (node i) c (c + 1)) eqn:Em; [|reflexivity].
    assert (existsb
              (fun item => existsb (fun i => is_match (node i) c (c + 1)) item)
              (items_ state) = true); [|congruence].
    apply existsb_exists. exists item. split; [exact Hitem|].
    apply existsb_exists. now exists i.
Qed.

Lemma set_insert_in_fresh {A : Type} (cmp : A -> A -> comparison) x l z :
  (forall y, In y l -> cmp x y <> Eq) ->
  In z (fst (set_insert cmp x l)) <-> z = x \/ In z l.
Proof.
  induction l as [|y l IH]; intros Hfresh; simpl; [intuition|].
  destruct (cmp x y) eqn:E.
  - exfalso. now apply (Hfresh y (or_introl eq_refl)).
  - simpl. intuition.
  - destruct (set_insert cmp x l) as [l' b]. simpl in *.
    rewrite IH; [intuition|]. intros y' Hy'. apply Hfresh. now right.
Qed.

Lemma intervals_begins_sorted out :
  intervals_ordered out -> StronglySorted (fun r r' => fst r < fst r') out.
Proof.
  intros [Hne Hs]. induction Hs as [|r out Hout IH Hr]; constructor.
  - apply IH. now inversion Hne.
  - inversion Hne as [|r0 out0 Hr0 Hne0]; subst.
    rewrite Forall_forall in Hr |- *. intros r' Hr'. specialize (Hr r' Hr'). lia.
Qed.

Lemma sorted_trichotomy {A : Type} (R : A -> A -> Prop) l a b :
  StronglySorted R l -> In a l -> In b l -> a = b \/ R a b \/ R b a.
Proof.
  intros Hs. induction Hs as [|x l Hl IH Hx]; [contradiction|].
  rewrite Forall_forall in Hx. intros [<-|Ha] [<-|Hb]; auto.
Qed.

Lemma fold_add_goto_in node state out : forall transitions,
  StronglySorted (fun r r' => fst r < fst r') out ->
  (forall tr0 r, In tr0 transitions -> In r out ->
     transition_begin tr0 <> fst r) ->
  forall tr,
    In tr (fold_left (add_goto node state) out transitions)
    <-> In tr transitions
        \/ exists r, In r out
                     /\ items_ (goto_ node state (fst r) (snd r)) <> []
                     /\ tr = goto_transition node state r.
Proof.
  induction out as [|r out IH]; intros transitions Hs Hfresh tr.
  - simpl. split; [now left|]. intros [Hin|(r & [] & _)]. exact Hin.
  - inversion Hs as [|r0 out0 Hout Hr]; subst. rewrite Forall_forall in Hr.
    assert (Hadd : forall tr',
               In tr' (add_goto node state transitions r)
               <-> In tr' transitions
                   \/ (items_ (goto_ node state (fst r) (snd r)) <> []
                       /\ tr' = goto_transition node state r)).
    { intros tr'. unfold add_goto, goto_transition.
      destruct (items_ (goto_ node state (fst r) (snd r))) as [|item items].
      - split; [now left|]. now intros [Hin|[Hne _]].
      - rewrite set_insert_in_fresh.
        + split; [intros [->|Hin]; [right; split; [discriminate | reflexivity]
                                   | now left]|].
          intros [Hin|[_ ->]]; [now right | now left].
        + intros y Hy. unfold transition_compare. simpl. intros E.
          apply Z.compare_eq in E.
          apply (Hfresh y r Hy (or_introl eq_refl)). now symmetry. }
    cbn [fold_left]. rewrite IH; [|exact Hout|].
    + rewrite Hadd. split.
      * intros [[Hin|[Hne ->]]|(r' & Hr' & Hne & ->)].
        -- now left.
        -- right. exists r. split; [now left | now split].
        -- right. exists r'. split; [now right | now split].
      * intros [Hin|(r' & [<-|Hr'] & Hne & ->)].
        -- left. now left.
        -- left. right. now split.
        -- right. exists r'. now split.
    + intros tr0 r' Htr0 Hr'. apply Hadd in Htr0 as [Hin|[_ ->]].
      * apply Hfresh; [exact Hin | now right].
      * simpl. specialize (Hr r' Hr'). lia.
Qed.

(** The transitions of a state whose next nodes have no empty range, read
    as a function of the character. *)
Lemma transitions_of_character node state c :
  Forall nonempty_range (state_ranges node state) ->
  (forall tr, In tr (transitions_of node state) -> on_character c tr ->
     transition_state tr = items_ (goto_ node state c (c + 1))
     /\ transition_state tr <> []
     /\ forall tr', In tr' (transitions_of node state) -> on_character c tr' ->
                    tr' = tr)
  /\ (items_ (goto_ node state c (c + 1)) <> [] ->
      exists tr, In tr (transitions_of node state) /\ on_character c tr).
Proof.
  intros Hne.
  set (rs := state_ranges node state) in *.
  assert (Eranges : insert_ranges node state (clear []) = insert_all rs)
    by apply insert_ranges_state_ranges.
  destruct (insert_all_facts rs Hne) as ((Hasc & Hno & Hlast) & Hinside & Hchars).
  pose proof (distinct_ranges_inside_intervals _ Hno Hlast) as Hwalk.
  pose proof (inside_intervals_ordered _ Hasc) as Hordered.
  set (out := inside_intervals (insert_all rs)) in *.
  assert (Etrs : transitions_of node state
                 = fold_left (add_goto node state) out []).
  { unfold transitions_of. now rewrite Eranges, Hwalk. }
  assert (Hin : forall tr,
             In tr (transitions_of node state)
             <-> exists r, In r out
                           /\ items_ (goto_ node state (fst r) (snd r)) <> []
                           /\ tr = goto_transition node state r).
  { intros tr. rewrite Etrs, fold_add_goto_in;
      [|now apply intervals_begins_sorted | intros tr0 r []].
    split; [intros [[]|Hr]; exact Hr | now right]. }
  assert (Huniform : forall r, In r out -> uniform rs r).
  { intros r Hr.
    destruct (inside_intervals_adjacent _ r Hasc Hr) as (H1 & H2 & H3 & H4).
    apply (adjacent_maximal_uniform rs r Hne H1).
    - now apply Hchars.
    - now apply Hchars.
    - intros c' Hc'. apply H4. now apply Hchars. }
  assert (Hsame : forall r r', In r out -> In r' out ->
                    in_range c r -> in_range c r' -> r = r').
  { intros r r' Hr Hr' Hc Hc'. destruct Hordered as [_ Hsorted].
    destruct (sorted_trichotomy _ out r r' Hsorted Hr Hr') as [E|[Hlt|Hlt]];
      [exact E | |]; unfold in_range in *; lia. }
  split.
  - intros tr Htr Hon. apply Hin in Htr as (r & Hr & Hgoto & ->).
    unfold on_character in Hon. simpl in Hon.
    rewrite <- (goto_uniform node state r c Hon (Huniform r Hr)).
    split; [reflexivity|]. split; [exact Hgoto|].
    intros tr' Htr' Hon'. apply Hin in Htr' as (r' & Hr' & _ & ->).
    unfold on_character in Hon'. simpl in Hon'.
    now rewrite (Hsame r r' Hr Hr' Hon Hon').
  - intros Hgoto. pose proof (goto_in_union node state c Hgoto) as Hunion.
    apply Hinside in Hunion.
    apply (inside_intervals_cover false _ c Hasc Hlast) in Hunion
      as [[Hfalse _]|(r & Hr & Hc)]; [discriminate|].
    exists (goto_transition node state r). split; [|exact Hc].
    apply Hin. exists r. split; [exact Hr|]. split; [|reflexivity].
    now rewrite (goto_uniform node state r c Hc (Huniform r Hr)).
Qed.

Section TransitionFunction.

Context `{Declarations}.

(** X13.  The automaton that [generate_states] builds from a parser whose
    positions have no empty character range steps as [goto_] does on single
    characters. For every state of the set and every character: the
    transitions of the state that are taken on the character lead to the
    goto state of the state on that character, which has items, and there is
    at most one; and there is one whenever that goto state has items. *)
Theorem generate_states_transition_function fuel regex_parser t g g' :
  character_ranges_not_empty (node_at regex_parser) ->
  generate_states_pre t g = true ->
  generate_states fuel regex_parser t g = Some g' ->
  forall s c, In s (get_states t g') ->
    (forall tr, In tr (transitions_ s) -> on_character c tr ->
       transition_state tr = items_ (goto_ (node_at regex_parser) s c (c + 1))
       /\ transition_state tr <> []
       /\ forall tr', In tr' (transitions_ s) -> on_character c tr' -> tr' = tr)
    /\ (items_ (goto_ (node_at regex_parser) s c (c + 1)) <> [] ->
        exists tr, In tr (transitions_ s) /\ on_character c tr).
Proof.
  intros Hne Hpre Hrun s c Hs.
  destruct (generate_states_settled _ _ _ _ _ Hpre Hrun) as [_ Hall].
  rewrite Forall_forall in Hall. specialize (Hall s Hs). unfold settled in Hall.
  rewrite (generate_states_processed _ _ _ _ _ Hpre Hrun s Hs) in Hall.
  rewrite Hall. apply transitions_of_character.
  now apply state_ranges_not_empty.
Qed.

End TransitionFunction.

Lemma x_parser_ranges_not_empty : character_ranges_not_empty (node_at x_parser).
Proof. intros [|i]; simpl; [lia | discriminate]. Qed.

Lemma generate_states_transition_function_witness :
  exists g',
    @generate_states example_declarations 10 x_parser TokenStates
      (initial_generator true) = Some g'
    /\ forall s, In s (states_ g') ->
         items_ (goto_ (node_at x_parser) s 120 (120 + 1)) <> [] ->
         exists tr, In tr (transitions_ s) /\ on_character 120 tr.
Proof.
  destruct (@generate_states example_declarations 10 x_parser TokenStates
              (initial_generator true)) as [g'|] eqn:E;
    [|vm_compute in E; discriminate].
  exists g'. split; [reflexivity|]. intros s Hs.
  exact (proj2 (@generate_states_transition_function example_declarations 10
                  x_parser TokenStates (initial_generator true) g'
                  x_parser_ranges_not_empty eq_refl E s 120 Hs)).
Defined.

(** ** The two constructors *)

Lemma indices_from_S first n :
  indices_from first (S n) = first :: indices_from (first + 1) n.
Proof.
  change (S n) with (1 + n)%nat. rewrite indices_from_app.
  unfold indices_from at 1. simpl. now rewrite Z.add_0_r.
Qed.

(** Writing again the index that a state has changes nothing of it. *)
Lemma set_indices_view states : forall index,
  map index_ states = indices_from index (List.length states) ->
  map state_view (fst (set_indices index states)) = map state_view states.
Proof.
  induction states as [|s rest IH]; intros index E; simpl; [reflexivity|].
  simpl in E. rewrite indices_from_S in E. injection E as E1 E2.
  specialize (IH (index + 1) E2).
  destruct (set_indices (index + 1) rest) as [rest' index']. simpl in *.
  rewrite IH. f_equal. unfold state_view. simpl. now rewrite E1.
Qed.

Section ConstructorsFacts.

Context `{Declarations}.

Lemma generate_states_loops_frame fuel regex_parser t g g' :
  generate_states fuel regex_parser t g = Some g' ->
  exists g0, frame t g g0 /\ g' = generate_indices_for_states g0.
Proof.
  unfold generate_states.
  destruct (negb (parser_empty regex_parser) && (parser_errors regex_parser =? 0)).
  - destruct (generate_symbol_for_state _ _ g) as [[state' g1]|] eqn:Esym;
      [|discriminate].
    apply (frame_generate_symbol_for_state t g) in Esym; [|apply frame_refl].
    destruct (while_added fuel _ t _) as [g2|] eqn:Erun; [|discriminate].
    intros [= <-]. exists g2. split; [|reflexivity].
    apply (while_added_invariant (frame t g) _ t) in Erun; [exact Erun| |].
    + apply frame_process_state.
    + now apply frame_set_start_state, frame_set_states.
  - intros [= <-]. exists g. split; [apply frame_refl | reflexivity].
Qed.

(** X14.  The automaton of the tokens does not depend on the whitespace
    tokens.  When the constructor from tokens and whitespace tokens returns,
    the constructor from one token returns for the parser of the tokens,
    with no whitespace states and a null whitespace start state, and the two
    agree on the start state and on every member of every state of the main
    automaton.  The actions of the first are the actions of the second and
    then those that the whitespace tokens register, and the sink of the first
    has received what the sink of the second has, and then what generating
    the whitespace states delivered. *)
Theorem new_LexerGenerator_main_automaton fuel tokens whitespace_tokens sink g :
  new_LexerGenerator fuel tokens whitespace_tokens sink = Some g ->
  exists g1,
    new_LexerGenerator_token fuel tokens sink = Some g1
    /\ whitespace_states_ g1 = []
    /\ whitespace_start_state_ g1 = None
    /\ map state_view (states_ g) = map state_view (states_ g1)
    /\ start_state_ g = start_state_ g1
    /\ actions_ g = actions_ (new_RegexParser whitespace_tokens g1)
    /\ (exists more,
          actions_ g = actions_ g1 ++ more
          /\ forall a, In a more ->
               In (action_identifier a) (parser_actions whitespace_tokens))
    /\ exists calls, delivered_ g = delivered_ g1 ++ calls.
Proof.
  unfold new_LexerGenerator, new_LexerGenerator_token.
  destruct (generate_states fuel tokens TokenStates
              (new_RegexParser tokens (initial_generator sink)))
    as [g1|] eqn:E1; [|discriminate].
  intros E2. exists g1. split; [reflexivity|].
  destruct (new_RegexParser_kept tokens (initial_generator sink))
    as (_ & _ & Hws0 & _ & Hwstart0 & _).
  destruct (new_RegexParser_kept whitespace_tokens g1)
    as (_ & Hs1 & _ & Hstart1 & _ & Hd1).
  split; [now apply (whitespace_states_kept fuel tokens
                       (new_RegexParser tokens (initial_generator sink)) g1)|].
  destruct (generate_states_loops_frame _ _ _ _ _ E1)
    as (g0 & (_ & _ & _ & Hstart0 & _) & Eg1).
  destruct (generate_states_loops_frame _ _ _ _ _ E2)
    as (g2 & (_ & Hactions & Hstates & Hstart & calls & Hcalls & _) & ->).
  simpl in Hstart0, Hstates, Hstart.
  rewrite Hs1 in Hstates. rewrite Hstart1 in Hstart. rewrite Hd1 in Hcalls.
  destruct (frame_generate_indices TokenStates g2)
    as (_ & Ea & Ed & Es & _).
  destruct (frame_generate_indices WhitespaceStates g0)
    as (_ & _ & _ & Es0 & _).
  simpl in Es, Es0.
  split; [rewrite Eg1, Es0, Hstart0; exact Hwstart0|].
  split; [|split; [|split; [|split]]].
  - assert (Estates : states_ (generate_indices_for_states g2)
                      = fst (set_indices 0 (states_ g1))).
    { unfold generate_indices_for_states. rewrite Hstates.
      destruct (set_indices 0 (states_ g1)) as [states index].
      now destruct (set_indices index (whitespace_states_ g2)). }
    rewrite Estates. apply set_indices_view.
    rewrite Eg1.
    now destruct (generate_indices_for_states_indices g0) as (-> & _ & -> & _).
  - now rewrite Es.
  - now rewrite Ea.
  - rewrite Ea, Hactions. apply add_lexer_actions_appends.
  - exists calls. now rewrite Ed.
Qed.

End ConstructorsFacts.

Lemma new_LexerGenerator_main_automaton_witness :
  exists g g1,
    @new_LexerGenerator example_declarations 10 x_action_parser
      space_action_parser true = Some g
    /\ @new_LexerGenerator_token example_declarations 10 x_action_parser true
       = Some g1
    /\ map state_view (states_ g) = map state_view (states_ g1)
    /\ map action_identifier (actions_ g1) = ["x_action"%string]
    /\ map action_identifier (actions_ g)
       = ["x_action"%string; "skip"%string].
Proof.
  destruct (@new_LexerGenerator example_declarations 10 x_action_parser
              space_action_parser true) as [g|] eqn:E;
    [|vm_compute in E; discriminate].
  destruct (@new_LexerGenerator_main_automaton example_declarations 10
              x_action_parser space_action_parser true g E)
    as (g1 & E1 & _ & _ & Hview & _ & Hactions & _).
  exists g, g1. split; [reflexivity|]. split; [exact E1|].
  split; [exact Hview|].
  vm_compute in E1. injection E1 as <-.
  split; [reflexivity|]. rewrite Hactions. reflexivity.
Defined.

(** ** The number of states *)

Lemma sublists_length {A : Type} (l : list A) :
  List.length (sublists l) = (2 ^ List.length l)%nat.
Proof.
  induction l as [|a l IH]; simpl; [reflexivity|].
  rewrite length_app, length_map, IH. lia.
Qed.

Lemma all_items_length n : List.length (all_items n) = (2 ^ n)%nat.
Proof.
  unfold all_items. now rewrite length_map, sublists_length, length_seq.
Qed.

Section Size.

Context `{Declarations}.

Variable n : nat.
Variable p : RegexParser.
Hypothesis Hwf : well_formed n p.
Variable t : Target.

Lemma states_below_process_state state acc acc' :
  states_below n (get_states t (fst acc)) ->
  find_state (items_ state) (get_states t (fst acc)) = Some state ->
  processed_ state = false ->
  process_state (node_at p) t state acc = Some acc' ->
  states_below n (get_states t (fst acc')).
Proof.
  intros Hbelow Hfind _ Hrun.
  assert (Hitem : exists item, items_ state = [item] /\ item_below n item).
  { destruct Hbelow as [_ Hall]. rewrite Forall_forall in Hall.
    apply Hall. now apply find_some in Hfind as [Hin _]. }
  destruct Hitem as (item & Eitem & Hitem).
  destruct (process_state_total n p Hwf t state item
              (List.length (get_states t (fst acc))) (snd acc) acc Eitem Hitem)
    as (acc1 & Hrun1 & [Hbelow1 _]).
  - split; [exact Hbelow | lia].
  - congruence.
Qed.

Lemma generate_states_below fuel g g' :
  generate_states_pre t g = true ->
  generate_states fuel p t g = Some g' ->
  states_below n (get_states t g').
Proof.
  intros Hpre. unfold generate_states_pre in Hpre.
  destruct (get_states t g) as [|s0 l0] eqn:Hstates; [|discriminate].
  unfold generate_states.
  assert (Hidx : forall g0,
            states_below n (get_states t g0) ->
            states_below n (get_states t (generate_indices_for_states g0))).
  { intros g0 [Hs Hall].
    destruct (frame_generate_indices t g0) as (_ & _ & _ & _ & index & ->).
    split.
    - unfold sorted_states. now rewrite set_indices_items.
    - apply set_indices_Forall; [|exact Hall]. now intros s i. }
  destruct (negb (parser_empty p) && (parser_errors p =? 0)).
  - destruct (generate_symbol_for_state _ _ g) as [[state' g1]|] eqn:Esym;
      [|discriminate].
    apply generate_symbol_for_state_result in Esym as [Eg1 (symbol & ->)].
    destruct (while_added fuel _ t _) as [g2|] eqn:Erun; [|discriminate].
    intros [= <-]. apply Hidx.
    assert (Hg1 : get_states t g1 = []) by (rewrite Eg1; now destruct t).
    rewrite Hg1 in Erun. simpl set_insert in Erun. cbn [fst] in Erun.
    apply (while_added_invariant
             (fun g0 => states_below n (get_states t g0)) _ t) in Erun;
      [exact Erun | apply states_below_process_state|].
    assert (get_states t
              (set_start_state t
                 (Some (items_ (set_symbol symbol
                                  (add_item (first_positions p) new_LexerState))))
                 (set_states t
                    [set_symbol symbol
                       (add_item (first_positions p) new_LexerState)] g1))
            = [set_symbol symbol (add_item (first_positions p) new_LexerState)])
      as -> by now destruct t.
    split; [unfold sorted_states, sorted_set; simpl; repeat constructor|].
    constructor; [|constructor]. exists (first_positions p).
    split; [reflexivity | apply (first_positions_below n p Hwf)].
  - intros [= <-]. apply Hidx. rewrite Hstates.
    split; [constructor | constructor].
Qed.

(** X15.  The automaton of a well-formed parser with [n] positions has at
    most [2 ^ n] states: the one item of a state is a set of positions of
    the parser, and no two states have the same. *)
Theorem generate_states_size fuel g g' :
  generate_states_pre t g = true ->
  generate_states fuel p t g = Some g' ->
  (List.length (get_states t g') <= 2 ^ n)%nat
  /\ NoDup (map items_ (get_states t g'))
  /\ forall s, In s (get_states t g') ->
       exists item, items_ s = [item] /\ item_below n item.
Proof.
  intros Hpre Hrun.
  pose proof (generate_states_below fuel g g' Hpre Hrun) as Hbelow.
  split; [|split].
  - rewrite <- all_items_length. now apply states_below_size.
  - apply sorted_states_NoDup. apply Hbelow.
  - apply Forall_forall. apply Hbelow.
Qed.

End Size.

Lemma generate_states_size_witness :
  exists g',
    @generate_states example_declarations 10 x_parser TokenStates
      (initial_generator true) = Some g'
    /\ (List.length (states_ g') <= 2 ^ 2)%nat.
Proof.
  destruct (@generate_states example_declarations 10 x_parser TokenStates
              (initial_generator true)) as [g'|] eqn:E;
    [|vm_compute in E; discriminate].
  exists g'. split; [reflexivity|].
  exact (proj1 (@generate_states_size example_declarations 2 x_parser
                  (proj1 example_parsers_well_formed) TokenStates 10
                  (initial_generator true) g' eq_refl E)).
Defined.

(** ** The states that can be reached *)

Section Reachable.

Context `{Declarations}.

Variable node : nat -> RegexNode.
Variable t : Target.
Variable start : list LexerItem.

Lemma all_discovered_process_state state acc acc' :
  all_discovered node t start (fst acc) ->
  find_state (items_ state) (get_states t (fst acc)) = Some state ->
  processed_ state = false ->
  process_state node t state acc = Some acc' ->
  all_discovered node t start (fst acc').
Proof.
  destruct acc as [g added]. unfold process_state. simpl.
  intros Hall Hfind _ Hrun.
  assert (Hstate : discovered node start (items_ state)).
  { apply Hall. apply find_some in Hfind as [Hin _]. now apply in_map. }
  destruct (goto_loop_walk node t state
              (fun walked acc0 =>
                 forall k, In k (map items_ (get_states t (fst acc0))) ->
                   discovered node start k
                   \/ exists r, In r walked
                        /\ k = items_ (goto_ node state (fst r) (snd r))
                        /\ k <> [])) with
    (ranges := insert_ranges node state (clear (ranges_ g)))
    (walked := @nil (Z * Z))
    (acc := (set_ranges (insert_ranges node state (clear (ranges_ g)))
               (set_states t
                  (update_state (items_ state) (set_processed true)
                     (get_states t g)) g), added))
    (acc' := acc') as (out & Eout & Hout).
  - intros walked begin end_ [g0 added0] [g1 added1] Hinv Hstep. simpl in *.
    assert (Hweak : forall k, In k (map items_ (get_states t g0)) ->
              discovered node start k
              \/ exists r, In r (walked ++ [(begin, end_)])
                   /\ k = items_ (goto_ node state (fst r) (snd r))
                   /\ k <> []).
    { intros k Hk. destruct (Hinv k Hk) as [Hd|(r & Hr & Hgoto)];
        [now left|]. right. exists r. split; [|exact Hgoto].
      apply in_or_app. now left. }
    apply goto_step_cases in Hstep. cbv zeta in Hstep.
    destruct Hstep as [(_ & -> & _)|[(Hne & _ & _ & sel & g2 & g3 & _ & ->)
                                    |(_ & _ & _ & ->)]].
    + exact Hweak.
    + intros k Hk. rewrite update_state_items in Hk; [|reflexivity].
      apply set_insert_states_in in Hk as [->|Hk]; [|now apply Hweak].
      right. exists (begin, end_). split; [apply in_or_app; right; now left|].
      split; [reflexivity | exact Hne].
    + intros k Hk. rewrite update_state_items in Hk; [|reflexivity].
      now apply Hweak.
  - cbn [fst]. intros k Hk. left. apply Hall.
    assert (get_states t
              (set_ranges (insert_ranges node state (clear (ranges_ g)))
                 (set_states t
                    (update_state (items_ state) (set_processed true)
                       (get_states t g)) g))
            = update_state (items_ state) (set_processed true) (get_states t g))
      as E by now destruct t.
    rewrite E, update_state_items in Hk; [exact Hk | reflexivity].
  - exact Hrun.
  - simpl in Hout. intros k Hk.
    destruct (Hout k Hk) as [Hd|(r & Hr & -> & Hne)]; [exact Hd|].
    apply discovered_goto; [exact Hstate | | exact Hne].
    unfold walked_ranges, clear in *. now rewrite Eout.
Qed.

End Reachable.

Lemma transitions_of_in node state :
  Forall nonempty_range (state_ranges node state) ->
  forall tr,
    In tr (transitions_of node state)
    <-> exists r, In r (walked_ranges node state)
                  /\ items_ (goto_ node state (fst r) (snd r)) <> []
                  /\ tr = goto_transition node state r.
Proof.
  intros Hne tr.
  assert (Eranges : insert_ranges node state (clear [])
                    = insert_all (state_ranges node state))
    by apply insert_ranges_state_ranges.
  destruct (insert_all_facts _ Hne) as ((Hasc & Hno & Hlast) & _ & _).
  pose proof (distinct_ranges_inside_intervals _ Hno Hlast) as Hwalk.
  pose proof (inside_intervals_ordered _ Hasc) as Hordered.
  unfold transitions_of, walked_ranges. rewrite Eranges, Hwalk.
  rewrite fold_add_goto_in;
    [|now apply intervals_begins_sorted | intros tr0 r []].
  split; [intros [[]|Hr]; exact Hr | now right].
Qed.

Section ReachableAtReturn.

Context `{Declarations}.

Lemma generate_states_discovered fuel regex_parser t g g' :
  generate_states_pre t g = true ->
  generate_states fuel regex_parser t g = Some g' ->
  all_discovered (node_at regex_parser) t [first_positions regex_parser] g'.
Proof.
  intros Hpre. unfold generate_states_pre in Hpre.
  destruct (get_states t g) as [|s0 l0] eqn:Hstates; [|discriminate].
  unfold generate_states.
  assert (Hidx : forall g0,
            all_discovered (node_at regex_parser) t
              [first_positions regex_parser] g0 ->
            all_discovered (node_at regex_parser) t
              [first_positions regex_parser] (generate_indices_for_states g0)).
  { intros g0 Hall k Hk.
    destruct (frame_generate_indices t g0) as (_ & _ & _ & _ & index & E).
    rewrite E, set_indices_items in Hk. now apply Hall. }
  destruct (negb (parser_empty regex_parser) && (parser_errors regex_parser =? 0)).
  - destruct (generate_symbol_for_state _ _ g) as [[state' g1]|] eqn:Esym;
      [|discriminate].
    apply generate_symbol_for_state_result in Esym as [Eg1 (symbol & ->)].
    destruct (while_added fuel _ t _) as [g2|] eqn:Erun; [|discriminate].
    intros [= <-]. apply Hidx.
    assert (Hg1 : get_states t g1 = []) by (rewrite Eg1; now destruct t).
    rewrite Hg1 in Erun. simpl set_insert in Erun. cbn [fst] in Erun.
    apply (while_added_invariant
             (all_discovered (node_at regex_parser) t
                [first_positions regex_parser]) _ t) in Erun;
      [exact Erun | apply all_discovered_process_state|].
    unfold all_discovered.
    assert (get_states t
              (set_start_state t
                 (Some (items_ (set_symbol symbol
                                  (add_item (first_positions regex_parser)
                                     new_LexerState))))
                 (set_states t
                    [set_symbol symbol
                       (add_item (first_positions regex_parser) new_LexerState)]
                    g1))
            = [set_symbol symbol
                 (add_item (first_positions regex_parser) new_LexerState)])
      as -> by now destruct t.
    intros k [<-|[]]. apply discovered_start.
  - intros [= <-]. apply Hidx. unfold all_discovered. rewrite Hstates.
    intros k [].
Qed.

(** X16.  The automaton that [generate_states] builds from a parser whose
    positions have no empty character range has no state that cannot be
    reached: every state of the set is reached from the state of the first
    positions along transitions of states of the set. *)
Theorem generate_states_reachable fuel regex_parser t g g' :
  character_ranges_not_empty (node_at regex_parser) ->
  generate_states_pre t g = true ->
  generate_states fuel regex_parser t g = Some g' ->
  forall s, In s (get_states t g') ->
    reachable (get_states t g') [first_positions regex_parser] (items_ s).
Proof.
  intros Hne Hpre Hrun s Hs.
  pose proof (generate_states_discovered _ _ _ _ _ Hpre Hrun) as Hall.
  pose proof (generate_states_settled _ _ _ _ _ Hpre Hrun) as [_ Hsettled].
  pose proof (generate_states_processed _ _ _ _ _ Hpre Hrun) as Hprocessed.
  destruct (generate_states_built _ _ _ _ _ Hpre Hrun) as (Hstart & Hin & Hbuilt).
  rewrite Forall_forall in Hsettled, Hbuilt.
  assert (Hfirst : In [first_positions regex_parser]
                     (map items_ (get_states t g'))).
  { destruct (negb (parser_empty regex_parser)
              && (parser_errors regex_parser =? 0)) eqn:Eguard;
      [now apply Hin|].
    exfalso. revert Hrun. unfold generate_states. rewrite Eguard.
    unfold generate_states_pre in Hpre.
    destruct (get_states t g) as [|s0 l0] eqn:Hstates; [|discriminate].
    intros [= <-].
    destruct (frame_generate_indices t g) as (_ & _ & _ & _ & index & E).
    rewrite E, Hstates in Hs. exact Hs. }
  assert (Hset : forall k,
             reachable (get_states t g') [first_positions regex_parser] k ->
             In k (map items_ (get_states t g'))).
  { intros k Hk. destruct Hk as [|s0 tr _ Hs0 Htr]; [exact Hfirst|].
    destruct (Hbuilt s0 Hs0) as (_ & _ & Hclosed). now apply Hclosed. }
  specialize (Hall (items_ s) (in_map items_ _ _ Hs)).
  induction Hall as [|state r Hstate IH Hr Hgoto]; [apply reachable_start|].
  pose proof (Hset _ IH) as Hk. apply in_map_iff in Hk as (s0 & Es0 & Hs0).
  rewrite <- Es0 in IH.
  apply (reachable_step _ _ s0 (goto_transition (node_at regex_parser) state r)
           IH Hs0).
  specialize (Hsettled s0 Hs0). unfold settled in Hsettled.
  rewrite (Hprocessed s0 Hs0) in Hsettled.
  rewrite Hsettled, (transitions_of_items _ s0 state Es0).
  apply transitions_of_in; [now apply state_ranges_not_empty|].
  exists r. now split.
Qed.

End ReachableAtReturn.

Lemma generate_states_reachable_witness :
  exists g',
    @generate_states example_declarations 10 x_parser TokenStates
      (initial_generator true) = Some g'
    /\ forall s, In s (states_ g') ->
         reachable (states_ g') [[0%nat]] (items_ s).
Proof.
  destruct (@generate_states example_declarations 10 x_parser TokenStates
              (initial_generator true)) as [g'|] eqn:E;
    [|vm_compute in E; discriminate].
  exists g'. split; [reflexivity|].
  exact (@generate_states_reachable example_declarations 10 x_parser
           TokenStates (initial_generator true) g' x_parser_ranges_not_empty
           eq_refl E).
Defined.

(** ** The goto state *)

Lemma goto_fold node begin end_ items : forall goto_state,
  let result :=
    fold_left
      (fun goto_state item =>
         match next_nodes node item begin end_ with
         | [] => goto_state
         | next => add_item next goto_state
         end) items goto_state in
  transitions_ result = transitions_ goto_state
  /\ symbol_ result = symbol_ goto_state
  /\ processed_ result = processed_ goto_state
  /\ index_ result = index_ goto_state
  /\ (Forall (eq FItems) (writes_ goto_state) ->
      Forall (eq FItems) (writes_ result))
  /\ (sorted_set item_compare (items_ goto_state) ->
      sorted_set item_compare (items_ result))
  /\ forall item,
       In item (items_ result)
       <-> In item (items_ goto_state)
           \/ (item <> []
               /\ exists source, In source items
                                 /\ item = next_nodes node source begin end_).
Proof.
  induction items as [|source items IH]; intros goto_state; cbn zeta.
  - simpl. repeat split; auto. intros [Hin|(_ & source & [] & _)]. exact Hin.
  - cbn [fold_left].
    set (goto_state1 := match next_nodes node source begin end_ with
                        | [] => goto_state
                        | next => add_item next goto_state
                        end).
    destruct (IH goto_state1) as (H1 & H2 & H3 & H4 & H5 & H6 & H7).
    assert (Hfields : transitions_ goto_state1 = transitions_ goto_state
                      /\ symbol_ goto_state1 = symbol_ goto_state
                      /\ processed_ goto_state1 = processed_ goto_state
                      /\ index_ goto_state1 = index_ goto_state)
      by (unfold goto_state1; now destruct (next_nodes node source begin end_)).
    destruct Hfields as (F1 & F2 & F3 & F4).
    split; [congruence|]. split; [congruence|]. split; [congruence|].
    split; [congruence|]. split; [|split].
    + intros Hw. apply H5. unfold goto_state1.
      destruct (next_nodes node source begin end_); [exact Hw|].
      simpl. apply Forall_app. split; [exact Hw | now repeat constructor].
    + intros Hs. apply H6. unfold goto_state1.
      destruct (next_nodes node source begin end_); [exact Hs|].
      simpl. now apply set_insert_sorted; [typeclasses eauto|].
    + intros item. rewrite H7.
      assert (Hitems : In item (items_ goto_state1)
                       <-> In item (items_ goto_state)
                           \/ (item <> []
                               /\ item = next_nodes node source begin end_)).
      { unfold goto_state1.
        destruct (next_nodes node source begin end_) as [|i next] eqn:E.
        - split; [now left|]. intros [Hin|[Hne ->]]; [exact Hin|].
          now contradiction Hne.
        - simpl. rewrite (set_insert_in item_compare). split.
          + intros [->|Hin]; [right; split; [discriminate | reflexivity]
                             | now left].
          + intros [Hin|[_ ->]]; [now right | now left]. }
      rewrite Hitems. split.
      * intros [[Hin|[Hne ->]]|(Hne & source' & Hs' & ->)].
        -- now left.
        -- right. split; [exact Hne|]. exists source. split; [now left|reflexivity].
        -- right. split; [exact Hne|]. exists source'. split; [now right|reflexivity].
      * intros [Hin|(Hne & source' & [<-|Hs'] & ->)].
        -- left. now left.
        -- left. right. now split.
        -- right. split; [exact Hne|]. now exists source'.
Qed.

(** X17.  [goto_] returns a new state on which nothing but items has been
    written: it has no transitions, no symbol and is not processed. Its
    items are the sets of next nodes on the range, when they are not empty,
    of the items of the state it is given: no item of a goto state is empty. *)
Theorem goto_new_state node state begin end_ :
  let goto_state := goto_ node state begin end_ in
  transitions_ goto_state = []
  /\ symbol_ goto_state = None
  /\ processed_ goto_state = false
  /\ Forall (eq FItems) (writes_ goto_state)
  /\ sorted_set item_compare (items_ goto_state)
  /\ forall item,
       In item (items_ goto_state)
       <-> item <> []
           /\ exists source, In source (items_ state)
                             /\ item = next_nodes node source begin end_.
Proof.
  cbv zeta. unfold goto_.
  destruct (goto_fold node begin end_ (items_ state) new_LexerState)
    as (H1 & H2 & H3 & _ & H5 & H6 & H7).
  split; [exact H1|]. split; [exact H2|]. split; [exact H3|].
  split; [apply H5; constructor|]. split; [apply H6; constructor|].
  intros item. rewrite H7. simpl. tauto.
Qed.

(** ** The assertions of the loop over [ranges_] *)

Lemma distinct_ranges_pre_well_marked ranges :
  ascending ranges -> forall prev, no_out_out prev ranges ->
  distinct_ranges_pre ranges = true.
Proof.
  induction ranges as [|m|[b f] [e fe] rest IH1 IH2] using ranges_walk_ind;
    intros Hasc prev Hno.
  - reflexivity.
  - now destruct m.
  - apply ascending_cons in Hasc as [Hasc Hb].
    assert (Hbe : (b <? e) = true).
    { apply Z.ltb_lt. apply Hb. simpl. now left. }
    cbn [distinct_ranges_pre]. rewrite Hbe. cbn [andb].
    destruct Hno as [_ Hno]. destruct fe.
    + now apply (IH1 Hasc f).
    + pose proof Hasc as Hasc'. apply ascending_cons in Hasc' as [Hrest _].
      destruct Hno as [_ Hno].
      rewrite (IH2 Hrest false Hno).
      destruct rest as [|[c fc] rest']; [reflexivity|].
      destruct Hno as [Hfc _]. destruct fc; [reflexivity|].
      now specialize (Hfc eq_refl).
Qed.

(** X18.  For a parser none of whose positions has an empty character range,
    the loop over [ranges_] of [generate_states] passes its assertions for
    every state, whatever [ranges_] held before [clear]: it never reads past
    the end of [ranges_], and every range it hands to [goto_] has [begin <
    end]. *)
Theorem distinct_ranges_asserts node state ranges0 :
  character_ranges_not_empty node ->
  let ranges := insert_ranges node state (clear ranges0) in
  distinct_ranges_pre ranges = true
  /\ exists out,
       distinct_ranges ranges = Some out /\ Forall (fun r => fst r < snd r) out.
Proof.
  intros Hne. cbv zeta.
  assert (Eranges : insert_ranges node state (clear ranges0)
                    = insert_all (state_ranges node state))
    by apply insert_ranges_state_ranges.
  rewrite Eranges.
  destruct (insert_all_facts _ (state_ranges_not_empty node state Hne))
    as ((Hasc & Hno & Hlast) & _ & _).
  split; [now apply (distinct_ranges_pre_well_marked _ Hasc false)|].
  exists (inside_intervals (insert_all (state_ranges node state))).
  split; [now apply distinct_ranges_inside_intervals|].
  apply (inside_intervals_ordered _ Hasc).
Qed.

Lemma distinct_ranges_asserts_witness :
  character_ranges_not_empty (node_at x_parser)
  /\ distinct_ranges_pre
       (insert_ranges (node_at x_parser)
          (add_item [0%nat] new_LexerState) (clear [(7, true); (7, false)]))
     = true.
Proof.
  split; [exact x_parser_ranges_not_empty|].
  exact (proj1 (distinct_ranges_asserts (node_at x_parser)
                  (add_item [0%nat] new_LexerState) [(7, true); (7, false)]
                  x_parser_ranges_not_empty)).
Defined.

(** ** The indices written again *)

Lemma set_indices_members states : forall index,
  map (fun s => (items_ s, transitions_ s, symbol_ s, processed_ s))
    (fst (set_indices index states))
  = map (fun s => (items_ s, transitions_ s, symbol_ s, processed_ s)) states.
Proof.
  induction states as [|s rest IH]; intros index; simpl; [reflexivity|].
  specialize (IH (index + 1)). destruct (set_indices (index + 1) rest).
  simpl in *. now rewrite IH.
Qed.

Section IndicesAgain.

Context `{Declarations}.

(** X19.  [generate_indices_for_states] writes the indices and nothing else,
    and a second run writes the indices that are there: the constructor from
    tokens and whitespace tokens, which runs it once for each automaton,
    leaves the states as one run at the end would. *)
Theorem generate_indices_for_states_again g :
  let g1 := generate_indices_for_states g in
  let g2 := generate_indices_for_states g1 in
  map state_view (states_ g2) = map state_view (states_ g1)
  /\ map state_view (whitespace_states_ g2)
     = map state_view (whitespace_states_ g1)
  /\ map (fun s => (items_ s, transitions_ s, symbol_ s, processed_ s))
       (states_ g1 ++ whitespace_states_ g1)
     = map (fun s => (items_ s, transitions_ s, symbol_ s, processed_ s))
         (states_ g ++ whitespace_states_ g)
  /\ g1 = set_states WhitespaceStates (whitespace_states_ g1)
            (set_states TokenStates (states_ g1) g).
Proof.
  cbv zeta.
  destruct (generate_indices_for_states_indices g) as (L1 & L2 & I1 & I2).
  cbv zeta in L1, L2, I1, I2.
  set (g1 := generate_indices_for_states g) in *.
  assert (E1 : states_ (generate_indices_for_states g1)
               = fst (set_indices 0 (states_ g1))).
  { unfold generate_indices_for_states at 1.
    destruct (set_indices 0 (states_ g1)) as [states index].
    now destruct (set_indices index (whitespace_states_ g1)). }
  assert (E2 : whitespace_states_ (generate_indices_for_states g1)
               = fst (set_indices (Z.of_nat (List.length (states_ g)))
                        (whitespace_states_ g1))).
  { unfold generate_indices_for_states at 1.
    pose proof (proj2 (set_indices_length (states_ g1) 0)) as Hidx.
    destruct (set_indices 0 (states_ g1)) as [states index]. simpl in Hidx.
    rewrite Hidx, L1. simpl.
    now destruct (set_indices (Z.of_nat (List.length (states_ g)))
                    (whitespace_states_ g1)). }
  split; [|split; [|split]].
  - rewrite E1. apply set_indices_view. now rewrite L1.
  - rewrite E2. apply set_indices_view. now rewrite L2.
  - unfold g1, generate_indices_for_states.
    pose proof (set_indices_members (states_ g) 0) as M1.
    destruct (set_indices 0 (states_ g)) as [states index].
    pose proof (set_indices_members (whitespace_states_ g) index) as M2.
    destruct (set_indices index (whitespace_states_ g)) as [ws index'].
    simpl in *. now rewrite !map_app, M1, M2.
  - unfold g1, generate_indices_for_states.
    destruct (set_indices 0 (states_ g)) as [states index].
    now destruct (set_indices index (whitespace_states_ g)) as [ws index'].
Qed.

(** ** The assertions of [generate_states] in the constructor *)

(** X20.  The two calls of [generate_states] that the constructor from
    tokens and whitespace tokens makes pass its assertions: the set handed
    over is empty and the start state is null, for the states of the tokens
    once their parser is constructed, and for the whitespace states after
    the states of the tokens have been generated and the parser of the
    whitespace tokens is constructed. *)
Theorem new_LexerGenerator_asserts fuel tokens whitespace_tokens sink g1 :
  generate_states fuel tokens TokenStates
    (new_RegexParser tokens (initial_generator sink)) = Some g1 ->
  generate_states_pre TokenStates
    (new_RegexParser tokens (initial_generator sink)) = true
  /\ generate_states_pre WhitespaceStates
       (new_RegexParser whitespace_tokens g1) = true.
Proof.
  intros E1.
  destruct (new_RegexParser_kept tokens (initial_generator sink))
    as (_ & Hs0 & Hws0 & Hstart0 & Hwstart0 & _).
  destruct (new_RegexParser_kept whitespace_tokens g1)
    as (_ & _ & Hws1 & _ & Hwstart1 & _).
  unfold generate_states_pre. simpl.
  rewrite Hs0, Hstart0, Hws1, Hwstart1. split; [reflexivity|].
  rewrite (whitespace_states_kept fuel tokens
             (new_RegexParser tokens (initial_generator sink)) g1 Hws0 E1).
  destruct (generate_states_loops_frame _ _ _ _ _ E1)
    as (g0 & (_ & _ & _ & Hstart & _) & ->).
  destruct (frame_generate_indices WhitespaceStates g0) as (_ & _ & _ & Es & _).
  simpl in Es, Hstart. now rewrite Es, Hstart, Hwstart0.
Qed.

(** ** Empty items *)

Lemma discovered_items node first k :
  discovered node [first] k ->
  k = [first] \/ exists item, k = [item] /\ item <> [].
Proof.
  induction 1 as [|state r Hstate IH Hr Hne]; [now left|].
  right.
  assert (Hitem : exists item, items_ state = [item])
    by (destruct IH as [E|(item & E & _)]; eauto).
  destruct Hitem as (item & Eitem).
  rewrite (goto_one_item node state item _ _ Eitem) in Hne |- *.
  destruct (next_nodes node item (fst r) (snd r)) as [|i next];
    [contradiction|].
  exists (i :: next). split; [reflexivity | discriminate].
Qed.

(** X21.  When [generate_states], called on an empty set, returns, the item
    of every state of the set but the start state is not empty: [goto_] adds
    no empty item, while the first positions of the parser are added as they
    are. *)
Theorem generate_states_items_not_empty fuel regex_parser t g g' :
  generate_states_pre t g = true ->
  generate_states fuel regex_parser t g = Some g' ->
  forall s, In s (get_states t g') ->
    items_ s = [first_positions regex_parser]
    \/ exists item, items_ s = [item] /\ item <> [].
Proof.
  intros Hpre Hrun s Hs.
  apply (discovered_items (node_at regex_parser)).
  apply (generate_states_discovered _ _ _ _ _ Hpre Hrun).
  now apply in_map.
Qed.

End IndicesAgain.

Lemma new_LexerGenerator_asserts_witness :
  exists g1,
    @generate_states example_declarations 10 x_action_parser TokenStates
      (new_RegexParser x_action_parser (initial_generator true)) = Some g1
    /\ generate_states_pre WhitespaceStates
         (new_RegexParser space_action_parser g1) = true.
Proof.
  destruct (@generate_states example_declarations 10 x_action_parser
              TokenStates
              (new_RegexParser x_action_parser (initial_generator true)))
    as [g1|] eqn:E; [|vm_compute in E; discriminate].
  exists g1. split; [reflexivity|].
  exact (proj2 (@new_LexerGenerator_asserts example_declarations 10
                  x_action_parser space_action_parser true g1 E)).
Defined.

Lemma generate_states_items_not_empty_witness :
  exists g',
    @generate_states example_declarations 10 x_parser TokenStates
      (initial_generator true) = Some g'
    /\ forall s, In s (states_ g') ->
         items_ s = [first_positions x_parser]
         \/ exists item, items_ s = [item] /\ item <> [].
Proof.
  destruct (@generate_states example_declarations 10 x_parser TokenStates
              (initial_generator true)) as [g'|] eqn:E;
    [|vm_compute in E; discriminate].
  exists g'. split; [reflexivity|].
  exact (@generate_states_items_not_empty example_declarations 10 x_parser
           TokenStates (initial_generator true) g' eq_refl E).
Defined.

(** ** What [generate_states] reads of the generator *)

Lemma same_run_sym t d1 d2 g1 g2 :
  same_run t d1 d2 g1 g2 -> same_run t d2 d1 g2 g1.
Proof.
  intros (H1 & H2 & H3 & calls & H4 & H5). repeat split; auto.
  now exists calls.
Qed.

Lemma same_run_set_states t d1 d2 g1 g2 states :
  same_run t d1 d2 g1 g2 ->
  same_run t d1 d2 (set_states t states g1) (set_states t states g2).
Proof.
  intros (H1 & H2 & H3 & H4). split; [exact H1|].
  split; [now rewrite !get_set_states|]. split; [now destruct t | exact H4].
Qed.

Lemma same_run_set_ranges t d1 d2 g1 g2 ranges1 ranges2 :
  same_run t d1 d2 g1 g2 ->
  same_run t d1 d2 (set_ranges ranges1 g1) (set_ranges ranges2 g2).
Proof.
  intros (H1 & H2 & H3 & H4). split; [exact H1|].
  split; [now destruct t|]. split; [now destruct t | exact H4].
Qed.

Lemma same_run_set_start_state t d1 d2 g1 g2 start :
  same_run t d1 d2 g1 g2 ->
  same_run t d1 d2 (set_start_state t start g1) (set_start_state t start g2).
Proof.
  intros (H1 & H2 & H3 & H4). split; [exact H1|].
  split; [now destruct t|]. split; [now destruct t | exact H4].
Qed.

Lemma same_run_visit_token t d1 d2 tok sel g1 g2 sel' g1' :
  same_run t d1 d2 g1 g2 ->
  visit_token tok (sel, g1) = Some (sel', g1') ->
  exists g2', visit_token tok (sel, g2) = Some (sel', g2')
              /\ same_run t d1 d2 g1' g2'.
Proof.
  intros Hsame. unfold visit_token.
  destruct (token_type tok >? sel_type sel);
    [intros [= <- <-]; now exists g2|].
  destruct ((token_type tok =? sel_type sel) && (token_line tok <? sel_line sel));
    [intros [= <- <-]; now exists g2|].
  destruct ((token_type tok =? sel_type sel) && (token_line tok =? sel_line sel));
    [|intros [= <- <-]; now exists g2].
  destruct (sel_token sel) as [token|]; [|discriminate].
  intros [= <- <-]. eexists. split; [reflexivity|].
  destruct Hsame as (H1 & H2 & H3 & calls & H4 & H5).
  unfold fire_error. rewrite <- H1.
  destruct (event_sink_ g1) eqn:Hsink;
    [|split; [congruence|]; split; [exact H2|]; split; [exact H3|];
      now exists calls].
  split; [simpl; congruence|]. split; [now destruct t|]. split; [now destruct t|].
  exists (calls ++ [lexer_error (token_line token)
                      (LexerSymbolConflictError token tok)]).
  simpl. now rewrite H4, H5, !app_assoc.
Qed.

Lemma same_run_fold_visit t d1 d2 toks : forall sel g1 g2 sel' g1',
  same_run t d1 d2 g1 g2 ->
  fold_option visit_token toks (sel, g1) = Some (sel', g1') ->
  exists g2', fold_option visit_token toks (sel, g2) = Some (sel', g2')
              /\ same_run t d1 d2 g1' g2'.
Proof.
  induction toks as [|tok toks IH]; intros sel g1 g2 sel' g1' Hsame;
    cbn [fold_option].
  - intros [= <- <-]. now exists g2.
  - destruct (visit_token tok (sel, g1)) as [[sel1 g11]|] eqn:E; [|discriminate].
    destruct (same_run_visit_token t d1 d2 tok sel g1 g2 sel1 g11 Hsame E)
      as (g21 & -> & Hsame1).
    now apply IH.
Qed.

Section SameRun.

Context `{Declarations}.

Variable node : nat -> RegexNode.
Variable t : Target.
Variables d1 d2 : list SinkCall.

Lemma same_run_generate_symbol state g1 g2 state' g1' :
  same_run t d1 d2 g1 g2 ->
  generate_symbol_for_state node state g1 = Some (state', g1') ->
  exists g2', generate_symbol_for_state node state g2 = Some (state', g2')
              /\ same_run t d1 d2 g1' g2'.
Proof.
  intros Hsame. unfold generate_symbol_for_state.
  rewrite !select_token_accepting_tokens.
  destruct (fold_option visit_token _ (initial_selection, g1))
    as [[sel g11]|] eqn:E; [|discriminate].
  destruct (same_run_fold_visit t d1 d2 _ _ g1 g2 sel g11 Hsame E)
    as (g21 & -> & Hsame1).
  intros [= <- <-]. now exists g21.
Qed.

Lemma same_run_goto_step state begin end_ g1 g2 added g1' added' :
  same_run t d1 d2 g1 g2 ->
  goto_step node t state begin end_ (g1, added) = Some (g1', added') ->
  exists g2', goto_step node t state begin end_ (g2, added) = Some (g2', added')
              /\ same_run t d1 d2 g1' g2'.
Proof.
  intros Hsame. unfold goto_step.
  destruct (items_ (goto_ node state begin end_)) as [|item items];
    [intros [= <- <-]; now exists g2|].
  pose proof Hsame as (_ & Hstates & _). rewrite <- Hstates.
  destruct (set_insert state_compare _ (get_states t g1)) as [states inserted].
  destruct inserted.
  - destruct (generate_symbol_for_state node _ (set_states t states g1))
      as [[goto_state' g12]|] eqn:Esym; [|discriminate].
    destruct (same_run_generate_symbol _ _ (set_states t states g2) _ _
                (same_run_set_states t d1 d2 g1 g2 states Hsame) Esym)
      as (g22 & -> & Hsame2).
    intros [= <- <-]. eexists. split; [reflexivity|].
    pose proof Hsame2 as (_ & Hstates2 & _).
    rewrite !get_set_states, <- Hstates2.
    now apply same_run_set_states, same_run_set_states.
  - intros [= <- <-]. eexists. split; [reflexivity|].
    rewrite !get_set_states.
    now apply same_run_set_states, same_run_set_states.
Qed.

Lemma same_run_goto_loop state ranges : forall g1 g2 added g1' added',
  same_run t d1 d2 g1 g2 ->
  goto_loop node t state ranges (g1, added) = Some (g1', added') ->
  exists g2', goto_loop node t state ranges (g2, added) = Some (g2', added')
              /\ same_run t d1 d2 g1' g2'.
Proof.
  induction ranges as [|m|[b f] [e fe] rest IH1 IH2] using ranges_walk_ind;
    intros g1 g2 added g1' added' Hsame Hrun.
  - inversion Hrun; subst. now exists g2.
  - destruct m. discriminate.
  - cbn [goto_loop] in Hrun |- *.
    destruct (goto_step node t state b e (g1, added)) as [[g11 added1]|] eqn:E;
      [|discriminate].
    destruct (same_run_goto_step _ _ _ _ _ _ _ _ Hsame E) as (g21 & -> & Hsame1).
    destruct fe; [now apply (IH1 g11) | now apply (IH2 g11)].
Qed.

Lemma same_run_process_state state g1 g2 added g1' added' :
  same_run t d1 d2 g1 g2 ->
  process_state node t state (g1, added) = Some (g1', added') ->
  exists g2', process_state node t state (g2, added) = Some (g2', added')
              /\ same_run t d1 d2 g1' g2'.
Proof.
  intros Hsame. unfold process_state. cbv zeta. cbn [ranges_ set_ranges].
  unfold clear. pose proof Hsame as (_ & Hstates & _). rewrite <- Hstates.
  apply same_run_goto_loop.
  now apply same_run_set_ranges, same_run_set_states.
Qed.

Lemma same_run_for_states fuel : forall i g1 g2 added g1' added',
  same_run t d1 d2 g1 g2 ->
  for_states fuel node t i (g1, added) = Some (g1', added') ->
  exists g2', for_states fuel node t i (g2, added) = Some (g2', added')
              /\ same_run t d1 d2 g1' g2'.
Proof.
  induction fuel as [|fuel IH]; intros i g1 g2 added g1' added' Hsame Hrun;
    [discriminate|].
  cbn [for_states fst] in Hrun |- *.
  destruct i as [k|]; [|inversion Hrun; subst; now exists g2].
  pose proof Hsame as (_ & Hstates & _). rewrite <- Hstates.
  destruct (find_state k (get_states t g1)) as [state|]; [|discriminate].
  destruct (processed_ state).
  - cbn [fst] in Hrun |- *. rewrite <- Hstates. now apply (IH _ g1).
  - destruct (process_state node t state (g1, added)) as [[g11 added1]|] eqn:E;
      [|discriminate].
    destruct (same_run_process_state _ _ _ _ _ _ Hsame E) as (g21 & -> & Hsame1).
    pose proof Hsame1 as (_ & Hstates1 & _). cbn [fst] in Hrun |- *.
    rewrite <- Hstates1. now apply (IH _ g11).
Qed.

Lemma same_run_while_added fuel : forall g1 g2 g1',
  same_run t d1 d2 g1 g2 ->
  while_added fuel node t g1 = Some g1' ->
  exists g2', while_added fuel node t g2 = Some g2'
              /\ same_run t d1 d2 g1' g2'.
Proof.
  induction fuel as [|fuel IH]; intros g1 g2 g1' Hsame Hrun; [discriminate|].
  cbn [while_added] in Hrun |- *.
  pose proof Hsame as (_ & Hstates & _). rewrite <- Hstates.
  destruct (for_states fuel node t _ (g1, 0)) as [[g11 added]|] eqn:E;
    [|discriminate].
  destruct (same_run_for_states _ _ _ _ _ _ _ Hsame E) as (g21 & -> & Hsame1).
  destruct (added >? 0); [now apply (IH g11)|].
  inversion Hrun; subst. now exists g21.
Qed.

End SameRun.

Section SameRunAtReturn.

Context `{Declarations}.

Lemma generate_states_generated fuel regex_parser t g :
  generate_states fuel regex_parser t g
  = option_map generate_indices_for_states
      (generated_states fuel regex_parser t g).
Proof. reflexivity. Qed.

Lemma same_run_generated fuel regex_parser t d1 d2 g1 g2 r1 :
  same_run t d1 d2 g1 g2 ->
  generated_states fuel regex_parser t g1 = Some r1 ->
  exists r2, generated_states fuel regex_parser t g2 = Some r2
             /\ same_run t d1 d2 r1 r2.
Proof.
  intros Hsame. unfold generated_states.
  destruct (negb (parser_empty regex_parser) && (parser_errors regex_parser =? 0));
    [|intros [= <-]; now exists g2].
  destruct (generate_symbol_for_state _ _ g1) as [[state' g11]|] eqn:Esym;
    [|discriminate].
  destruct (same_run_generate_symbol _ t d1 d2 _ _ g2 _ _ Hsame Esym)
    as (g21 & -> & Hsame1).
  cbv zeta. pose proof Hsame1 as (_ & Hstates1 & _). rewrite <- Hstates1.
  apply same_run_while_added.
  now apply same_run_set_start_state, same_run_set_states.
Qed.

(** X22.  Of the generator it is called on, [generate_states] reads the sink
    and nothing else. Called on two generators with the same sink, each with
    the set empty and the start state null, it returns for both or for
    neither, with the same start state and the same states but for their
    indices, and it delivers the same calls to the two sinks. So the
    whitespace states that the constructor builds are those it would build
    had there been no tokens. *)
Theorem generate_states_reads_the_sink fuel regex_parser t g1 g2 :
  event_sink_ g1 = event_sink_ g2 ->
  generate_states_pre t g1 = true -> generate_states_pre t g2 = true ->
  match generate_states fuel regex_parser t g1,
        generate_states fuel regex_parser t g2 with
  | Some r1, Some r2 =>
      map state_members (get_states t r1) = map state_members (get_states t r2)
      /\ get_start_state t r1 = get_start_state t r2
      /\ exists calls,
           delivered_ r1 = delivered_ g1 ++ calls
           /\ delivered_ r2 = delivered_ g2 ++ calls
  | None, None => True
  | _, _ => False
  end.
Proof.
  intros Hsink Hpre1 Hpre2.
  assert (Hsame : same_run t (delivered_ g1) (delivered_ g2) g1 g2).
  { unfold generate_states_pre in Hpre1, Hpre2.
    destruct (get_states t g1) eqn:E1; [|discriminate].
    destruct (get_start_state t g1) eqn:S1; [discriminate|].
    destruct (get_states t g2) eqn:E2; [|discriminate].
    destruct (get_start_state t g2) eqn:S2; [discriminate|].
    unfold same_run. rewrite E1, E2, S1, S2. repeat split; [exact Hsink|].
    exists []. now rewrite !app_nil_r. }
  rewrite !generate_states_generated.
  destruct (generated_states fuel regex_parser t g1) as [l1|] eqn:L1.
  - destruct (same_run_generated _ _ _ _ _ _ _ _ Hsame L1)
      as (l2 & -> & (_ & Hstates & Hstart & calls & D1 & D2)).
    simpl.
    destruct (frame_generate_indices t l1) as (_ & _ & Ed1 & Es1 & i1 & Eg1).
    destruct (frame_generate_indices t l2) as (_ & _ & Ed2 & Es2 & i2 & Eg2).
    rewrite Eg1, Eg2, Es1, Es2, Ed1, Ed2.
    split; [|split; [exact Hstart | now exists calls]].
    unfold state_members. rewrite !set_indices_members. now rewrite Hstates.
  - destruct (generated_states fuel regex_parser t g2) as [l2|] eqn:L2;
      [|exact I].
    destruct (same_run_generated _ _ _ _ _ _ _ _ (same_run_sym _ _ _ _ _ Hsame) L2)
      as (l1 & L1' & _).
    congruence.
Qed.

End SameRunAtReturn.

Lemma generate_states_reads_the_sink_witness :
  exists g1 r1 r2,
    @generate_states example_declarations 10 x_parser TokenStates
      (initial_generator true) = Some g1
    /\ @generate_states example_declarations 10 space_parser WhitespaceStates g1
       = Some r1
    /\ @generate_states example_declarations 10 space_parser WhitespaceStates
         (initial_generator true) = Some r2
    /\ map state_members (whitespace_states_ r1)
       = map state_members (whitespace_states_ r2).
Proof.
  destruct (@generate_states example_declarations 10 x_parser TokenStates
              (initial_generator true)) as [g1|] eqn:E1;
    [|vm_compute in E1; discriminate].
  assert (Hsink : event_sink_ g1 = event_sink_ (initial_generator true))
    by (vm_compute in E1; now inversion E1).
  assert (Hpre : generate_states_pre WhitespaceStates g1 = true)
    by (vm_compute in E1; now inversion E1).
  pose proof (@generate_states_reads_the_sink example_declarations 10
                space_parser WhitespaceStates g1 (initial_generator true)
                Hsink Hpre eq_refl) as Hsame.
  destruct (@generate_states example_declarations 10 space_parser
              WhitespaceStates g1) as [r1|] eqn:E3;
    destruct (@generate_states example_declarations 10 space_parser
                WhitespaceStates (initial_generator true)) as [r2|] eqn:E2;
    try contradiction; [|vm_compute in E2; discriminate].
  exists g1, r1, r2. split; [reflexivity|]. split; [exact E3|].
  split; [reflexivity|]. apply Hsame.
Defined.


(** ** The sentinel characters *)


Section Sentinels.

Context `{Declarations}.



End Sentinels.


